(** * TexPack layout engine: Shelf, Stack and MaxRects packers

    A shallow embedding of [layouts.py] and the properties of its packers.
    Python integers are unbounded, hence [Z]; Python lists are [list]s
    addressed by position with stdpp's lookup, insert and delete. *)

From stdpp Require Import base list strings.
From Stdlib Require Import ZArith Lia.

Local Open Scope Z_scope.

(** ** The rectangle primitive *)

(** Modelled from the spec: the [Rect] class of the [spritesheet] module is
    imported by [layouts.py] but defined elsewhere.  It carries four integers
    [(x, y, w, h)], with [left], [top], [width] and [height] as other names
    of the same four attributes, [right = x + w] and [bottom = y + h]; its
    constructor takes [(w, h, x, y)] with the position defaulting to the
    origin, as the calls [Rect(w, h)] and [Rect(rect.w, rect.h, free.x,
    free.y)] of the source show. *)
Module Rect.

Record t : Type := make { w : Z; h : Z; x : Z; y : Z }.

Definition right (r : t) : Z := x r + w r.
Definition bottom (r : t) : Z := y r + h r.

Definition set_x (r : t) (v : Z) : t := make (w r) (h r) v (y r).
Definition set_y (r : t) (v : Z) : t := make (w r) (h r) (x r) v.
Definition set_w (r : t) (v : Z) : t := make v (h r) (x r) (y r).
Definition set_h (r : t) (v : Z) : t := make (w r) v (x r) (y r).

(** [a.x < b.right and b.x < a.right and a.y < b.bottom and b.y < a.bottom] *)
Definition intersects (a b : t) : bool :=
  (x a <? right b) && (x b <? right a) && (y a <? bottom b) && (y b <? bottom a).

(** A point of the closed region of [a]. *)
Definition covers (a : t) (px py : Z) : bool :=
  (x a <=? px) && (px <=? right a) && (y a <=? py) && (py <=? bottom a).

(** All four corners of [b] lie in the closed region of [a]. *)
Definition contains (a b : t) : bool :=
  covers a (x b) (y b) && covers a (right b) (y b) &&
  covers a (x b) (bottom b) && covers a (right b) (bottom b).

Definition area (r : t) : Z := w r * h r.

End Rect.

(** ** Sprites *)

(** Modelled from the spec: a sprite is a [Rect] with a [rotated] flag and a
    [rotate()] that swaps [w] and [h] and flips the flag.  Sprites are Python
    objects that the layouts mutate in place; [oid] stands for the identity of
    the object, which no operation changes. *)
Module Sprite.

Record t : Type := make { rect : Rect.t; rotated : bool; oid : nat }.

Definition w (s : t) : Z := Rect.w (rect s).
Definition h (s : t) : Z := Rect.h (rect s).
Definition x (s : t) : Z := Rect.x (rect s).
Definition y (s : t) : Z := Rect.y (rect s).

Definition rotate (s : t) : t :=
  make (Rect.make (h s) (w s) (x s) (y s)) (negb (rotated s)) (oid s).

Definition set_x (s : t) (v : Z) : t := make (Rect.set_x (rect s) v) (rotated s) (oid s).
Definition set_y (s : t) (v : Z) : t := make (Rect.set_y (rect s) v) (rotated s) (oid s).

(** A fresh, unrotated sprite of the given size, at the origin. *)
Definition new (id : nat) (w h : Z) : t := make (Rect.make w h 0 0) false id.

End Sprite.

(** ** The sheet context *)

(** Modelled from the spec: the sheet a layout is built for gives the bin
    size, whether rotation is allowed, and the predicate [check]. *)
Module Sheet.

Record t : Type := make { size : Z * Z; rotate : bool; check : Rect.t -> bool }.

Definition in_bin (maxw maxh : Z) (r : Rect.t) : bool :=
  (0 <=? Rect.x r) && (0 <=? Rect.y r) &&
  (Rect.right r <=? maxw) && (Rect.bottom r <=? maxh).

(** A sheet whose [check] validates against the bin bounds only. *)
Definition bounded (maxw maxh : Z) (rot : bool) : t :=
  make (maxw, maxh) rot (in_bin maxw maxh).

End Sheet.

(** ** Exceptions *)

Inductive exn : Type :=
  | NameError
  | UnboundLocalError
  | IndexError
  | NotImplementedError.

Inductive result (A : Type) : Type :=
  | Ok (a : A)
  | Raise (e : exn).
Arguments Ok {A} a.
Arguments Raise {A} e.

Definition bind {A B : Type} (m : result A) (k : A -> result B) : result B :=
  match m with
  | Ok a => k a
  | Raise e => Raise e
  end.

Notation "x <- m ;; k" := (bind m (fun x => k))
  (at level 100, m at next level, right associativity).

(** ** The base class and its driver *)

Module Layout.

(** The two methods a subclass gives.  [get_best] may rotate the sprites of
    the list it is given (they are mutated in place), so it returns the list
    as it leaves it, with the triple [(i, pos, rot)], or [None] for the
    triple [(None, None, None)].  [place] returns its boolean with the
    layout and the sprite as it leaves them. *)
Class t (St Pos : Type) : Type := {
  get_best : St -> list Sprite.t -> list Sprite.t * option (nat * Pos * bool);
  place : St -> Sprite.t -> Pos -> bool -> bool * St * Sprite.t
}.

Section Driver.
Context {St Pos : Type} `{L : t St Pos}.

(** What one turn of the [while] loop does. *)
Inductive turn : Type :=
  | Again (st : St) (placed remain : list Sprite.t)
  | Break (st : St) (placed remain : list Sprite.t)
  | Throw (e : exn).

Definition add_turn (st : St) (placed remain : list Sprite.t) : turn :=
  match remain with
  | [] => Break st placed remain
  | _ :: _ =>
    let '(remain1, best) := get_best st remain in
    match best with
    | None => Break st placed remain1
    | Some (i, pos, rot) =>
      match remain1 !! i with
      | None => Throw IndexError
      | Some spr =>
        let '(ok, st1, spr1) := place st spr pos rot in
        if ok then Again st1 (placed ++ [spr1]) (delete i remain1)
        else Break st1 placed (<[i := spr1]> remain1)
      end
    end
  end.

(** The loop, with [fuel] bounding the number of turns; [None] when the
    fuel is used up before the loop ends. *)
Fixpoint add_loop (fuel : nat) (st : St) (placed remain : list Sprite.t)
  : option (result (St * list Sprite.t * list Sprite.t)) :=
  match fuel with
  | O => None
  | S fuel' =>
    match add_turn st placed remain with
    | Again st1 placed1 remain1 => add_loop fuel' st1 placed1 remain1
    | Break st1 placed1 remain1 => Some (Ok (st1, placed1, remain1))
    | Throw e => Some (Raise e)
    end
  end.

(** The number of turns of the loop that place a sprite. *)
Fixpoint add_turns (fuel : nat) (st : St) (placed remain : list Sprite.t) : nat :=
  match fuel with
  | O => O
  | S fuel' =>
    match add_turn st placed remain with
    | Again st1 placed1 remain1 => S (add_turns fuel' st1 placed1 remain1)
    | _ => O
    end
  end.

Definition add (st : St) (sprites : list Sprite.t)
  : option (result (St * list Sprite.t * list Sprite.t)) :=
  add_loop (S (length sprites)) st [] sprites.

End Driver.

(** What the driver relies on: [get_best] rotates sprites but neither adds
    nor drops nor reorders them, the index it returns is a position of the
    list, and [place] returns the object it was given. *)
Class Lawful {St Pos : Type} (L : t St Pos) : Prop := {
  get_best_oids : forall st sprites,
    Sprite.oid <$> (get_best st sprites).1 = Sprite.oid <$> sprites;
  get_best_index : forall st sprites i pos rot,
    (get_best st sprites).2 = Some (i, pos, rot) -> (i < length sprites)%nat;
  place_oid : forall st spr pos rot,
    Sprite.oid (place st spr pos rot).2 = Sprite.oid spr
}.

End Layout.

(** ** ShelfLayout *)

Module ShelfLayout.

Module Shelf.
Record t : Type := make {
  start : Z;
  size : Z;
  max : Z;
  rects : list Sprite.t
}.

(** [Shelf(start)]: [size] defaults to 0. *)
Definition new (start : Z) : t := make start 0 0 [].

Definition place (sh : t) (rect : Sprite.t) : t * Sprite.t :=
  let rect1 := Sprite.set_x rect (size sh) in
  let rect2 := Sprite.set_y rect1 (start sh) in
  let size1 := size sh + Sprite.w rect2 in
  let max1 := if max sh <? Sprite.h rect2 then Sprite.h rect2 else max sh in
  (make (start sh) size1 max1 (rects sh ++ [rect2]), rect2).
End Shelf.

Record state : Type := make { size : Z; shelves : list Shelf.t }.

Definition clear : state := make 0 [].

(** The shelf a candidate refers to: the object at a position of
    [self.shelves], or a new [Shelf] that is not in the list yet. *)
Inductive ref : Type :=
  | Existing (k : nat)
  | Fresh (sh : Shelf.t).

Section WithSheet.
Variable sheet : Sheet.t.
Let maxw : Z := (Sheet.size sheet).1.
Let maxh : Z := (Sheet.size sheet).2.

(** [best_shelf is None or score < best_shelf[1]] *)
Definition improves (score : Z) (best : option (ref * Z)) : bool :=
  match best with
  | None => true
  | Some (_, s) => score <? s
  end.

(** The loop over [self.shelves] for one sprite; [k] is the position of
    the head of [shelves] in the layout's list. *)
Fixpoint scan (k : nat) (shelves : list Shelf.t) (spr : Sprite.t)
    (best_shelf : option (ref * Z)) : Sprite.t * option (ref * Z) :=
  match shelves with
  | [] => (spr, best_shelf)
  | shelf :: rest =>
    let spr1 :=
      if Sheet.rotate sheet && (Sprite.w spr >? Sprite.h spr)
         && (Sprite.w spr <=? Shelf.max shelf)
      then Sprite.rotate spr else spr in
    let best1 :=
      if (Shelf.size shelf + Sprite.w spr1 <=? maxw)
         && (Sprite.h spr1 <=? Shelf.max shelf)
      then
        let score := (maxw - Shelf.size shelf - Sprite.w spr1) * Shelf.max shelf
                     + Sprite.w spr1 * (Shelf.max shelf - Sprite.h spr1) in
        if improves score best_shelf then Some (Existing k, score) else best_shelf
      else best_shelf in
    scan (S k) rest spr1 best1
  end.

(** The body of the loop over the sprites: the sprite as the body leaves
    it, and its best shelf with its score, or [None] where the body ends
    in [continue]. *)
Definition candidate (st : state) (spr : Sprite.t) : Sprite.t * option (ref * Z) :=
  if (Sprite.w spr >? maxw) || (Sprite.h spr >? maxh) then (spr, None)
  else
    let '(spr1, best_shelf) := scan 0 (shelves st) spr None in
    match best_shelf with
    | Some b => (spr1, Some b)
    | None =>
      let spr2 :=
        if Sheet.rotate sheet && (Sprite.h spr1 >? Sprite.w spr1)
        then Sprite.rotate spr1 else spr1 in
      if negb (bool_decide (shelves st = [])) && (size st + Sprite.h spr2 >? maxh)
      then (spr2, None)
      else (spr2, Some (Fresh (Shelf.new (size st)), (maxw - Sprite.w spr2) * Sprite.h spr2))
    end.

Fixpoint get_best_from (st : state) (i : nat) (sprites : list Sprite.t)
    (best : option (nat * ref * bool)) (best_score : option Z)
    : list Sprite.t * option (nat * ref * bool) :=
  match sprites with
  | [] => ([], best)
  | spr :: rest =>
    let '(spr1, cand) := candidate st spr in
    let '(best1, best_score1) :=
      match cand with
      | None => (best, best_score)
      | Some (shelf, score) =>
        if match best_score with None => true | Some b => score <? b end
        then (Some (i, shelf, Sprite.rotated spr1), Some score)
        else (best, best_score)
      end in
    let '(rest1, res) := get_best_from st (S i) rest best1 best_score1 in
    (spr1 :: rest1, res)
  end.

Definition get_best (st : state) (sprites : list Sprite.t)
    : list Sprite.t * option (nat * ref * bool) :=
  get_best_from st 0 sprites None None.

(** [place]: the shelf is mutated in place when it is one of the layout's
    list, and appended after the mutation when it is not.  A position out
    of the list is no reference to any shelf and leaves the layout as it
    is. *)
Definition place (st : state) (sprite : Sprite.t) (shelf : ref) (rotate : bool)
    : bool * state * Sprite.t :=
  let sprite1 := if xorb (Sprite.rotated sprite) rotate
                 then Sprite.rotate sprite else sprite in
  match shelf with
  | Existing k =>
    match shelves st !! k with
    | Some sh =>
      let '(sh1, sprite2) := Shelf.place sh sprite1 in
      (true,
       make (Z.max (size st) (Shelf.start sh1 + Shelf.max sh1)) (<[k := sh1]> (shelves st)),
       sprite2)
    | None => (true, st, sprite1)
    end
  | Fresh sh =>
    let '(sh1, sprite2) := Shelf.place sh sprite1 in
    (true,
     make (Z.max (size st) (Shelf.start sh1 + Shelf.max sh1)) (shelves st ++ [sh1]),
     sprite2)
  end.

End WithSheet.

#[export] Instance layout (sheet : Sheet.t) : Layout.t state ref :=
  {| Layout.get_best := get_best sheet; Layout.place := place |}.

(** [add] on a new [ShelfLayout] of the sheet: the constructor calls [clear]. *)
Definition add (sheet : Sheet.t) (sprites : list Sprite.t) :=
  Layout.add (L := layout sheet) clear sprites.

End ShelfLayout.

(** ** StackLayout *)

Module StackLayout.

Module Stack.
Record t : Type := make {
  start : Z;
  size : Z;
  max : Z;
  rects : list Sprite.t
}.

Definition new (start : Z) : t := make start 0 0 [].

Definition place (sk : t) (rect : Sprite.t) : t * Sprite.t :=
  let rect1 := Sprite.set_x rect (start sk) in
  let rect2 := Sprite.set_y rect1 (size sk) in
  let size1 := size sk + Sprite.h rect2 in
  let max1 := if max sk <? Sprite.w rect2 then Sprite.w rect2 else max sk in
  (make (start sk) size1 max1 (rects sk ++ [rect2]), rect2).
End Stack.

Record state : Type := make { size : Z; stacks : list Stack.t }.

Definition clear : state := make 0 [].

(** The local variables of [add] that the loop over the stacks assigns:
    [best], [stack] (the position of the chosen stack in [self.stacks]), and
    [tw], [th], [rotated], which are unbound until the loop body has run. *)
Record locals : Type := mk_locals {
  best : option Z;
  stack : option nat;
  tw : option Z;
  th : option Z;
  rotated : option bool
}.

(** Reading a local variable that was never assigned. *)
Definition read {A : Type} (v : option A) : result A :=
  match v with
  | Some a => Ok a
  | None => Raise UnboundLocalError
  end.

Section WithSheet.
Variable sheet : Sheet.t.
Let maxw : Z := (Sheet.size sheet).1.
Let maxh : Z := (Sheet.size sheet).2.

(** The loop over [self.stacks].  Its first test reads [sh.max], and no
    name [sh] is bound anywhere: evaluating that operand raises
    [NameError].  The two operands before it short-circuit. *)
Fixpoint scan (k : nat) (stacks : list Stack.t) (w h : Z) (v : locals)
    : result locals :=
  match stacks with
  | [] => Ok v
  | st :: rest =>
    dims <- (if Sheet.rotate sheet && (h >? w)
             then Raise NameError
             else Ok (w, h, false)) ;;
    let '(tw1, th1, rotated1) := dims in
    let v1 :=
      if (Stack.size st + th1 <=? maxh) && (tw1 <=? Stack.max st) then
        let score := (maxh - Stack.size st - th1) * Stack.max st
                     + th1 * (Stack.max st - tw1) in
        if match best v with None => true | Some b => score <? b end
        then mk_locals (Some score) (Some k) (Some tw1) (Some th1) (Some rotated1)
        else mk_locals (best v) (stack v) (Some tw1) (Some th1) (Some rotated1)
      else mk_locals (best v) (stack v) (Some tw1) (Some th1) (Some rotated1) in
    scan (S k) rest w h v1
  end.

(** [StackLayout.add(spr)]: places one sprite and returns a boolean; the
    layout and the sprite are returned as the call leaves them. *)
Definition add (s : state) (spr : Sprite.t) : result (bool * state * Sprite.t) :=
  let w := Sprite.w spr in
  let h := Sprite.h spr in
  if (w >? maxw) || (h >? maxh) then Ok (false, s, spr)
  else
    v <- scan 0 (stacks s) w h (mk_locals None None None None None) ;;
    match stack v with
    | None =>
      full <- (if negb (bool_decide (stacks s = []))
               then (t <- read (tw v) ;; Ok (size s + t >? maxw))
               else Ok false) ;;
      if (full : bool) then Ok (false, s, spr)
      else
        let '(sk1, spr1) := Stack.place (Stack.new (size s)) spr in
        Ok (true,
            make (Z.max (size s) (Stack.start sk1 + Stack.max sk1)) (stacks s ++ [sk1]),
            spr1)
    | Some k =>
      r <- read (rotated v) ;;
      match stacks s !! k with
      | None => Raise IndexError
      | Some sk =>
        let spr0 := if (r : bool) then Sprite.rotate spr else spr in
        let '(sk1, spr1) := Stack.place sk spr0 in
        Ok (true,
            make (Z.max (size s) (Stack.start sk1 + Stack.max sk1)) (<[k := sk1]> (stacks s)),
            spr1)
      end
    end.

(** Adding the sprites of a list one call after the other, as a caller
    of [add] does; the booleans of the calls are collected. *)
Fixpoint add_all (s : state) (sprites : list Sprite.t)
    : result (state * list (bool * Sprite.t)) :=
  match sprites with
  | [] => Ok (s, [])
  | spr :: rest =>
    r <- add s spr ;;
    let '(ok, s1, spr1) := r in
    r' <- add_all s1 rest ;;
    let '(s2, out) := r' in
    Ok (s2, (ok, spr1) :: out)
  end.

End WithSheet.

End StackLayout.

(** ** SkylineLayout *)

Module SkylineLayout.
Definition add (spr : Sprite.t) : result bool := Raise NotImplementedError.
End SkylineLayout.

(** ** MaxRectsLayout *)

Module MaxRectsLayout.

Record state : Type := make {
  used_rects : list Rect.t;
  free_rects : list Rect.t;
  debug_image_count : Z
}.

(** The elements of a list with their positions, as [enumerate] gives. *)
Definition enumerate {A : Type} (l : list A) : list (nat * A) :=
  imap (fun i a => (i, a)) l.

(** [split]: the boolean it returns, and [self.free_rects] with the new
    nodes appended. *)
Definition split (free_rects : list Rect.t) (free rect : Rect.t) : bool * list Rect.t :=
  if (Rect.x rect >=? Rect.x free + Rect.w free)
     || (Rect.x rect + Rect.w rect <=? Rect.x free)
     || (Rect.y rect >=? Rect.y free + Rect.h free)
     || (Rect.y rect + Rect.h rect <=? Rect.y free)
  then (false, free_rects)
  else
    let fr1 :=
      if (Rect.x rect <? Rect.x free + Rect.w free)
         && (Rect.x rect + Rect.w rect >? Rect.x free)
      then
        (* new node at the top side of the used node *)
        let fr_top :=
          if (Rect.y rect >? Rect.y free) && (Rect.y rect <? Rect.y free + Rect.h free)
          then free_rects ++ [Rect.set_h free (Rect.y rect - Rect.y free)]
          else free_rects in
        (* new node at the bottom side of the used node *)
        if Rect.y rect + Rect.h rect <? Rect.y free + Rect.h free
        then fr_top ++ [Rect.set_h (Rect.set_y free (Rect.y rect + Rect.h rect))
                          (Rect.y free + Rect.h free - (Rect.y rect + Rect.h rect))]
        else fr_top
      else free_rects in
    let fr2 :=
      if (Rect.y rect <? Rect.y free + Rect.h free)
         && (Rect.y rect + Rect.h rect >? Rect.y free)
      then
        (* new node at the left side of the used node *)
        let fr_left :=
          if (Rect.x rect >? Rect.x free) && (Rect.x rect <? Rect.x free + Rect.w free)
          then fr1 ++ [Rect.set_w free (Rect.x rect - Rect.x free)]
          else fr1 in
        (* new node at the right side of the used node *)
        if Rect.x rect + Rect.w rect <? Rect.x free + Rect.w free
        then fr_left ++ [Rect.set_w (Rect.set_x free (Rect.x rect + Rect.w rect))
                           (Rect.x free + Rect.w free - (Rect.x rect + Rect.w rect))]
        else fr_left
      else fr1 in
    (true, fr2).

(** One turn of the loop of [place] that splits the free nodes: [i] and
    [free] come from the reversed snapshot of the list, [free_rects] is the
    list as the turns before left it. *)
Definition split_turn (sprite : Rect.t) (free_rects : list Rect.t) (node : nat * Rect.t)
    : list Rect.t :=
  let '(i, free) := node in
  if Rect.intersects free sprite then
    let '(hit, free_rects1) := split free_rects free sprite in
    if hit then delete i free_rects1 else free_rects1
  else free_rects.

Definition split_free_nodes (sprite : Rect.t) (free_rects : list Rect.t) : list Rect.t :=
  foldl (split_turn sprite) free_rects (reverse (enumerate free_rects)).

(** Modelled from the spec: [free1 != free2] on [Rect]s, whose class is not
    in [layouts.py], compares by identity.  Every node of the list is an
    object of its own (the first comes from [clear], the others are copies
    made by [split]), so two nodes are the same object when they are at the
    same position of the list. *)
Definition dominated (free_rects : list Rect.t) (node2 : nat * Rect.t) : bool :=
  existsb (fun node1 : nat * Rect.t =>
             negb (node1.1 =? node2.1)%nat && Rect.contains node1.2 node2.2)
          (enumerate free_rects).

(** The comprehension that prunes the free list. *)
Definition prune (free_rects : list Rect.t) : list Rect.t :=
  snd <$> filter (fun node2 => dominated free_rects node2 = false) (enumerate free_rects).

Section WithSheet.
Variable sheet : Sheet.t.

Definition clear : state :=
  let '(w, h) := Sheet.size sheet in
  make [] [Rect.make w h 0 0] 0.

(** [best is None or ssf < bssf or (ssf == bssf and lsf < blsf)] *)
Definition beats (ssf lsf : Z) (best : option (Rect.t * Z * Z)) : bool :=
  match best with
  | None => true
  | Some (_, bssf, blsf) => (ssf <? bssf) || ((ssf =? bssf) && (lsf <? blsf))
  end.

(** The loop of [search]; [best] holds the rect with [bssf] and [blsf],
    which are [None] together. *)
Fixpoint search_from (free_rects : list Rect.t) (rect : Rect.t)
    (best : option (Rect.t * Z * Z)) (rotate : bool)
    : option (Rect.t * Z * Z) * bool :=
  match free_rects with
  | [] => (best, rotate)
  | free :: rest =>
    let best1 :=
      if (Rect.w free >=? Rect.w rect) && (Rect.h free >=? Rect.h rect) then
        let dx := Rect.w free - Rect.w rect in
        let dy := Rect.h free - Rect.h rect in
        let ssf := Z.min dx dy in
        let lsf := Z.max dx dy in
        if beats ssf lsf best
        then Some (Rect.make (Rect.w rect) (Rect.h rect) (Rect.x free) (Rect.y free), ssf, lsf)
        else best
      else best in
    let '(best2, rotate2) :=
      if Sheet.rotate sheet && (Rect.h free >=? Rect.w rect)
         && (Rect.w free >=? Rect.h rect) then
        let dx := Rect.w free - Rect.h rect in
        let dy := Rect.h free - Rect.w rect in
        let ssf := Z.min dx dy in
        let lsf := Z.max dx dy in
        if beats ssf lsf best1
        then (Some (Rect.make (Rect.h rect) (Rect.w rect) (Rect.x free) (Rect.y free), ssf, lsf),
              true)
        else (best1, rotate)
      else (best1, rotate) in
    search_from rest rect best2 rotate2
  end.

Definition search (st : state) (rect : Rect.t) : option (Rect.t * Z * Z) * bool :=
  search_from (free_rects st) rect None false.

(** The body of the loop of [get_best] for one sprite: the sprite as the
    body leaves it, and its position with its score, or [None] where the
    body ends in [continue].  In [pos and self.sheet.check(pos)] a [Rect]
    counts as true, as an object does, and [None] as false. *)
Definition candidate (st : state) (spr : Sprite.t)
    : Sprite.t * option (Rect.t * (Z * Z)) :=
  match search st (Sprite.rect spr) with
  | (None, _) => (spr, None)
  | (Some (pos, bssf, blsf), rotate) =>
    if negb (Sheet.check sheet pos) then (spr, None)
    else if rotate then
      if Sheet.rotate sheet then (Sprite.rotate spr, Some (pos, (bssf, blsf)))
      else (spr, None)
    else (spr, Some (pos, (bssf, blsf)))
  end.

(** [(bssf, blsf) < best_score] on tuples. *)
Definition tuple_lt (a b : Z * Z) : bool :=
  (a.1 <? b.1) || ((a.1 =? b.1) && (a.2 <? b.2)).

Fixpoint get_best_from (st : state) (i : nat) (sprites : list Sprite.t)
    (best : option (nat * Rect.t * bool)) (best_score : option (Z * Z))
    : list Sprite.t * option (nat * Rect.t * bool) :=
  match sprites with
  | [] => ([], best)
  | spr :: rest =>
    let '(spr1, cand) := candidate st spr in
    let '(best1, best_score1) :=
      match cand with
      | None => (best, best_score)
      | Some (pos, score) =>
        if match best_score with None => true | Some b => tuple_lt score b end
        then (Some (i, pos, Sprite.rotated spr1), Some score)
        else (best, best_score)
      end in
    let '(rest1, res) := get_best_from st (S i) rest best1 best_score1 in
    (spr1 :: rest1, res)
  end.

Definition get_best (st : state) (sprites : list Sprite.t)
    : list Sprite.t * option (nat * Rect.t * bool) :=
  get_best_from st 0 sprites None None.

Definition place (st : state) (sprite : Sprite.t) (position : Rect.t) (rotate : bool)
    : bool * state * Sprite.t :=
  let sprite1 := Sprite.set_y (Sprite.set_x sprite (Rect.x position)) (Rect.y position) in
  if negb (Sheet.check sheet (Sprite.rect sprite1)) then (false, st, sprite1)
  else
    let sprite2 := if xorb (Sprite.rotated sprite1) rotate
                   then Sprite.rotate sprite1 else sprite1 in
    let free1 := split_free_nodes (Sprite.rect sprite2) (free_rects st) in
    (true, make (used_rects st) (prune free1) (debug_image_count st), sprite2).

End WithSheet.

#[export] Instance layout (sheet : Sheet.t) : Layout.t state Rect.t :=
  {| Layout.get_best := get_best sheet; Layout.place := place sheet |}.

(** [add] on a new [MaxRectsLayout] of the sheet: the constructor calls [clear]. *)
Definition add (sheet : Sheet.t) (sprites : list Sprite.t) :=
  Layout.add (L := layout sheet) (clear sheet) sprites.

End MaxRectsLayout.

(** ** The factory *)

Inductive layout_class : Type :=
  | ShelfLayoutClass
  | StackLayoutClass
  | MaxRectsLayoutClass
  | SkylineLayoutClass.

Definition get_layout (name : string) : option layout_class :=
  if bool_decide (name = "shelf"%string) then Some ShelfLayoutClass
  else if bool_decide (name = "stack"%string) then Some StackLayoutClass
  else if bool_decide (name = "max-rects"%string) then Some MaxRectsLayoutClass
  else if bool_decide (name = "skyline"%string) then Some SkylineLayoutClass
  else None.

(** ** The free nodes a split makes *)

(** The nodes that [split] appends for one free node and one placed rect. *)
Definition new_nodes (rect free : Rect.t) : list Rect.t :=
  (MaxRectsLayout.split [] free rect).2.

(** The four nodes [split] can make, by the side of the placed rect they
    lie on. *)
Definition top_node (rect free : Rect.t) : Rect.t :=
  Rect.set_h free (Rect.y rect - Rect.y free).
Definition bottom_node (rect free : Rect.t) : Rect.t :=
  Rect.set_h (Rect.set_y free (Rect.y rect + Rect.h rect))
    (Rect.y free + Rect.h free - (Rect.y rect + Rect.h rect)).
Definition left_node (rect free : Rect.t) : Rect.t :=
  Rect.set_w free (Rect.x rect - Rect.x free).
Definition right_node (rect free : Rect.t) : Rect.t :=
  Rect.set_w (Rect.set_x free (Rect.x rect + Rect.w rect))
    (Rect.x free + Rect.w free - (Rect.x rect + Rect.w rect)).

(** The sprite with [sprite.x, sprite.y = position.x, position.y] done. *)
Definition moved (sprite : Sprite.t) (position : Rect.t) : Sprite.t :=
  Sprite.set_y (Sprite.set_x sprite (Rect.x position)) (Rect.y position).

#[export] Instance rect_eq_dec : EqDecision Rect.t.
Proof. solve_decision. Defined.

#[export] Instance sprite_eq_dec : EqDecision Sprite.t.
Proof. solve_decision. Defined.

(** ** Runs and what is observed of them *)

(** The sprites of a scenario: new objects of the given sizes, numbered in
    the order of the input. *)
Definition sprites_of (dims : list (Z * Z)) : list Sprite.t :=
  imap (fun i d => Sprite.new i d.1 d.2) dims.

(** A sprite as a scenario gives it: object, size, position. *)
Definition at_pos (id : nat) (w h x y : Z) (rot : bool) : Sprite.t :=
  Sprite.make (Rect.make w h x y) rot id.

Definition overlap (a b : Sprite.t) : bool :=
  Rect.intersects (Sprite.rect a) (Sprite.rect b).

(** No sprite of the list overlaps a later one. *)
Fixpoint pairwise_disjoint (placed : list Sprite.t) : bool :=
  match placed with
  | [] => true
  | a :: rest => forallb (fun b => negb (overlap a b)) rest && pairwise_disjoint rest
  end.

Definition inside_bin (sheet : Sheet.t) (s : Sprite.t) : bool :=
  Sheet.in_bin (Sheet.size sheet).1 (Sheet.size sheet).2 (Sprite.rect s).

Definition total_area (placed : list Sprite.t) : Z :=
  foldr (fun s acc => Rect.area (Sprite.rect s) + acc) 0 placed.

(** The objects of a list of sprites, in the order of the list. *)
Definition objects (l : list Sprite.t) : list nat := Sprite.oid <$> l.

(** The layouts of [MaxRectsLayout] that successful calls of [place] reach
    from [clear], with the sprites those calls placed, the first one first. *)
Inductive maxrects_run (sheet : Sheet.t) : MaxRectsLayout.state -> list Sprite.t -> Prop :=
  | run_clear : maxrects_run sheet (MaxRectsLayout.clear sheet) []
  | run_place st hist sprite position rotate st1 sprite1 :
      maxrects_run sheet st hist ->
      MaxRectsLayout.place sheet st sprite position rotate = (true, st1, sprite1) ->
      maxrects_run sheet st1 (hist ++ [sprite1]).

(** A rect of positive width and height. *)
Definition positive (r : Rect.t) : Prop := 0 < Rect.w r /\ 0 < Rect.h r.

(** No node of the list is contained in a node at another position. *)
Definition undominated (free_rects : list Rect.t) : Prop :=
  forall i j f1 f2,
    free_rects !! i = Some f1 -> free_rects !! j = Some f2 -> i <> j ->
    Rect.contains f1 f2 = false.

(** The prune as it would be if [Rect] compared by value: the other reading
    of [free1 != free2], kept apart from the model of the code. *)
Definition prune_by_value (free_rects : list Rect.t) : list Rect.t :=
  filter (fun free2 =>
            existsb (fun free1 => negb (bool_decide (free1 = free2))
                                  && Rect.contains free1 free2) free_rects = false)
         free_rects.

(** How many times a list holds a rect. *)
Definition copies (f : Rect.t) (nodes : list Rect.t) : nat :=
  length (filter (fun g => g = f) nodes).

(** C8, the tie-break as the spec states it: of a rect that the split leaves
    more than once in the list, the prune keeps exactly one copy. *)
Definition keeps_one_copy (sheet : Sheet.t) (st : MaxRectsLayout.state) : Prop :=
  forall sprite position rotate st1 sprite1 f,
    MaxRectsLayout.place sheet st sprite position rotate = (true, st1, sprite1) ->
    (1 < copies f (MaxRectsLayout.split_free_nodes (Sprite.rect sprite1)
                     (MaxRectsLayout.free_rects st)))%nat ->
    copies f (MaxRectsLayout.free_rects st1) = 1%nat.

(** A layout whose free list holds the whole 10x10 bin twice. *)
Definition doubled_bin : MaxRectsLayout.state :=
  MaxRectsLayout.make [] [Rect.make 10 10 0 0; Rect.make 10 10 0 0] 0.

(** ** Scenario S2 *)

Definition s2_sheet : Sheet.t := Sheet.bounded 10 10 false.

Definition s2_sprites : list Sprite.t := sprites_of [(6, 6); (4, 4); (4, 6); (6, 4)].

(** The placements that the spec expects of S2. *)
Definition s2_expected : list Sprite.t :=
  [at_pos 0 6 6 0 0 false; at_pos 1 4 4 6 0 false;
   at_pos 2 4 6 6 4 false; at_pos 3 6 4 0 6 false].

(** The placements that the code makes, in the order of [placed]. *)
Definition s2_placed : list Sprite.t :=
  [at_pos 0 6 6 0 0 false; at_pos 2 4 6 6 0 false;
   at_pos 3 6 4 0 6 false; at_pos 1 4 4 6 6 false].

(** ** [place] and [sheet.check] *)

(** C5, as the spec states it, for a [place] given with the sheet of its
    layout: the call returns [False] whenever [sheet.check] rejects the sprite
    as the call leaves it. *)
Definition rejects_invalid {St Pos : Type}
    (check : Rect.t -> bool) (place : St -> Sprite.t -> Pos -> bool -> bool * St * Sprite.t)
    : Prop :=
  forall st sprite pos rot,
    check (Sprite.rect (place st sprite pos rot).2) = false ->
    (place st sprite pos rot).1.1 = false.

(** ** The shelves of a run without rotation *)

(** A sprite of positive width and height. *)
Definition well_formed (s : Sprite.t) : Prop := 0 < Sprite.w s /\ 0 < Sprite.h s.

(** The sprite stands on the shelf: its top is the start of the shelf, it is
    no higher than the shelf, and it ends within the used width. *)
Definition on_shelf (sh : ShelfLayout.Shelf.t) (p : Sprite.t) : Prop :=
  Sprite.y p = ShelfLayout.Shelf.start sh /\
  Sprite.h p <= ShelfLayout.Shelf.max sh /\
  0 <= Sprite.x p /\
  Sprite.x p + Sprite.w p <= ShelfLayout.Shelf.size sh.

(** What holds of a [ShelfLayout], of the sprites placed and of the working
    list between two turns of the driver, on a sheet without rotation. *)
Record shelf_inv (sheet : Sheet.t) (st : ShelfLayout.state)
    (placed remain : list Sprite.t) : Prop := {
  inv_remain : Forall well_formed remain;
  inv_size : 0 <= ShelfLayout.size st;
  inv_empty : ShelfLayout.shelves st = [] -> ShelfLayout.size st = 0;
  inv_height : ShelfLayout.shelves st <> [] -> ShelfLayout.size st <= (Sheet.size sheet).2;
  inv_shelf : forall k sh, ShelfLayout.shelves st !! k = Some sh ->
    0 <= ShelfLayout.Shelf.start sh /\
    ShelfLayout.Shelf.start sh + ShelfLayout.Shelf.max sh <= ShelfLayout.size st /\
    0 <= ShelfLayout.Shelf.size sh <= (Sheet.size sheet).1;
  inv_order : forall k k' sh sh', (k < k')%nat ->
    ShelfLayout.shelves st !! k = Some sh -> ShelfLayout.shelves st !! k' = Some sh' ->
    ShelfLayout.Shelf.start sh + ShelfLayout.Shelf.max sh <= ShelfLayout.Shelf.start sh';
  inv_placed : forall p, p ∈ placed ->
    well_formed p /\ exists k sh, ShelfLayout.shelves st !! k = Some sh /\ on_shelf sh p;
  inv_disjoint : pairwise_disjoint placed = true
}.

(** ** Cells, fits and scores *)

(** The unit cell at [(px, py)] lies in the rect: rects are half-open, so
    that rects which only touch share no cell. *)
Definition cell_in (r : Rect.t) (px py : Z) : Prop :=
  Rect.x r <= px < Rect.x r + Rect.w r /\ Rect.y r <= py < Rect.y r + Rect.h r.

(** A rect of the given size fits in the free node. *)
Definition fits (w h : Z) (free : Rect.t) : Prop := w <= Rect.w free /\ h <= Rect.h free.

(** The pair (short side fit, long side fit) of a size in a free node. *)
Definition side_fit (w h : Z) (free : Rect.t) : Z * Z :=
  (Z.min (Rect.w free - w) (Rect.h free - h), Z.max (Rect.w free - w) (Rect.h free - h)).

(** The order of Python's tuples on pairs of integers. *)
Definition lex_le (a b : Z * Z) : Prop := a.1 < b.1 \/ (a.1 = b.1 /\ a.2 <= b.2).

(** What [rotate] and the layouts may change of a sprite apart from its
    position: its size and its flag, with the object it is. *)
Definition shape (s : Sprite.t) : nat * Z * Z * bool :=
  (Sprite.oid s, Sprite.w s, Sprite.h s, Sprite.rotated s).

(** The sprite fits on the shelf as it is: [shelf.size + spr.w <= maxw and
    spr.h <= shelf.max]. *)
Definition fits_on (sheet : Sheet.t) (sh : ShelfLayout.Shelf.t) (spr : Sprite.t) : Prop :=
  ShelfLayout.Shelf.size sh + Sprite.w spr <= (Sheet.size sheet).1 /\
  Sprite.h spr <= ShelfLayout.Shelf.max sh.

(** The score of the sprite on the shelf. *)
Definition shelf_score (sheet : Sheet.t) (sh : ShelfLayout.Shelf.t) (spr : Sprite.t) : Z :=
  ((Sheet.size sheet).1 - ShelfLayout.Shelf.size sh - Sprite.w spr) * ShelfLayout.Shelf.max sh
  + Sprite.w spr * (ShelfLayout.Shelf.max sh - Sprite.h spr).

(** ** Stacks *)

(** The sprite stands in the stack: its left side is the start of the stack,
    it is no wider than the stack, and it ends within the used height. *)
Definition in_stack (sk : StackLayout.Stack.t) (p : Sprite.t) : Prop :=
  Sprite.x p = StackLayout.Stack.start sk /\
  Sprite.w p <= StackLayout.Stack.max sk /\
  0 <= Sprite.y p /\
  Sprite.y p + Sprite.h p <= StackLayout.Stack.size sk.

(** What holds of a [StackLayout] and of the sprites it has accepted between
    two calls of [add], on a sheet without rotation. *)
Record stack_inv (sheet : Sheet.t) (s : StackLayout.state) (placed : list Sprite.t) : Prop := {
  sinv_size : 0 <= StackLayout.size s;
  sinv_empty : StackLayout.stacks s = [] -> StackLayout.size s = 0;
  sinv_width : StackLayout.stacks s <> [] -> StackLayout.size s <= (Sheet.size sheet).1;
  sinv_stack : forall k sk, StackLayout.stacks s !! k = Some sk ->
    0 <= StackLayout.Stack.start sk /\
    StackLayout.Stack.start sk + StackLayout.Stack.max sk <= StackLayout.size s /\
    0 <= StackLayout.Stack.size sk <= (Sheet.size sheet).2;
  sinv_order : forall k k' sk sk', (k < k')%nat ->
    StackLayout.stacks s !! k = Some sk -> StackLayout.stacks s !! k' = Some sk' ->
    StackLayout.Stack.start sk + StackLayout.Stack.max sk <= StackLayout.Stack.start sk';
  sinv_placed : forall p, p ∈ placed ->
    well_formed p /\ exists k sk, StackLayout.stacks s !! k = Some sk /\ in_stack sk p;
  sinv_disjoint : pairwise_disjoint placed = true
}.

(** The sprites for which [add] returned [True], among the results of a run
    of calls. *)
Definition accepted (out : list (bool * Sprite.t)) : list Sprite.t :=
  omap (fun r : bool * Sprite.t => if r.1 then Some r.2 else None) out.


(** ** Rows *)

(** The sprites stand side by side from [x] on, with their tops at [y]. *)
Fixpoint side_by_side (x y : Z) (rects : list Sprite.t) : Prop :=
  match rects with
  | [] => True
  | p :: rest => Sprite.x p = x /\ Sprite.y p = y /\ side_by_side (x + Sprite.w p) y rest
  end.

Definition widths (rects : list Sprite.t) : Z :=
  foldr (fun p acc => Sprite.w p + acc) 0 rects.

(** The shelves lie one below the other from [y] on, each as high as its
    [max]. *)
Fixpoint shelves_from (y : Z) (shelves : list ShelfLayout.Shelf.t) : Prop :=
  match shelves with
  | [] => True
  | sh :: rest =>
    ShelfLayout.Shelf.start sh = y /\ shelves_from (y + ShelfLayout.Shelf.max sh) rest
  end.

Definition heights (shelves : list ShelfLayout.Shelf.t) : Z :=
  foldr (fun sh acc => ShelfLayout.Shelf.max sh + acc) 0 shelves.

(** The shelf holds its sprites side by side from the left of the bin, its
    [size] is their width together, and none is higher than the shelf. *)
Definition row (sh : ShelfLayout.Shelf.t) : Prop :=
  side_by_side 0 (ShelfLayout.Shelf.start sh) (ShelfLayout.Shelf.rects sh) /\
  ShelfLayout.Shelf.size sh = widths (ShelfLayout.Shelf.rects sh) /\
  Forall (fun p => Sprite.h p <= ShelfLayout.Shelf.max sh) (ShelfLayout.Shelf.rects sh) /\
  0 <= ShelfLayout.Shelf.max sh.

(** The layout is a pile of rows that holds the sprites placed. *)
Definition rows (st : ShelfLayout.state) (placed : list Sprite.t) : Prop :=
  shelves_from 0 (ShelfLayout.shelves st) /\
  ShelfLayout.size st = heights (ShelfLayout.shelves st) /\
  Forall row (ShelfLayout.shelves st) /\
  placed ≡ₚ concat (ShelfLayout.Shelf.rects <$> ShelfLayout.shelves st).

(** ** What the driver pops, and the shelf that [place] is given *)

(** The sprites that the turns of the loop of [Layout.add] take off the
    working list with [remain.pop(i)], as [place] left them, in the order of
    the turns; [fuel] bounds the number of turns, as in [add_loop]. *)
Fixpoint add_pops {St Pos : Type} {L : Layout.t St Pos} (fuel : nat) (st : St)
    (remain : list Sprite.t) : list Sprite.t :=
  match fuel with
  | O => []
  | S fuel' =>
    match remain with
    | [] => []
    | _ :: _ =>
      let '(remain1, best) := Layout.get_best st remain in
      match best with
      | None => []
      | Some (i, pos, rot) =>
        match remain1 !! i with
        | None => []
        | Some spr =>
          let '(ok, st1, spr1) := Layout.place st spr pos rot in
          if ok then spr1 :: add_pops fuel' st1 (delete i remain1) else []
        end
      end
    end
  end.

(** C3, amended: [add] returns; [placed] and [remain] together hold exactly
    the objects of the input; [remain] lists its objects in the order of the
    input; [placed] lists the sprites in the order in which the turns of the
    loop popped them. *)
Definition partitions_input {St Pos : Type} (L : Layout.t St Pos) (st : St)
    (sprites : list Sprite.t) : Prop :=
  exists st1 placed remain,
    Layout.add st sprites = Some (Ok (st1, placed, remain)) /\
    objects (placed ++ remain) ≡ₚ objects sprites /\
    objects remain `sublist_of` objects sprites /\
    placed = add_pops (S (length sprites)) st sprites.

(** The shelf object that the [shelf] argument of [ShelfLayout.place]
    denotes: a shelf of the layout's list, or a new shelf. *)
Definition shelf_at (st : ShelfLayout.state) (shelf : ShelfLayout.ref)
    : option ShelfLayout.Shelf.t :=
  match shelf with
  | ShelfLayout.Existing k => ShelfLayout.shelves st !! k
  | ShelfLayout.Fresh sh => Some sh
  end.

(** * Properties *)

(** ** Boolean tests as propositions *)

Lemma andb_true_split (a b : bool) : a && b = true <-> a = true /\ b = true.
Proof. destruct a, b; simpl; intuition congruence. Qed.

(** Turns the comparisons of a hypothesis or of the goal into inequalities
    over [Z] that [lia] reads. *)
Ltac zbool :=
  repeat match goal with
  | H : _ && _ = true |- _ => apply andb_true_split in H; destruct H
  | H : _ || _ = false |- _ => apply orb_false_elim in H; destruct H
  | H : negb _ = true |- _ => apply negb_true_iff in H
  | H : negb _ = false |- _ => apply negb_false_iff in H
  | H : (_ <? _) = true |- _ => apply Z.ltb_lt in H
  | H : (_ <? _) = false |- _ => apply Z.ltb_ge in H
  | H : (_ <=? _) = true |- _ => apply Z.leb_le in H
  | H : (_ <=? _) = false |- _ => apply Z.leb_gt in H
  | H : (_ >? _) = true |- _ => rewrite Z.gtb_ltb in H; apply Z.ltb_lt in H
  | H : (_ >? _) = false |- _ => rewrite Z.gtb_ltb in H; apply Z.ltb_ge in H
  | H : (_ >=? _) = true |- _ => rewrite Z.geb_leb in H; apply Z.leb_le in H
  | H : (_ >=? _) = false |- _ => rewrite Z.geb_leb in H; apply Z.leb_gt in H
  | H : (_ =? _) = true |- _ => apply Z.eqb_eq in H
  | H : (_ =? _) = false |- _ => apply Z.eqb_neq in H
  end.

(** ** The driver *)

Section DriverFacts.
Context {St Pos : Type} (L : Layout.t St Pos) {HL : Layout.Lawful L}.

Lemma get_best_length (st : St) (sprites : list Sprite.t) :
  length (Layout.get_best st sprites).1 = length sprites.
Proof.
  rewrite <- (length_fmap Sprite.oid), Layout.get_best_oids.
  apply length_fmap.
Qed.

(** A turn that places a sprite takes exactly one sprite off the working
    list, appends it to [placed], and keeps the other objects in order. *)
Lemma add_turn_again (st st1 : St) (placed remain placed1 remain1 : list Sprite.t) :
  Layout.add_turn st placed remain = Layout.Again st1 placed1 remain1 ->
  length remain = S (length remain1) /\
  (exists spr, placed1 = placed ++ [spr]) /\
  Sprite.oid <$> (placed1 ++ remain1) ≡ₚ Sprite.oid <$> (placed ++ remain) /\
  (Sprite.oid <$> remain1) `sublist_of` (Sprite.oid <$> remain).
Proof.
  unfold Layout.add_turn.
  destruct remain as [|s0 rest] eqn:Hrem; [discriminate|]. rewrite <- Hrem.
  pose proof (Layout.get_best_oids st remain) as Hoids.
  pose proof (get_best_length st remain) as Hlen.
  destruct (Layout.get_best st remain) as [remain' best]. simpl in Hoids, Hlen.
  destruct best as [[[i pos] rot]|]; [|discriminate].
  destruct (remain' !! i) as [spr|] eqn:Hi; [|discriminate].
  pose proof (Layout.place_oid st spr pos rot) as Hoid.
  destruct (Layout.place st spr pos rot) as [[ok st'] spr']. simpl in Hoid.
  destruct ok; [|discriminate].
  intros [= <- <- <-].
  assert (Hd : Sprite.oid <$> remain' ≡ₚ Sprite.oid spr' :: (Sprite.oid <$> delete i remain')).
  { rewrite list_fmap_delete. apply delete_Permutation.
    rewrite list_lookup_fmap, Hi. simpl. by rewrite Hoid. }
  repeat split.
  - rewrite <- Hlen. rewrite length_delete by eauto.
    apply lookup_lt_Some in Hi. lia.
  - by exists spr'.
  - rewrite !fmap_app. simpl. rewrite <- Hoids, <- app_assoc. simpl.
    by rewrite Hd.
  - rewrite <- Hoids, list_fmap_delete. apply sublist_delete.
Qed.

(** A turn that leaves the loop keeps [placed] and the objects of the
    working list, in their order. *)
Lemma add_turn_break (st st1 : St) (placed remain placed1 remain1 : list Sprite.t) :
  Layout.add_turn st placed remain = Layout.Break st1 placed1 remain1 ->
  placed1 = placed /\ Sprite.oid <$> remain1 = Sprite.oid <$> remain.
Proof.
  unfold Layout.add_turn.
  destruct remain as [|s0 rest] eqn:Hrem; [by intros [= <- <- <-]|]. rewrite <- Hrem.
  pose proof (Layout.get_best_oids st remain) as Hoids.
  destruct (Layout.get_best st remain) as [remain' best]. simpl in Hoids.
  destruct best as [[[i pos] rot]|]; [|by intros [= <- <- <-]].
  destruct (remain' !! i) as [spr|] eqn:Hi; [|discriminate].
  pose proof (Layout.place_oid st spr pos rot) as Hoid.
  destruct (Layout.place st spr pos rot) as [[ok st'] spr']. simpl in Hoid.
  destruct ok; [discriminate|].
  intros [= <- <- <-]. split; [done|].
  rewrite list_fmap_insert, Hoid, <- Hoids.
  apply list_insert_id. by rewrite list_lookup_fmap, Hi.
Qed.

(** No turn of a lawful layout raises: the index of [get_best] is a
    position of the list. *)
Lemma add_turn_no_throw (st : St) (placed remain : list Sprite.t) (e : exn) :
  Layout.add_turn st placed remain <> Layout.Throw e.
Proof.
  unfold Layout.add_turn.
  destruct remain as [|s0 rest] eqn:Hrem; [discriminate|]. rewrite <- Hrem.
  pose proof (get_best_length st remain) as Hlen.
  pose proof (Layout.get_best_index st remain) as Hidx.
  destruct (Layout.get_best st remain) as [remain' best]. simpl in Hlen, Hidx.
  destruct best as [[[i pos] rot]|]; [|discriminate].
  specialize (Hidx i pos rot eq_refl).
  destruct (remain' !! i) as [spr|] eqn:Hi.
  - destruct (Layout.place st spr pos rot) as [[[] st'] spr']; discriminate.
  - apply lookup_ge_None in Hi. lia.
Qed.

Lemma add_loop_enough (n : nat) :
  forall (st : St) (placed remain : list Sprite.t),
    (length remain <= n)%nat ->
    exists out, forall fuel, (n < fuel)%nat ->
      Layout.add_loop fuel st placed remain = Some (Ok out).
Proof.
  induction n as [|n IH]; intros st placed remain Hn.
  - destruct remain; [|simpl in Hn; lia].
    exists (st, placed, []). intros [|fuel] Hf; [lia|]. reflexivity.
  - destruct (Layout.add_turn st placed remain) as [st1 p1 r1|st1 p1 r1|e] eqn:Ht.
    + destruct (add_turn_again _ _ _ _ _ _ Ht) as (Hlen & _).
      destruct (IH st1 p1 r1) as [out Hout]; [lia|].
      exists out. intros [|fuel] Hf; [lia|]. simpl. rewrite Ht. apply Hout. lia.
    + exists (st1, p1, r1). intros [|fuel] Hf; [lia|]. simpl. by rewrite Ht.
    + by apply add_turn_no_throw in Ht.
Qed.

Lemma add_turns_bound (fuel : nat) :
  forall (st : St) (placed remain : list Sprite.t),
    (Layout.add_turns fuel st placed remain <= length remain)%nat.
Proof.
  induction fuel as [|fuel IH]; intros st placed remain; simpl; [lia|].
  destruct (Layout.add_turn st placed remain) as [st1 p1 r1|st1 p1 r1|e] eqn:Ht; try lia.
  destruct (add_turn_again _ _ _ _ _ _ Ht) as (Hlen & _).
  specialize (IH st1 p1 r1). lia.
Qed.

Lemma add_loop_objects (fuel : nat) :
  forall (st st' : St) (placed remain placed' remain' : list Sprite.t),
    Layout.add_loop fuel st placed remain = Some (Ok (st', placed', remain')) ->
    Sprite.oid <$> (placed' ++ remain') ≡ₚ Sprite.oid <$> (placed ++ remain) /\
    (Sprite.oid <$> remain') `sublist_of` (Sprite.oid <$> remain).
Proof.
  induction fuel as [|fuel IH]; intros st st' placed remain placed' remain'; simpl;
    [discriminate|].
  destruct (Layout.add_turn st placed remain) as [st1 p1 r1|st1 p1 r1|e] eqn:Ht.
  - intros Hloop. apply IH in Hloop as [Hp Hs].
    destruct (add_turn_again _ _ _ _ _ _ Ht) as (_ & _ & Hp1 & Hs1).
    split; [by rewrite Hp | by etrans].
  - intros [= <- <- <-].
    destruct (add_turn_break _ _ _ _ _ _ Ht) as [-> Heq].
    rewrite !fmap_app, Heq. done.
  - discriminate.
Qed.

End DriverFacts.

(** ** The two subclasses obey the driver's laws *)

Lemma rotate_oid (s : Sprite.t) : Sprite.oid (Sprite.rotate s) = Sprite.oid s.
Proof. reflexivity. Qed.

Section ShelfLawful.
Variable sheet : Sheet.t.

Lemma shelf_scan_oid (shelves : list ShelfLayout.Shelf.t) :
  forall k spr best,
    Sprite.oid (ShelfLayout.scan sheet k shelves spr best).1 = Sprite.oid spr.
Proof.
  induction shelves as [|sh rest IH]; intros k spr best; simpl; [done|].
  rewrite IH. by destruct (_ && _ && _).
Qed.

Lemma shelf_candidate_oid (st : ShelfLayout.state) (spr : Sprite.t) :
  Sprite.oid (ShelfLayout.candidate sheet st spr).1 = Sprite.oid spr.
Proof.
  unfold ShelfLayout.candidate.
  destruct (_ || _); [done|].
  pose proof (shelf_scan_oid (ShelfLayout.shelves st) 0 spr None) as Hs.
  destruct (ShelfLayout.scan _ _ _ _ _) as [spr1 [b|]]; simpl in *; [done|].
  destruct (Sheet.rotate sheet && _); destruct (negb _ && _); simpl; by rewrite ?rotate_oid.
Qed.

Lemma shelf_get_best_from_oids (st : ShelfLayout.state) (sprites : list Sprite.t) :
  forall i best score,
    Sprite.oid <$> (ShelfLayout.get_best_from sheet st i sprites best score).1
    = Sprite.oid <$> sprites.
Proof.
  induction sprites as [|spr rest IH]; intros i best score; simpl; [done|].
  pose proof (shelf_candidate_oid st spr) as Hc.
  destruct (ShelfLayout.candidate sheet st spr) as [spr1 cand]. simpl in Hc.
  match goal with |- context [let '(_, _) := ?e in _] => destruct e as [b1 s1] end.
  specialize (IH (S i) b1 s1).
  destruct (ShelfLayout.get_best_from sheet st (S i) rest b1 s1).
  simpl in *. by f_equal.
Qed.

Lemma shelf_get_best_from_index (st : ShelfLayout.state) (sprites : list Sprite.t) :
  forall i best score j pos rot,
    (ShelfLayout.get_best_from sheet st i sprites best score).2 = Some (j, pos, rot) ->
    best = Some (j, pos, rot) \/ (i <= j < i + length sprites)%nat.
Proof.
  induction sprites as [|spr rest IH]; intros i best score j pos rot; simpl; [by left|].
  destruct (ShelfLayout.candidate sheet st spr) as [spr1 cand].
  destruct cand as [[shelf sc]|].
  - destruct (match score with None => true | Some b => sc <? b end).
    + specialize (IH (S i) (Some (i, shelf, Sprite.rotated spr1)) (Some sc) j pos rot).
      destruct (ShelfLayout.get_best_from _ _ _ _ _ _). simpl in *.
      intros H. destruct (IH H) as [[= <- <- <-]|]; right; lia.
    + specialize (IH (S i) best score j pos rot).
      destruct (ShelfLayout.get_best_from _ _ _ _ _ _). simpl in *.
      intros H. destruct (IH H); [by left | right; lia].
  - specialize (IH (S i) best score j pos rot).
    destruct (ShelfLayout.get_best_from _ _ _ _ _ _). simpl in *.
    intros H. destruct (IH H); [by left | right; lia].
Qed.

Lemma shelf_place_oid (st : ShelfLayout.state) (spr : Sprite.t)
    (shelf : ShelfLayout.ref) (rot : bool) :
  Sprite.oid (ShelfLayout.place st spr shelf rot).2 = Sprite.oid spr.
Proof.
  unfold ShelfLayout.place.
  destruct shelf as [k|sh]; [destruct (ShelfLayout.shelves st !! k)|];
    simpl; by destruct (xorb _ _).
Qed.

#[export] Instance shelf_lawful : Layout.Lawful (ShelfLayout.layout sheet).
Proof.
  split.
  - intros st sprites. apply shelf_get_best_from_oids.
  - intros st sprites i pos rot H.
    apply shelf_get_best_from_index in H as [|]; [done | simpl in *; lia].
  - intros st spr pos rot. apply shelf_place_oid.
Qed.

End ShelfLawful.

Section MaxRectsLawful.
Variable sheet : Sheet.t.

Lemma maxrects_candidate_oid (st : MaxRectsLayout.state) (spr : Sprite.t) :
  Sprite.oid (MaxRectsLayout.candidate sheet st spr).1 = Sprite.oid spr.
Proof.
  unfold MaxRectsLayout.candidate.
  destruct (MaxRectsLayout.search sheet st _) as [[[[pos a] b]|] rot]; [|done].
  destruct (negb _); [done|]. destruct rot; [|done]. by destruct (Sheet.rotate sheet).
Qed.

Lemma maxrects_get_best_from_oids (st : MaxRectsLayout.state) (sprites : list Sprite.t) :
  forall i best score,
    Sprite.oid <$> (MaxRectsLayout.get_best_from sheet st i sprites best score).1
    = Sprite.oid <$> sprites.
Proof.
  induction sprites as [|spr rest IH]; intros i best score; simpl; [done|].
  pose proof (maxrects_candidate_oid st spr) as Hc.
  destruct (MaxRectsLayout.candidate sheet st spr) as [spr1 cand]. simpl in Hc.
  match goal with |- context [let '(_, _) := ?e in _] => destruct e as [b1 s1] end.
  specialize (IH (S i) b1 s1).
  destruct (MaxRectsLayout.get_best_from sheet st (S i) rest b1 s1).
  simpl in *. by f_equal.
Qed.

Lemma maxrects_get_best_from_index (st : MaxRectsLayout.state) (sprites : list Sprite.t) :
  forall i best score j pos rot,
    (MaxRectsLayout.get_best_from sheet st i sprites best score).2 = Some (j, pos, rot) ->
    best = Some (j, pos, rot) \/ (i <= j < i + length sprites)%nat.
Proof.
  induction sprites as [|spr rest IH]; intros i best score j pos rot; simpl; [by left|].
  destruct (MaxRectsLayout.candidate sheet st spr) as [spr1 cand].
  destruct cand as [[p sc]|].
  - destruct (match score with None => true | Some b => MaxRectsLayout.tuple_lt sc b end).
    + specialize (IH (S i) (Some (i, p, Sprite.rotated spr1)) (Some sc) j pos rot).
      destruct (MaxRectsLayout.get_best_from _ _ _ _ _ _). simpl in *.
      intros H. destruct (IH H) as [[= <- <- <-]|]; right; lia.
    + specialize (IH (S i) best score j pos rot).
      destruct (MaxRectsLayout.get_best_from _ _ _ _ _ _). simpl in *.
      intros H. destruct (IH H); [by left | right; lia].
  - specialize (IH (S i) best score j pos rot).
    destruct (MaxRectsLayout.get_best_from _ _ _ _ _ _). simpl in *.
    intros H. destruct (IH H); [by left | right; lia].
Qed.

Lemma maxrects_place_oid (st : MaxRectsLayout.state) (spr : Sprite.t)
    (pos : Rect.t) (rot : bool) :
  Sprite.oid (MaxRectsLayout.place sheet st spr pos rot).2 = Sprite.oid spr.
Proof.
  unfold MaxRectsLayout.place.
  destruct (negb _); [done|]. simpl. by destruct (xorb _ _).
Qed.

#[export] Instance maxrects_lawful : Layout.Lawful (MaxRectsLayout.layout sheet).
Proof.
  split.
  - intros st sprites. apply maxrects_get_best_from_oids.
  - intros st sprites i pos rot H.
    apply maxrects_get_best_from_index in H as [|]; [done | simpl in *; lia].
  - intros st spr pos rot. apply maxrects_place_oid.
Qed.

End MaxRectsLawful.

(** ** Termination of the driver *)

(** C10: [Layout.add] terminates on every input list.  A turn of the loop
    that does not leave it takes exactly one sprite off the working list, no
    turn raises, so the loop ends within [length sprites] placing turns: with
    one more guard evaluation than the input has sprites, and with any larger
    bound, [add] returns the same result. *)
Theorem add_terminates {St Pos : Type} (L : Layout.t St Pos) (HL : Layout.Lawful L)
    (st : St) (sprites : list Sprite.t) :
  (forall s placed remain s1 placed1 remain1,
     Layout.add_turn s placed remain = Layout.Again s1 placed1 remain1 ->
     length remain = S (length remain1)) /\
  (exists out,
     Layout.add st sprites = Some (Ok out) /\
     forall fuel, (length sprites < fuel)%nat ->
       Layout.add_loop fuel st [] sprites = Some (Ok out)) /\
  (forall fuel, (Layout.add_turns fuel st [] sprites <= length sprites)%nat).
Proof.
  split; [|split].
  - intros s placed remain s1 placed1 remain1 Ht.
    by destruct (add_turn_again L _ _ _ _ _ _ Ht) as (Hlen & _).
  - destruct (add_loop_enough L (length sprites) st [] sprites) as [out Hout]; [done|].
    exists out. split; [apply Hout; lia | done].
  - intros fuel. apply add_turns_bound. exact HL.
Qed.

Lemma add_terminates_witness :
  exists out,
    Layout.add (L := ShelfLayout.layout (Sheet.bounded 10 10 false))
      ShelfLayout.clear (sprites_of [(4, 3); (4, 3); (3, 4)]) = Some (Ok out).
Proof.
  destruct (add_terminates (ShelfLayout.layout (Sheet.bounded 10 10 false))
              (shelf_lawful _) ShelfLayout.clear (sprites_of [(4, 3); (4, 3); (3, 4)]))
    as (_ & (out & Hout & _) & _).
  exists out. exact Hout.
Defined.

(** ** What [add] returns *)

(** C3, as the spec states it: [placed] and [remain] hold the objects of the
    input, and each lists them in the order of the input. *)
Definition keeps_input_order {St Pos : Type} (L : Layout.t St Pos) : Prop :=
  forall st sprites st1 placed remain,
    Layout.add st sprites = Some (Ok (st1, placed, remain)) ->
    objects (placed ++ remain) ≡ₚ objects sprites /\
    objects placed `sublist_of` objects sprites /\
    objects remain `sublist_of` objects sprites.

(** C3 fails as stated: on a 10x10 sheet the shelf layout places the second
    sprite of [(4x3), (10x3)] first, and [placed] lists it first. *)
Lemma placed_not_in_input_order :
  ~ keeps_input_order (ShelfLayout.layout (Sheet.bounded 10 10 false)).
Proof.
  intros H.
  destruct (H ShelfLayout.clear (sprites_of [(4, 3); (10, 3)]) _ _ _ eq_refl)
    as (_ & Hsub & _).
  vm_compute in Hsub.
  apply sublist_cons_l in Hsub as (k1 & k2 & Heq & Hsub).
  apply sublist_cons_l in Hsub as (k3 & k4 & -> & _).
  destruct k1 as [|? [|? [|? ?]]]; simplify_eq/=.
  destruct k3 as [|? ?]; simplify_eq/=.
Qed.

(** The loop appends to [placed] what its turns pop, in the order of the
    turns. *)
Lemma add_loop_pops {St Pos : Type} (L : Layout.t St Pos) (fuel : nat) :
  forall st placed remain st' placed' remain',
    Layout.add_loop fuel st placed remain = Some (Ok (st', placed', remain')) ->
    placed' = placed ++ add_pops fuel st remain.
Proof.
  induction fuel as [|fuel IH]; intros st placed remain st' placed' remain'; simpl;
    [discriminate|].
  unfold Layout.add_turn.
  destruct remain as [|s0 rest].
  { intros [= <- <- <-]. by rewrite app_nil_r. }
  destruct (Layout.get_best st (s0 :: rest)) as [remain1 best].
  destruct best as [[[i pos] rot]|]; [|intros [= <- <- <-]; by rewrite app_nil_r].
  destruct (remain1 !! i) as [spr|]; [|discriminate].
  destruct (Layout.place st spr pos rot) as [[[] st1] spr1].
  - intros H. apply IH in H. by rewrite H, <- app_assoc.
  - intros [= <- <- <-]. by rewrite app_nil_r.
Qed.

(** A layout that keeps the laws of the driver partitions its input. *)
Lemma add_partitions_lawful {St Pos : Type} (L : Layout.t St Pos) (HL : Layout.Lawful L)
    (st : St) (sprites : list Sprite.t) :
  partitions_input L st sprites.
Proof.
  destruct (add_loop_enough L (length sprites) st [] sprites) as [[[st1 placed] remain] Hout];
    [done|].
  exists st1, placed, remain.
  assert (Hadd : Layout.add st sprites = Some (Ok (st1, placed, remain))) by (apply Hout; lia).
  split; [done|].
  destruct (add_loop_objects L _ _ _ _ _ _ _ Hadd) as [Hperm Hsub].
  split; [done|]. split; [done|].
  by apply add_loop_pops in Hadd.
Qed.

(** C3, amended: on [ShelfLayout] and on [MaxRectsLayout], the layouts that
    run the loop of [Layout.add], every call of [add], on a layout in any
    state, returns; [placed] and [remain] together hold exactly the objects
    of the input; [remain] lists its objects in the order of the input; and
    [placed] lists the sprites in the order in which the turns of the loop
    popped them, the sprite of the first turn first. *)
Theorem add_partitions_input (sheet : Sheet.t) (sprites : list Sprite.t) :
  (forall st, partitions_input (ShelfLayout.layout sheet) st sprites) /\
  (forall st, partitions_input (MaxRectsLayout.layout sheet) st sprites).
Proof.
  split; intros st.
  - apply add_partitions_lawful, shelf_lawful.
  - apply add_partitions_lawful, maxrects_lawful.
Qed.

Lemma add_partitions_input_witness :
  exists st1,
    Layout.add (L := ShelfLayout.layout (Sheet.bounded 10 10 false))
      ShelfLayout.clear (sprites_of [(4, 3); (10, 3)])
    = Some (Ok (st1, [at_pos 1 10 3 0 0 false; at_pos 0 4 3 0 3 false], [])) /\
    add_pops (L := ShelfLayout.layout (Sheet.bounded 10 10 false)) 3
      ShelfLayout.clear (sprites_of [(4, 3); (10, 3)])
    = [at_pos 1 10 3 0 0 false; at_pos 0 4 3 0 3 false].
Proof.
  destruct (proj1 (add_partitions_input (Sheet.bounded 10 10 false)
                     (sprites_of [(4, 3); (10, 3)])) ShelfLayout.clear)
    as (st1 & placed & remain & Hadd & _ & _ & Hpops).
  exists st1. split; [|reflexivity].
  pose proof Hadd as Hrun. vm_compute in Hrun. injection Hrun as _ <- <-.
  exact Hadd.
Defined.

(** ** Runs with rotation allowed *)

(** C1: the claim fails on [MaxRectsLayout] with rotation allowed.  On a 5x5
    sheet, the input [(1x2), (1x3), (3x2), (4x2)] is placed whole, and the
    sprite placed last, the first of the input turned to 2x1 at (3,2),
    overlaps the 1x3 sprite at (4,0): [search] keeps [rotate = True] from a
    rotated fit in an earlier free node after a later node gave a better fit
    for the sprite as it is. *)
Theorem maxrects_rotation_overlap :
  exists st,
    MaxRectsLayout.add (Sheet.bounded 5 5 true) (sprites_of [(1, 2); (1, 3); (3, 2); (4, 2)])
    = Some (Ok (st,
                [at_pos 3 4 2 0 0 false; at_pos 1 1 3 4 0 false;
                 at_pos 2 3 2 0 3 false; at_pos 0 2 1 3 2 true],
                [])) /\
    overlap (at_pos 1 1 3 4 0 false) (at_pos 0 2 1 3 2 true) = true /\
    pairwise_disjoint [at_pos 3 4 2 0 0 false; at_pos 1 1 3 4 0 false;
                       at_pos 2 3 2 0 3 false; at_pos 0 2 1 3 2 true] = false.
Proof. eexists. split; [vm_compute; reflexivity | split; reflexivity]. Qed.

(** The step of that run that goes wrong: with the free nodes left by the
    first three sprites, [search] returns the unrotated 1x2 rect at (3,2)
    together with [rotate = True]. *)
Lemma maxrects_search_stale_rotate :
  MaxRectsLayout.search (Sheet.bounded 5 5 true)
    (MaxRectsLayout.make []
       [Rect.make 4 1 0 2; Rect.make 1 3 3 2; Rect.make 2 2 3 3] 0)
    (Rect.make 1 2 0 0)
  = (Some (Rect.make 1 2 3 2, 0, 1), true).
Proof. reflexivity. Qed.

(** C2: the claim fails on [ShelfLayout] with rotation allowed.  On a sheet
    4 wide and 6 high the 3x5 sprite passes the size test, is turned to 5x3
    for the new shelf, and is placed at (0,0), one column past the right edge
    of the bin. *)
Theorem shelf_rotation_leaves_bin :
  exists st,
    ShelfLayout.add (Sheet.bounded 4 6 true) (sprites_of [(3, 5)])
    = Some (Ok (st, [at_pos 0 5 3 0 0 true], [])) /\
    inside_bin (Sheet.bounded 4 6 true) (at_pos 0 5 3 0 0 true) = false.
Proof. eexists. split; [vm_compute; reflexivity | reflexivity]. Qed.

(** C9: the claim fails on [ShelfLayout].  On a sheet 10 wide and 4 high with
    rotation allowed, the 4x10 sprite fits once turned, yet the size test of
    [get_best] looks at the sprite as it is and skips it: nothing is placed
    and the sprite is returned in [remain], untouched. *)
Theorem shelf_skips_sprite_that_fits_rotated :
  ShelfLayout.add (Sheet.bounded 10 4 true) (sprites_of [(4, 10)])
  = Some (Ok (ShelfLayout.clear, [], [Sprite.new 0 4 10])).
Proof. reflexivity. Qed.

(** [StackLayout.add] refuses the sprite of that input as well. *)
Lemma stack_refuses_sprite_that_fits_rotated :
  StackLayout.add (Sheet.bounded 10 4 true) StackLayout.clear (Sprite.new 0 4 10)
  = Ok (false, StackLayout.clear, Sprite.new 0 4 10).
Proof. reflexivity. Qed.

(** On the same input [MaxRectsLayout] does what scenario S3 expects: the
    sprite is turned to 10x4 and placed at (0,0). *)
Lemma maxrects_places_sprite_that_fits_rotated :
  exists st,
    MaxRectsLayout.add (Sheet.bounded 10 4 true) (sprites_of [(4, 10)])
    = Some (Ok (st, [at_pos 0 10 4 0 0 true], [])).
Proof. eexists. vm_compute. reflexivity. Qed.

(** ** StackLayout *)

(** C6: the claim fails on [StackLayout] with rotation allowed.  The first
    [add] of a 3x4 sprite opens a stack; the second [add] enters the loop over
    the stacks, where the sprite is higher than wide, and reading [sh.max]
    raises [NameError]. *)
Theorem stack_add_raises_name_error :
  StackLayout.add_all (Sheet.bounded 10 10 true) StackLayout.clear (sprites_of [(3, 4); (3, 4)])
  = Raise NameError.
Proof. reflexivity. Qed.

(** X19: every [add] on a layout that has a stack, for a sprite higher than wide
    that passes the size test, raises when rotation is allowed. *)
Lemma stack_add_name_error (sheet : Sheet.t) (s : StackLayout.state) (spr : Sprite.t) :
  Sheet.rotate sheet = true ->
  StackLayout.stacks s <> [] ->
  Sprite.w spr <= (Sheet.size sheet).1 ->
  Sprite.h spr <= (Sheet.size sheet).2 ->
  Sprite.w spr < Sprite.h spr ->
  StackLayout.add sheet s spr = Raise NameError.
Proof.
  intros Hrot Hne Hw Hh Hlt. unfold StackLayout.add.
  destruct (Sprite.w spr >? _) eqn:E1; [zbool; lia|].
  destruct (Sprite.h spr >? _) eqn:E2; [zbool; lia|]. simpl.
  destruct (StackLayout.stacks s) as [|sk rest]; [done|]. simpl.
  rewrite Hrot. simpl.
  destruct (Sprite.h spr >? Sprite.w spr) eqn:E3; [done | zbool; lia].
Qed.

Lemma stack_add_name_error_witness :
  StackLayout.add (Sheet.bounded 10 10 true)
    (StackLayout.make 3 [StackLayout.Stack.make 0 4 3 [at_pos 0 3 4 0 0 false]])
    (Sprite.new 1 2 5)
  = Raise NameError.
Proof.
  apply (stack_add_name_error (Sheet.bounded 10 10 true)
           (StackLayout.make 3 [StackLayout.Stack.make 0 4 3 [at_pos 0 3 4 0 0 false]])
           (Sprite.new 1 2 5)).
  - reflexivity.
  - discriminate.
  - unfold Sprite.w. simpl. lia.
  - unfold Sprite.h. simpl. lia.
  - unfold Sprite.w, Sprite.h. simpl. lia.
Defined.

(** Without rotation the loop over the stacks never reads [sh]: it ends with
    [tw] and [rotated] assigned as soon as there is a stack, and the stack it
    chooses is one of the list. *)
Lemma stack_scan_without_rotation (sheet : Sheet.t) (w h : Z) :
  Sheet.rotate sheet = false ->
  forall (stacks : list StackLayout.Stack.t) (k : nat) (v : StackLayout.locals),
    exists v1,
      StackLayout.scan sheet k stacks w h v = Ok v1 /\
      (stacks = [] -> v1 = v) /\
      (stacks <> [] -> StackLayout.tw v1 = Some w /\ StackLayout.rotated v1 = Some false) /\
      (forall j, StackLayout.stack v1 = Some j ->
         StackLayout.stack v = Some j \/ (k <= j < k + length stacks)%nat).
Proof.
  intros Hrot. induction stacks as [|sk rest IH]; intros k v.
  - exists v. simpl. repeat split; try done. intros j Hj. by left.
  - simpl. rewrite Hrot. simpl.
    match goal with |- context [StackLayout.scan sheet (S k) rest w h ?u] => set (v' := u) end.
    assert (Hv' : StackLayout.tw v' = Some w /\ StackLayout.rotated v' = Some false /\
                  (forall j, StackLayout.stack v' = Some j ->
                     StackLayout.stack v = Some j \/ j = k)).
    { subst v'. destruct (_ && _); [destruct (StackLayout.best v) as [b|]; [destruct (_ <? b)|]|];
        simpl; (split; [done|]); (split; [done|]); intros j Hj;
        first [by left | right; congruence]. }
    destruct Hv' as (Htw & Hr & Hst).
    destruct (IH (S k) v') as (v1 & Hscan & Hnil & Hcons & Hidx).
    exists v1. split; [done|]. split; [done|]. split.
    + intros _. destruct rest as [|sk' rest']; [by rewrite Hnil | by apply Hcons].
    + intros j Hj. destruct (Hidx j Hj) as [Hj'|Hj']; [|right; lia].
      destruct (Hst j Hj') as [?| ->]; [by left | right; lia].
Qed.

(** On a sheet that does not allow rotation, [StackLayout.add] raises
    nothing. *)
Lemma stack_add_without_rotation (sheet : Sheet.t) (s : StackLayout.state) (spr : Sprite.t) :
  Sheet.rotate sheet = false ->
  exists out, StackLayout.add sheet s spr = Ok out.
Proof.
  intros Hrot. unfold StackLayout.add.
  destruct (_ || _); [by eexists|].
  destruct (stack_scan_without_rotation sheet (Sprite.w spr) (Sprite.h spr) Hrot
              (StackLayout.stacks s) 0
              (StackLayout.mk_locals None None None None None))
    as (v & -> & Hnil & Hcons & Hidx).
  simpl. destruct (StackLayout.stack v) as [k|] eqn:Hk.
  - destruct (Hidx k eq_refl) as [|Hlt]; [done|].
    assert (Hne : StackLayout.stacks s <> []).
    { intros E. rewrite E in Hlt. simpl in Hlt. lia. }
    destruct (Hcons Hne) as [_ ->]. simpl.
    destruct (lookup_lt_is_Some_2 (StackLayout.stacks s) k ltac:(lia)) as [sk ->].
    by eexists.
  - destruct (bool_decide (StackLayout.stacks s = [])) eqn:E; simpl.
    + by eexists.
    + apply bool_decide_eq_false in E. destruct (Hcons E) as [-> _]. simpl.
      destruct (_ >? _); by eexists.
Qed.

(** ** Splitting the free nodes *)

Section Split.
Variable rect : Rect.t.

(** [split] only appends to the list, and hits exactly the nodes that
    intersect the rect. *)
Lemma split_app (free_rects : list Rect.t) (free : Rect.t) :
  MaxRectsLayout.split free_rects free rect
  = (Rect.intersects free rect, free_rects ++ new_nodes rect free).
Proof.
  unfold new_nodes, MaxRectsLayout.split, Rect.intersects, Rect.right, Rect.bottom.
  destruct (_ || _ || _ || _) eqn:Hout.
  - simpl. rewrite app_nil_r. f_equal. symmetry.
    rewrite !Z.geb_leb in Hout.
    repeat (apply orb_prop in Hout as [Hout|Hout]); zbool;
      apply andb_false_iff; rewrite !andb_false_iff, !Z.ltb_ge; lia.
  - f_equal.
    + symmetry. rewrite !Z.geb_leb in Hout. zbool.
      rewrite !andb_true_iff, !Z.ltb_lt. lia.
    + repeat match goal with |- context [if ?c then _ else _] => destruct c end;
        simpl; rewrite <- ?app_assoc, ?app_nil_r; reflexivity.
Qed.

(** Where the nodes of a split come from. *)
Lemma elem_of_new_nodes (free s : Rect.t) :
  s ∈ new_nodes rect free ->
  Rect.intersects free rect = true /\
  ((s = top_node rect free /\ Rect.y free < Rect.y rect < Rect.bottom free) \/
   (s = bottom_node rect free /\ Rect.bottom rect < Rect.bottom free) \/
   (s = left_node rect free /\ Rect.x free < Rect.x rect < Rect.right free) \/
   (s = right_node rect free /\ Rect.right rect < Rect.right free)).
Proof.
  intros Hs.
  assert (Hint : Rect.intersects free rect = true).
  { pose proof (split_app [] free) as Hsp. unfold new_nodes in Hs.
    destruct (Rect.intersects free rect); [done|].
    unfold MaxRectsLayout.split in *.
    destruct (_ || _ || _ || _); [simpl in Hs; by apply not_elem_of_nil in Hs|].
    by injection Hsp. }
  split; [done|].
  unfold new_nodes, MaxRectsLayout.split in Hs.
  unfold Rect.right, Rect.bottom.
  destruct (_ || _ || _ || _); [simpl in Hs; by apply not_elem_of_nil in Hs|].
  simpl in Hs.
  repeat match type of Hs with context [if ?c then _ else _] =>
    let E := fresh "E" in destruct c eqn:E end;
  simpl in Hs;
  repeat (apply elem_of_cons in Hs as [->|Hs]);
  try (by apply not_elem_of_nil in Hs);
  zbool;
  first [ left; split; [reflexivity | lia]
        | right; left; split; [reflexivity | lia]
        | right; right; left; split; [reflexivity | lia]
        | right; right; right; split; [reflexivity | lia] ].
Qed.

Lemma enumerate_snoc {A : Type} (l : list A) (a : A) :
  MaxRectsLayout.enumerate (l ++ [a]) = MaxRectsLayout.enumerate l ++ [(length l, a)].
Proof.
  unfold MaxRectsLayout.enumerate. rewrite imap_app. simpl.
  by rewrite Nat.add_0_r.
Qed.

(** The loop of [place] over the reversed snapshot: the nodes that do not
    intersect the rect stay, in their order, and the new nodes of the others
    follow, those of the last node first. *)
Lemma split_turns_spec (nodes : list Rect.t) :
  forall tail : list Rect.t,
    foldl (MaxRectsLayout.split_turn rect) (nodes ++ tail)
          (reverse (MaxRectsLayout.enumerate nodes))
    = filter (fun f => Rect.intersects f rect = false) nodes ++ tail
      ++ (reverse (filter (fun f => Rect.intersects f rect = true) nodes)
            ≫= new_nodes rect).
Proof.
  induction nodes as [|f nodes IH] using rev_ind; intros tail.
  - simpl. by rewrite app_nil_r.
  - rewrite enumerate_snoc, reverse_snoc. simpl.
    rewrite !filter_app, !filter_cons, !filter_nil.
    destruct (Rect.intersects f rect) eqn:Hint.
    + rewrite split_app, Hint.
      rewrite <- !app_assoc. simpl. rewrite delete_middle.
      rewrite IH.
      destruct (decide (true = false)); [done|].
      destruct (decide (true = true)); [|done].
      rewrite ?app_nil_r, reverse_snoc, bind_cons, <- ?app_assoc. done.
    + rewrite <- !app_assoc. simpl. rewrite IH.
      destruct (decide (false = false)); [|done].
      destruct (decide (false = true)); [done|].
      rewrite ?app_nil_r, <- ?app_assoc. done.
Qed.

Lemma split_free_nodes_spec (nodes : list Rect.t) :
  MaxRectsLayout.split_free_nodes rect nodes
  = filter (fun f => Rect.intersects f rect = false) nodes
    ++ (reverse (filter (fun f => Rect.intersects f rect = true) nodes) ≫= new_nodes rect).
Proof.
  unfold MaxRectsLayout.split_free_nodes.
  pose proof (split_turns_spec nodes []) as H.
  by rewrite app_nil_r in H.
Qed.

(** A node of the list after the split is an old node that misses the
    rect, or a new node of an old node that meets it. *)
Lemma elem_of_split_free_nodes (nodes : list Rect.t) (s : Rect.t) :
  s ∈ MaxRectsLayout.split_free_nodes rect nodes <->
  (s ∈ nodes /\ Rect.intersects s rect = false) \/
  (exists f, f ∈ nodes /\ Rect.intersects f rect = true /\ s ∈ new_nodes rect f).
Proof.
  rewrite split_free_nodes_spec, elem_of_app, list_elem_of_filter, list_elem_of_bind.
  split.
  - intros [[? ?]|(f & Hs & Hf)]; [by left|].
    apply elem_of_reverse, list_elem_of_filter in Hf as [? ?]. right. by exists f.
  - intros [[? ?]|(f & Hf & Hint & Hs)]; [by left|].
    right. exists f. split; [done|]. by apply elem_of_reverse, list_elem_of_filter.
Qed.

(** A new node misses the placed rect. *)
Lemma new_node_misses_rect (free s : Rect.t) :
  s ∈ new_nodes rect free -> Rect.intersects s rect = false.
Proof.
  intros Hs. apply elem_of_new_nodes in Hs as (_ & Hs).
  unfold Rect.intersects, Rect.right, Rect.bottom in *.
  rewrite !andb_false_iff, !Z.ltb_ge.
  destruct Hs as [[-> ?]|[[-> ?]|[[-> ?]|[-> ?]]]]; simpl; lia.
Qed.

(** Whatever a new node meets, the node it was cut from meets too. *)
Lemma new_node_within (free s other : Rect.t) :
  s ∈ new_nodes rect free ->
  Rect.intersects s other = true -> Rect.intersects free other = true.
Proof.
  intros Hs. apply elem_of_new_nodes in Hs as (Hint & Hs).
  unfold Rect.intersects, Rect.right, Rect.bottom in *.
  rewrite !andb_true_iff, !Z.ltb_lt in *.
  destruct Hs as [[-> ?]|[[-> ?]|[[-> ?]|[-> ?]]]]; simpl; lia.
Qed.

End Split.

(** ** Pruning the free list *)

Lemma elem_of_enumerate {A : Type} (l : list A) (i : nat) (a : A) :
  (i, a) ∈ MaxRectsLayout.enumerate l <-> l !! i = Some a.
Proof.
  unfold MaxRectsLayout.enumerate. rewrite elem_of_lookup_imap. split.
  - by intros (j & b & [= -> ->] & ?).
  - intros. by exists i, a.
Qed.

Lemma enumerate_indices {A : Type} (l : list A) :
  (MaxRectsLayout.enumerate l).*1 = seq 0 (length l).
Proof.
  unfold MaxRectsLayout.enumerate. rewrite fmap_imap.
  transitivity (id <$> seq 0 (length l)); [|apply list_fmap_id].
  rewrite <- imap_seq_0. by apply imap_ext.
Qed.

Lemma dominated_true (nodes : list Rect.t) (j : nat) (f2 : Rect.t) :
  MaxRectsLayout.dominated nodes (j, f2) = true <->
  exists i f1, nodes !! i = Some f1 /\ i <> j /\ Rect.contains f1 f2 = true.
Proof.
  unfold MaxRectsLayout.dominated. rewrite existsb_exists. split.
  - intros ([i f1] & Hin & Hc). simpl in Hc.
    apply list_elem_of_In, elem_of_enumerate in Hin.
    apply andb_true_split in Hc as [Hne Hc].
    exists i, f1. split; [done|]. split; [|done].
    apply negb_true_iff, Nat.eqb_neq in Hne. done.
  - intros (i & f1 & Hi & Hne & Hc). exists (i, f1). split.
    + by apply list_elem_of_In, elem_of_enumerate.
    + simpl. rewrite Hc, andb_true_r. by apply negb_true_iff, Nat.eqb_neq.
Qed.

Lemma dominated_false (nodes : list Rect.t) (j : nat) (f2 : Rect.t) :
  MaxRectsLayout.dominated nodes (j, f2) = false <->
  forall i f1, nodes !! i = Some f1 -> i <> j -> Rect.contains f1 f2 = false.
Proof.
  rewrite <- not_true_iff_false, dominated_true. split.
  - intros Hn i f1 Hi Hne. apply not_true_iff_false. intros Hc. apply Hn. by exists i, f1.
  - intros H (i & f1 & Hi & Hne & Hc). by rewrite (H i f1 Hi Hne) in Hc.
Qed.

(** The nodes that the prune keeps. *)
Lemma elem_of_prune (nodes : list Rect.t) (f : Rect.t) :
  f ∈ MaxRectsLayout.prune nodes <->
  exists j, nodes !! j = Some f /\
    forall i f1, nodes !! i = Some f1 -> i <> j -> Rect.contains f1 f = false.
Proof.
  unfold MaxRectsLayout.prune. rewrite list_elem_of_fmap. split.
  - intros ([j g] & -> & Hin). apply list_elem_of_filter in Hin as [Hd Hin].
    apply elem_of_enumerate in Hin. rewrite dominated_false in Hd. by exists j.
  - intros (j & Hj & Hd). exists (j, f). split; [done|].
    apply list_elem_of_filter. split; [by apply dominated_false | by apply elem_of_enumerate].
Qed.

Lemma prune_subset (nodes : list Rect.t) (f : Rect.t) :
  f ∈ MaxRectsLayout.prune nodes -> f ∈ nodes.
Proof.
  intros (j & Hj & _)%elem_of_prune. apply list_elem_of_lookup. by exists j.
Qed.

(** After the prune no node is contained in a node at another position,
    whatever the list was. *)
Lemma prune_undominated (nodes : list Rect.t) : undominated (MaxRectsLayout.prune nodes).
Proof.
  unfold undominated, MaxRectsLayout.prune. intros a b f1 f2 Ha Hb Hab.
  set (kept := filter (fun node2 => MaxRectsLayout.dominated nodes node2 = false)
                 (MaxRectsLayout.enumerate nodes)) in *.
  apply list_lookup_fmap_Some_1 in Ha as ([i g1] & -> & Ha).
  apply list_lookup_fmap_Some_1 in Hb as ([j g2] & -> & Hb). simpl.
  assert (Hnd : NoDup kept.*1).
  { apply (sublist_NoDup _ (MaxRectsLayout.enumerate nodes).*1).
    - rewrite enumerate_indices. apply NoDup_seq.
    - apply fmap_sublist, sublist_filter. }
  assert (Hij : i <> j).
  { intros ->. apply Hab. apply (NoDup_lookup _ _ _ j Hnd).
    - by rewrite list_lookup_fmap, Ha.
    - by rewrite list_lookup_fmap, Hb. }
  assert (H1 : (i, g1) ∈ kept) by (apply list_elem_of_lookup; eauto).
  assert (H2 : (j, g2) ∈ kept) by (apply list_elem_of_lookup; eauto).
  apply list_elem_of_filter in H1 as [_ H1]. apply elem_of_enumerate in H1.
  apply list_elem_of_filter in H2 as [Hd _].
  by apply (proj1 (dominated_false _ _ _) Hd i g1).
Qed.

Lemma contains_refl (f : Rect.t) :
  0 <= Rect.w f -> 0 <= Rect.h f -> Rect.contains f f = true.
Proof.
  intros Hw Hh. unfold Rect.contains, Rect.covers, Rect.right, Rect.bottom.
  rewrite !andb_true_iff, !Z.leb_le. lia.
Qed.

(** The test of the prune tells two nodes apart by their positions, not by
    their values: of a rect that the list holds twice, no copy is kept. *)
Lemma prune_drops_both_copies (nodes : list Rect.t) (i j : nat) (f : Rect.t) :
  nodes !! i = Some f -> nodes !! j = Some f -> i <> j ->
  0 <= Rect.w f -> 0 <= Rect.h f ->
  f ∉ MaxRectsLayout.prune nodes.
Proof.
  intros Hi Hj Hij Hw Hh (k & Hk & Hd)%elem_of_prune.
  pose proof (contains_refl f Hw Hh) as Hc.
  destruct (decide (i = k)) as [->|Hik].
  - rewrite (Hd j f Hj) in Hc; [done | by intros ->].
  - by rewrite (Hd i f Hi Hik) in Hc.
Qed.

(** A list of rects of positive size where none is contained in another
    holds no rect twice. *)
Lemma undominated_NoDup (nodes : list Rect.t) :
  Forall positive nodes -> undominated nodes -> NoDup nodes.
Proof.
  intros Hpos Hund. apply NoDup_alt. intros i j f Hi Hj.
  destruct (decide (i = j)) as [|Hij]; [done|].
  pose proof (Hund i j f f Hi Hj Hij) as Hc.
  rewrite Forall_lookup in Hpos. destruct (Hpos i f Hi) as [Hw Hh].
  rewrite contains_refl in Hc by lia. done.
Qed.

(** ** What [place] leaves in [MaxRectsLayout] *)

Lemma maxrects_place_true (sheet : Sheet.t) (st st1 : MaxRectsLayout.state)
    (sprite sprite1 : Sprite.t) (position : Rect.t) (rotate : bool) :
  MaxRectsLayout.place sheet st sprite position rotate = (true, st1, sprite1) ->
  Sheet.check sheet (Sprite.rect (moved sprite position)) = true /\
  sprite1 = (if xorb (Sprite.rotated sprite) rotate
             then Sprite.rotate (moved sprite position) else moved sprite position) /\
  st1 = MaxRectsLayout.make (MaxRectsLayout.used_rects st)
          (MaxRectsLayout.prune
             (MaxRectsLayout.split_free_nodes (Sprite.rect sprite1) (MaxRectsLayout.free_rects st)))
          (MaxRectsLayout.debug_image_count st).
Proof.
  unfold MaxRectsLayout.place. fold (moved sprite position).
  destruct (Sheet.check sheet _); simpl; [|discriminate].
  intros [= <- <-]. done.
Qed.

(** C7 fails as stated: after [clear] and a successful [place] of a 5x5
    sprite at the origin of a 10x10 sheet, [used_rects] is still empty: it
    does not hold the sprite that was placed. *)
Lemma used_rects_not_recorded :
  exists st1 sprite1,
    MaxRectsLayout.place (Sheet.bounded 10 10 false)
      (MaxRectsLayout.clear (Sheet.bounded 10 10 false))
      (Sprite.new 0 5 5) (Rect.make 5 5 0 0) false = (true, st1, sprite1) /\
    Sprite.rect sprite1 = Rect.make 5 5 0 0 /\
    Sprite.rect sprite1 ∉ MaxRectsLayout.used_rects st1.
Proof.
  eexists _, _. split; [vm_compute; reflexivity|].
  split; [reflexivity|]. apply not_elem_of_nil.
Qed.

(** A successful [place] keeps the free rects off the sprites that they were
    off before, and off the sprite it places. *)
Lemma place_keeps_free_off (sheet : Sheet.t) (st st1 : MaxRectsLayout.state)
    (sprite sprite1 : Sprite.t) (position : Rect.t) (rotate : bool) (hist : list Sprite.t) :
  MaxRectsLayout.place sheet st sprite position rotate = (true, st1, sprite1) ->
  (forall f p, f ∈ MaxRectsLayout.free_rects st -> p ∈ hist ->
     Rect.intersects f (Sprite.rect p) = false) ->
  forall f p, f ∈ MaxRectsLayout.free_rects st1 -> p ∈ hist ++ [sprite1] ->
    Rect.intersects f (Sprite.rect p) = false.
Proof.
  intros Hplace IHf f p Hf Hp.
  apply maxrects_place_true in Hplace as (_ & _ & ->). simpl in Hf.
  apply prune_subset, elem_of_split_free_nodes in Hf.
  apply elem_of_app in Hp as [Hp|Hp].
  - destruct Hf as [[Hf _]|(g & Hg & _ & Hf)]; [by apply IHf|].
    apply not_true_iff_false. intros Hint.
    apply (new_node_within _ _ _ _ Hf) in Hint.
    by rewrite (IHf g p Hg Hp) in Hint.
  - apply list_elem_of_singleton in Hp as ->.
    destruct Hf as [[_ Hf]|(g & _ & _ & Hf)]; [done|].
    by apply new_node_misses_rect in Hf.
Qed.

(** C7, amended: [place] never writes [used_rects], which stays empty, and
    after every successful [place] no free rect overlaps any of the sprites
    placed since [clear]. *)
Theorem free_rects_avoid_placed (sheet : Sheet.t) (st : MaxRectsLayout.state)
    (hist : list Sprite.t) :
  maxrects_run sheet st hist ->
  MaxRectsLayout.used_rects st = [] /\
  forall f p, f ∈ MaxRectsLayout.free_rects st -> p ∈ hist ->
    Rect.intersects f (Sprite.rect p) = false.
Proof.
  induction 1 as [|st hist sprite position rotate st1 sprite1 Hrun [IHu IHf] Hplace].
  - split.
    + unfold MaxRectsLayout.clear. by destruct (Sheet.size sheet).
    + intros f p _ Hp. by apply not_elem_of_nil in Hp.
  - split.
    + by apply maxrects_place_true in Hplace as (_ & _ & ->).
    + by apply (place_keeps_free_off sheet st st1 sprite sprite1 position rotate).
Qed.

Lemma free_rects_avoid_placed_witness :
  MaxRectsLayout.used_rects
    (MaxRectsLayout.make [] [Rect.make 10 5 0 5; Rect.make 5 10 5 0] 0) = [] /\
  Rect.intersects (Rect.make 5 10 5 0) (Sprite.rect (at_pos 0 5 5 0 0 false)) = false.
Proof.
  destruct (free_rects_avoid_placed (Sheet.bounded 10 10 false)
              (MaxRectsLayout.make [] [Rect.make 10 5 0 5; Rect.make 5 10 5 0] 0)
              ([] ++ [at_pos 0 5 5 0 0 false])) as [Hused Hfree].
  - apply (run_place (Sheet.bounded 10 10 false)
             (MaxRectsLayout.clear (Sheet.bounded 10 10 false)) []
             (Sprite.new 0 5 5) (Rect.make 5 5 0 0) false).
    + apply run_clear.
    + vm_compute. reflexivity.
  - split; [exact Hused|].
    apply Hfree; simpl; repeat constructor.
Defined.

(** ** No free rect twice *)

Lemma contains_spec (a b : Rect.t) :
  Rect.contains a b = true <->
  (Rect.x a <= Rect.x b <= Rect.x a + Rect.w a /\
   Rect.x a <= Rect.x b + Rect.w b <= Rect.x a + Rect.w a /\
   Rect.y a <= Rect.y b <= Rect.y a + Rect.h a /\
   Rect.y a <= Rect.y b + Rect.h b <= Rect.y a + Rect.h a).
Proof.
  unfold Rect.contains, Rect.covers, Rect.right, Rect.bottom.
  rewrite !andb_true_iff, !Z.leb_le. lia.
Qed.

Lemma intersects_spec (a b : Rect.t) :
  Rect.intersects a b = true <->
  (Rect.x a < Rect.x b + Rect.w b /\ Rect.x b < Rect.x a + Rect.w a /\
   Rect.y a < Rect.y b + Rect.h b /\ Rect.y b < Rect.y a + Rect.h a).
Proof.
  unfold Rect.intersects, Rect.right, Rect.bottom.
  rewrite !andb_true_iff, !Z.ltb_lt. lia.
Qed.

(** Opens the hypotheses that say where new nodes come from, down to the
    integers of the rects they speak of. *)
Ltac open_nodes :=
  repeat match goal with
  | H : _ ∈ new_nodes _ _ |- _ =>
      let Hint := fresh "Hint" in
      apply elem_of_new_nodes in H as (Hint & H); apply intersects_spec in Hint
  | H : positive _ |- _ => destruct H
  end;
  unfold top_node, bottom_node, left_node, right_node,
    Rect.set_x, Rect.set_y, Rect.set_w, Rect.set_h, Rect.right, Rect.bottom in *;
  simpl in *.

Section NewNodes.
Variable rect : Rect.t.

Lemma new_node_positive (free s : Rect.t) :
  s ∈ new_nodes rect free -> positive free -> positive s.
Proof.
  intros Hs Hpos. unfold positive. open_nodes.
  destruct Hs as [[-> ?]|[[-> ?]|[[-> ?]|[-> ?]]]]; simpl; lia.
Qed.

Lemma new_node_contained (free s : Rect.t) :
  s ∈ new_nodes rect free -> positive free -> Rect.contains free s = true.
Proof.
  intros Hs Hpos. apply contains_spec. open_nodes.
  destruct Hs as [[-> ?]|[[-> ?]|[[-> ?]|[-> ?]]]]; simpl; lia.
Qed.

(** A rect cut from two free nodes: one of the two contains the other. *)
Lemma new_node_shared (f1 f2 s : Rect.t) :
  s ∈ new_nodes rect f1 -> s ∈ new_nodes rect f2 ->
  positive f1 -> positive f2 ->
  Rect.contains f1 f2 = true \/ Rect.contains f2 f1 = true.
Proof.
  intros H1 H2 Hp1 Hp2. rewrite !contains_spec. open_nodes.
  destruct H1 as [[-> ?]|[[-> ?]|[[-> ?]|[-> ?]]]];
    destruct H2 as [[E ?]|[[E ?]|[[E ?]|[E ?]]]];
    injection E; intros; lia.
Qed.

(** The nodes cut from one free node are different rects. *)
Lemma new_nodes_NoDup (free : Rect.t) : NoDup (new_nodes rect free).
Proof.
  apply NoDup_alt. intros i j s Hi Hj.
  destruct (decide (i = j)) as [|Hij]; [done|]. exfalso.
  assert (Hs : s ∈ new_nodes rect free) by (apply list_elem_of_lookup; eauto).
  apply elem_of_new_nodes in Hs as (Hint & _). apply intersects_spec in Hint.
  unfold new_nodes, MaxRectsLayout.split in Hi, Hj.
  destruct (_ || _ || _ || _); simpl in Hi, Hj; [by rewrite lookup_nil in Hi|].
  repeat match type of Hi with context [if ?c then _ else _] =>
    let E := fresh "E" in destruct c eqn:E end;
  simpl in Hi, Hj; zbool;
  repeat (destruct i as [|i]; simpl in Hi; try discriminate);
  repeat (destruct j as [|j]; simpl in Hj; try discriminate);
  try congruence;
  unfold Rect.set_x, Rect.set_y, Rect.set_w, Rect.set_h in *; simpl in *;
  injection Hi as <-; injection Hj; intros; lia.
Qed.

End NewNodes.

Section SplitKeepsApart.
Variables (rect : Rect.t) (nodes : list Rect.t).
Hypothesis Hpos : Forall positive nodes.
Hypothesis Hund : undominated nodes.

Lemma split_free_nodes_positive :
  Forall positive (MaxRectsLayout.split_free_nodes rect nodes).
Proof.
  rewrite Forall_forall in Hpos |- *. intros s Hs.
  apply elem_of_split_free_nodes in Hs as [[Hs _]|(f & Hf & _ & Hs)]; [auto|].
  eapply new_node_positive; eauto.
Qed.

Lemma undominated_elems (f g : Rect.t) :
  f ∈ nodes -> g ∈ nodes -> Rect.contains f g = true -> f = g.
Proof.
  intros [i Hi]%list_elem_of_lookup [j Hj]%list_elem_of_lookup Hc.
  destruct (decide (i = j)) as [->|Hij]; [congruence|].
  by rewrite (Hund i j f g Hi Hj Hij) in Hc.
Qed.

(** On a list of positive rects none of which is contained in another, the
    split leaves a list that holds no rect twice. *)
Lemma split_free_nodes_NoDup : NoDup (MaxRectsLayout.split_free_nodes rect nodes).
Proof.
  pose proof (undominated_NoDup nodes Hpos Hund) as Hnd.
  rewrite Forall_forall in Hpos.
  rewrite split_free_nodes_spec. apply NoDup_app. split; [|split].
  - by apply NoDup_filter.
  - intros s [Hmiss Hs]%list_elem_of_filter (f & Hsf & Hf)%list_elem_of_bind.
    apply elem_of_reverse, list_elem_of_filter in Hf as [Hhit Hf].
    assert (f = s) as ->; [|congruence].
    apply undominated_elems; [done..|]. apply new_node_contained with rect; auto.
  - apply NoDup_bind.
    + intros f1 f2 s Hf1 Hf2 Hs1 Hs2.
      apply elem_of_reverse, list_elem_of_filter in Hf1 as [_ Hf1].
      apply elem_of_reverse, list_elem_of_filter in Hf2 as [_ Hf2].
      destruct (new_node_shared rect f1 f2 s) as [Hc|Hc]; auto.
      * by apply undominated_elems.
      * symmetry. by apply undominated_elems.
    + intros f _. apply new_nodes_NoDup.
    + rewrite reverse_Permutation. by apply NoDup_filter.
Qed.

End SplitKeepsApart.

(** ** The free list after [place] *)

(** On a sheet of positive size, every layout reached from [clear] has free
    rects of positive size, none contained in another. *)
Lemma run_free_rects (sheet : Sheet.t) (st : MaxRectsLayout.state) (hist : list Sprite.t) :
  0 < (Sheet.size sheet).1 -> 0 < (Sheet.size sheet).2 ->
  maxrects_run sheet st hist ->
  Forall positive (MaxRectsLayout.free_rects st) /\ undominated (MaxRectsLayout.free_rects st).
Proof.
  intros Hw Hh.
  induction 1 as [|st hist sprite position rotate st1 sprite1 Hrun [IHp IHu] Hplace].
  - unfold MaxRectsLayout.clear. destruct (Sheet.size sheet) as [w h]. simpl in *. split.
    + by repeat constructor.
    + intros [|i] [|j] f1 f2 Hi Hj Hij; simplify_eq/=.
  - apply maxrects_place_true in Hplace as (_ & _ & ->). simpl. split.
    + pose proof (split_free_nodes_positive (Sprite.rect sprite1) _ IHp) as Hpos.
      rewrite Forall_forall in Hpos |- *. intros f Hf. by apply Hpos, prune_subset.
    + apply prune_undominated.
Qed.



(** On a free list that holds a rect twice, which no run from [clear]
    reaches, the tie-break would fail: [place] of a 4x4 sprite at the origin
    on a list that holds the 10x10 bin twice makes the node below the sprite
    twice, and the prune keeps no copy of it. *)
Lemma prune_loses_both_copies :
  ~ keeps_one_copy (Sheet.bounded 10 10 false) doubled_bin.
Proof.
  intros H.
  specialize (H (Sprite.new 0 4 4) (Rect.make 4 4 0 0) false _ _ (Rect.make 10 6 0 4) eq_refl).
  vm_compute in H. specialize (H ltac:(lia)). discriminate.
Qed.

(** Were [Rect]s compared by value, the prune would keep both copies of the
    node there. *)
Lemma prune_by_value_keeps_both_copies :
  copies (Rect.make 10 6 0 4)
    (prune_by_value
       (MaxRectsLayout.split_free_nodes (Rect.make 4 4 0 0)
          (MaxRectsLayout.free_rects doubled_bin))) = 2%nat.
Proof. reflexivity. Qed.



(** ** Scenario S2 on [MaxRectsLayout] *)

(** C4 fails as stated: the run does not put the 4x4 sprite at (6,0) and the
    4x6 sprite at (6,4). *)
Lemma s2_expected_not_placed :
  ~ exists st placed remain,
      MaxRectsLayout.add s2_sheet s2_sprites = Some (Ok (st, placed, remain)) /\
      forall s, s ∈ s2_expected -> s ∈ placed.
Proof.
  intros (st & placed & remain & Hadd & Hall).
  vm_compute in Hadd. injection Hadd as _ <- _.
  specialize (Hall (at_pos 1 4 4 6 0 false) ltac:(unfold s2_expected; by repeat constructor)).
  apply list_elem_of_In in Hall. simpl in Hall.
  destruct Hall as [E|[E|[E|[E|[]]]]]; discriminate E.
Qed.

(** C4, amended: the run places all four sprites, the 6x6 at (0,0), then the
    4x6 at (6,0), the 6x4 at (0,6) and the 4x4 at (6,6); none is rotated, no
    two overlap, all lie in the bin, they cover its 100 cells, and no free
    rect is left. *)
Theorem s2_maxrects_tiles_bin :
  MaxRectsLayout.add s2_sheet s2_sprites
  = Some (Ok (MaxRectsLayout.make [] [] 0, s2_placed, [])) /\
  pairwise_disjoint s2_placed = true /\
  forallb (inside_bin s2_sheet) s2_placed = true /\
  total_area s2_placed = 10 * 10.
Proof. repeat split; vm_compute; reflexivity. Qed.

(** ** [place] and [sheet.check] *)

(** C5 fails as stated: [ShelfLayout.place] does not consult [sheet.check].
    The call that the driver makes for the 3x5 sprite on the sheet 4 wide and
    6 high returns [True] for a placement that the bounds check rejects. *)
Lemma shelf_place_ignores_check :
  ~ rejects_invalid (Sheet.check (Sheet.bounded 4 6 true)) ShelfLayout.place.
Proof.
  intros H.
  specialize (H ShelfLayout.clear (at_pos 0 5 3 0 0 true)
                (ShelfLayout.Fresh (ShelfLayout.Shelf.new 0)) true eq_refl).
  discriminate.
Qed.

(** C5, amended: [ShelfLayout.place] never asks [sheet.check]: it always
    returns [True], and with a shelf of the layout or a new shelf it turns
    the sprite to the orientation asked for, puts it at the end of the shelf
    ([x = shelf.size], [y = shelf.start]), appends it to [shelf.rects], adds
    its width to [shelf.size], raises [shelf.max] to its height if that is
    larger, raises [self.size] to the bottom of the shelf if that is lower,
    and appends a new shelf to [self.shelves].
    [MaxRectsLayout.place] returns what [sheet.check] says of the sprite moved
    to the position, in the orientation in which the call receives it; when
    that is [False] the layout is left as it was, and when it is [True] the
    sprite is turned if its flag differs from [rotate] and the free list is
    split and pruned.  When the flag of the sprite equals [rotate], as in
    every call of the driver, the verdict is on the placement that results. *)
Theorem place_validation :
  (forall st sprite shelf rot,
     let out := ShelfLayout.place st sprite shelf rot in
     out.1.1 = true /\
     forall sh, shelf_at st shelf = Some sh ->
       Sprite.oid out.2 = Sprite.oid sprite /\
       Sprite.rotated out.2 = rot /\
       (Sprite.w out.2, Sprite.h out.2)
       = (if xorb (Sprite.rotated sprite) rot
          then (Sprite.h sprite, Sprite.w sprite)
          else (Sprite.w sprite, Sprite.h sprite)) /\
       Sprite.x out.2 = ShelfLayout.Shelf.size sh /\
       Sprite.y out.2 = ShelfLayout.Shelf.start sh /\
       exists sh1,
         ShelfLayout.Shelf.rects sh1 = ShelfLayout.Shelf.rects sh ++ [out.2] /\
         ShelfLayout.Shelf.start sh1 = ShelfLayout.Shelf.start sh /\
         ShelfLayout.Shelf.size sh1 = ShelfLayout.Shelf.size sh + Sprite.w out.2 /\
         ShelfLayout.Shelf.max sh1 = Z.max (ShelfLayout.Shelf.max sh) (Sprite.h out.2) /\
         ShelfLayout.size out.1.2
         = Z.max (ShelfLayout.size st)
             (ShelfLayout.Shelf.start sh1 + ShelfLayout.Shelf.max sh1) /\
         ShelfLayout.shelves out.1.2
         = match shelf with
           | ShelfLayout.Existing k => <[k := sh1]> (ShelfLayout.shelves st)
           | ShelfLayout.Fresh _ => ShelfLayout.shelves st ++ [sh1]
           end) /\
  (forall sheet st sprite position rot,
     let out := MaxRectsLayout.place sheet st sprite position rot in
     out.1.1 = Sheet.check sheet (Sprite.rect (moved sprite position)) /\
     (if out.1.1
      then out.2 = (if xorb (Sprite.rotated sprite) rot
                    then Sprite.rotate (moved sprite position)
                    else moved sprite position) /\
           MaxRectsLayout.free_rects out.1.2
           = MaxRectsLayout.prune
               (MaxRectsLayout.split_free_nodes (Sprite.rect out.2)
                  (MaxRectsLayout.free_rects st))
      else out.1.2 = st /\ out.2 = moved sprite position)) /\
  (forall sheet st sprite position,
     let out := MaxRectsLayout.place sheet st sprite position (Sprite.rotated sprite) in
     out.1.1 = Sheet.check sheet (Sprite.rect out.2)).
Proof.
  split; [|split].
  - intros st sprite shelf rot out. split.
    { subst out. unfold ShelfLayout.place.
      destruct shelf as [k|sh]; [destruct (ShelfLayout.shelves st !! k)|]; reflexivity. }
    intros sh Hsh.
    assert (Hout : out =
              (true,
               ShelfLayout.make
                 (Z.max (ShelfLayout.size st)
                    (ShelfLayout.Shelf.start (ShelfLayout.Shelf.place sh
                       (if xorb (Sprite.rotated sprite) rot
                        then Sprite.rotate sprite else sprite)).1
                     + ShelfLayout.Shelf.max (ShelfLayout.Shelf.place sh
                         (if xorb (Sprite.rotated sprite) rot
                          then Sprite.rotate sprite else sprite)).1))
                 (match shelf with
                  | ShelfLayout.Existing k =>
                    <[k := (ShelfLayout.Shelf.place sh
                              (if xorb (Sprite.rotated sprite) rot
                               then Sprite.rotate sprite else sprite)).1]>
                      (ShelfLayout.shelves st)
                  | ShelfLayout.Fresh _ =>
                    ShelfLayout.shelves st ++
                    [(ShelfLayout.Shelf.place sh
                        (if xorb (Sprite.rotated sprite) rot
                         then Sprite.rotate sprite else sprite)).1]
                  end),
               (ShelfLayout.Shelf.place sh
                  (if xorb (Sprite.rotated sprite) rot
                   then Sprite.rotate sprite else sprite)).2)).
    { subst out. unfold ShelfLayout.place.
      destruct shelf as [k|sh0]; simpl in Hsh.
      - rewrite Hsh. reflexivity.
      - injection Hsh as ->. reflexivity. }
    rewrite Hout. clear Hout out.
    set (sprite1 := if xorb (Sprite.rotated sprite) rot then Sprite.rotate sprite else sprite).
    assert (H1 : Sprite.oid sprite1 = Sprite.oid sprite /\
                 Sprite.rotated sprite1 = rot /\
                 (Sprite.w sprite1, Sprite.h sprite1)
                 = (if xorb (Sprite.rotated sprite) rot
                    then (Sprite.h sprite, Sprite.w sprite)
                    else (Sprite.w sprite, Sprite.h sprite))).
    { subst sprite1. destruct (Sprite.rotated sprite) eqn:E, rot; simpl; by rewrite ?E. }
    destruct H1 as (Hoid & Hflag & Hdims). clearbody sprite1.
    split; [done|]. split; [done|]. split; [done|]. split; [done|]. split; [done|].
    exists (ShelfLayout.Shelf.place sh sprite1).1.
    split; [reflexivity|]. split; [reflexivity|]. split; [reflexivity|].
    split; [|split; [reflexivity|]].
    + unfold ShelfLayout.Shelf.place. simpl.
      destruct (ShelfLayout.Shelf.max sh <? _) eqn:E; zbool; lia.
    + by destruct shelf.
  - intros sheet st sprite position rot. unfold MaxRectsLayout.place.
    fold (moved sprite position).
    destruct (Sheet.check sheet (Sprite.rect (moved sprite position))); simpl; done.
  - intros sheet st sprite position. unfold MaxRectsLayout.place.
    fold (moved sprite position).
    destruct (Sheet.check sheet (Sprite.rect (moved sprite position))) eqn:E; simpl.
    + rewrite xorb_nilpotent. done.
    + done.
Qed.

(** ** Runs of the driver on [MaxRectsLayout] *)

Section DriverInvariant.
Context {St Pos : Type} (L : Layout.t St Pos).

(** What a placing turn did. *)
Lemma add_turn_again_inv (st st1 : St) (placed remain placed1 remain1 : list Sprite.t) :
  Layout.add_turn st placed remain = Layout.Again st1 placed1 remain1 ->
  exists i pos rot spr spr1,
    (Layout.get_best st remain).2 = Some (i, pos, rot) /\
    (Layout.get_best st remain).1 !! i = Some spr /\
    Layout.place st spr pos rot = (true, st1, spr1) /\
    placed1 = placed ++ [spr1] /\
    remain1 = delete i (Layout.get_best st remain).1.
Proof.
  unfold Layout.add_turn.
  destruct remain as [|s0 rest] eqn:Hrem; [discriminate|]. rewrite <- Hrem.
  destruct (Layout.get_best st remain) as [remain' best].
  destruct best as [[[i pos] rot]|]; [|discriminate].
  destruct (remain' !! i) as [spr|] eqn:Hi; [|discriminate].
  destruct (Layout.place st spr pos rot) as [[ok st'] spr'] eqn:Hp.
  destruct ok; [|discriminate].
  intros [= <- <- <-]. by exists i, pos, rot, spr, spr'.
Qed.

Lemma add_turn_break_placed (st st1 : St) (placed remain placed1 remain1 : list Sprite.t) :
  Layout.add_turn st placed remain = Layout.Break st1 placed1 remain1 -> placed1 = placed.
Proof.
  unfold Layout.add_turn.
  destruct remain as [|s0 rest] eqn:Hrem; [by intros [= <- <- <-]|]. rewrite <- Hrem.
  destruct (Layout.get_best st remain) as [remain' best].
  destruct best as [[[i pos] rot]|]; [|by intros [= <- <- <-]].
  destruct (remain' !! i) as [spr|]; [|discriminate].
  destruct (Layout.place st spr pos rot) as [[[] st'] spr']; [discriminate|].
  by intros [= <- <- <-].
Qed.

(** A property of the layout, of [placed] and of the working list that
    every placing turn keeps holds when the loop ends, as far as it speaks of
    [placed]. *)
Lemma add_loop_invariant (Inv : St -> list Sprite.t -> list Sprite.t -> Prop)
    (Q : list Sprite.t -> Prop) :
  (forall st placed remain, Inv st placed remain -> Q placed) ->
  (forall st placed remain st1 placed1 remain1,
     Inv st placed remain ->
     Layout.add_turn st placed remain = Layout.Again st1 placed1 remain1 ->
     Inv st1 placed1 remain1) ->
  forall fuel st placed remain st' placed' remain',
    Inv st placed remain ->
    Layout.add_loop fuel st placed remain = Some (Ok (st', placed', remain')) ->
    Q placed'.
Proof.
  intros HQ Hstep. induction fuel as [|fuel IH]; intros st placed remain st' placed' remain' HI;
    simpl; [discriminate|].
  destruct (Layout.add_turn st placed remain) as [st1 p1 r1|st1 p1 r1|e] eqn:Ht.
  - apply IH. by apply (Hstep st placed remain st1 p1 r1).
  - intros [= <- <- <-]. apply add_turn_break_placed in Ht as ->. by apply (HQ st _ remain).
  - discriminate.
Qed.

End DriverInvariant.

Section MaxRectsBest.
Variables (sheet : Sheet.t) (st : MaxRectsLayout.state).

(** The candidate that [get_best] returns: it comes from one sprite of
    the list, and [rot] is the flag of that sprite as the call leaves it. *)
Lemma maxrects_get_best_from_pick (sprites : list Sprite.t) :
  forall i best score j pos rot,
    (MaxRectsLayout.get_best_from sheet st i sprites best score).2 = Some (j, pos, rot) ->
    best = Some (j, pos, rot) \/
    exists spr sc,
      (i <= j)%nat /\ sprites !! (j - i)%nat = Some spr /\
      MaxRectsLayout.candidate sheet st spr
      = ((MaxRectsLayout.candidate sheet st spr).1, Some (pos, sc)) /\
      (MaxRectsLayout.get_best_from sheet st i sprites best score).1 !! (j - i)%nat
      = Some (MaxRectsLayout.candidate sheet st spr).1 /\
      rot = Sprite.rotated (MaxRectsLayout.candidate sheet st spr).1.
Proof.
  induction sprites as [|spr rest IH]; intros i best score j pos rot; simpl; [by left|].
  destruct (MaxRectsLayout.candidate sheet st spr) as [spr1 cand] eqn:Hc.
  set (upd := match cand with
              | Some (p, s) =>
                  if match score with None => true | Some b => MaxRectsLayout.tuple_lt s b end
                  then (Some (i, p, Sprite.rotated spr1), Some s) else (best, score)
              | None => (best, score)
              end).
  destruct upd as [best1 score1] eqn:Hupd.
  specialize (IH (S i) best1 score1 j pos rot).
  destruct (MaxRectsLayout.get_best_from sheet st (S i) rest best1 score1) as [rest1 res].
  simpl in *. intros Hres.
  destruct (IH Hres) as [Hb|(spr' & sc & Hle & Hl & Hcand & Hout & Hrot)].
  - subst upd. destruct cand as [[p s]|]; [|left; congruence].
    destruct (match score with None => true | Some b => MaxRectsLayout.tuple_lt s b end);
      [|left; congruence].
    injection Hupd as <- <-. injection Hb as <- <- <-.
    right. exists spr, s. rewrite Nat.sub_diag, Hc. simpl. done.
  - right. exists spr', sc. split; [lia|].
    replace (j - i)%nat with (S (j - S i)) by lia. simpl. done.
Qed.

Lemma maxrects_get_best_pick (sprites : list Sprite.t) (j : nat) (pos : Rect.t) (rot : bool) :
  (MaxRectsLayout.get_best sheet st sprites).2 = Some (j, pos, rot) ->
  exists spr sc,
    sprites !! j = Some spr /\
    MaxRectsLayout.candidate sheet st spr
    = ((MaxRectsLayout.candidate sheet st spr).1, Some (pos, sc)) /\
    (MaxRectsLayout.get_best sheet st sprites).1 !! j
    = Some (MaxRectsLayout.candidate sheet st spr).1 /\
    rot = Sprite.rotated (MaxRectsLayout.candidate sheet st spr).1.
Proof.
  intros H. apply maxrects_get_best_from_pick in H as [|(spr & sc & _ & Hl & Hc & Ho & Hr)];
    [done|].
  rewrite Nat.sub_0_r in Hl, Ho. by exists spr, sc.
Qed.

(** Without rotation, [search] never sets [rotate], and the rect it
    returns is the rect it was given, moved to the corner of a free node in
    which it fits. *)
Lemma search_from_without_rotation (rect : Rect.t) :
  Sheet.rotate sheet = false ->
  forall free_rects best flag pos b l flag',
    MaxRectsLayout.search_from sheet free_rects rect best flag = (Some (pos, b, l), flag') ->
    flag' = flag /\
    (best = Some (pos, b, l) \/
     exists f, f ∈ free_rects /\
       pos = Rect.make (Rect.w rect) (Rect.h rect) (Rect.x f) (Rect.y f) /\
       Rect.w rect <= Rect.w f /\ Rect.h rect <= Rect.h f).
Proof.
  intros Hrot. induction free_rects as [|f rest IH]; intros best flag pos b l flag'; simpl.
  - intros [= -> ->]. split; [done | by left].
  - rewrite Hrot. simpl. intros H. apply IH in H as [-> H]. split; [done|].
    destruct H as [H|(g & Hg & Hpos & Hfit)].
    + destruct (_ && _) eqn:Hfit; [|by left].
      destruct (MaxRectsLayout.beats _ _ best); [|by left].
      injection H as <- <- <-. right. exists f. zbool.
      split; [by left|]. split; [done | lia].
    + right. exists g. split; [by right | done].
Qed.

Lemma candidate_without_rotation (spr spr1 : Sprite.t) (pos : Rect.t) (sc : Z * Z) :
  Sheet.rotate sheet = false ->
  MaxRectsLayout.candidate sheet st spr = (spr1, Some (pos, sc)) ->
  spr1 = spr /\
  exists f, f ∈ MaxRectsLayout.free_rects st /\
    pos = Rect.make (Sprite.w spr) (Sprite.h spr) (Rect.x f) (Rect.y f) /\
    Sprite.w spr <= Rect.w f /\ Sprite.h spr <= Rect.h f.
Proof.
  intros Hrot. unfold MaxRectsLayout.candidate, MaxRectsLayout.search.
  destruct (MaxRectsLayout.search_from _ _ _ _ _) as [[[[p b] l]|] flag] eqn:Hs; [|discriminate].
  apply (search_from_without_rotation _ Hrot) in Hs as [-> [|Hf]]; [done|].
  destruct (negb _); [discriminate|]. intros [= <- <- _]. done.
Qed.

End MaxRectsBest.

(** Every sprite that [add] places on a [MaxRectsLayout] passed
    [sheet.check] in the position and orientation in which [add] returns it,
    with or without rotation. *)
Lemma maxrects_placed_pass_check (sheet : Sheet.t) (sprites placed remain : list Sprite.t)
    (st : MaxRectsLayout.state) :
  MaxRectsLayout.add sheet sprites = Some (Ok (st, placed, remain)) ->
  Forall (fun p => Sheet.check sheet (Sprite.rect p) = true) placed.
Proof.
  unfold MaxRectsLayout.add, Layout.add.
  apply (add_loop_invariant (MaxRectsLayout.layout sheet)
           (fun _ placed _ => Forall (fun p => Sheet.check sheet (Sprite.rect p) = true) placed)
           (Forall (fun p => Sheet.check sheet (Sprite.rect p) = true)));
    [done| |by constructor].
  intros s pl rm s1 pl1 rm1 Hinv Ht.
  apply add_turn_again_inv in Ht as (i & pos & rot & spr & spr1 & Hbest & Hi & Hplace & -> & _).
  simpl in Hbest, Hi, Hplace.
  apply maxrects_get_best_pick in Hbest as (spr0 & sc & _ & _ & Hout & ->).
  rewrite Hout in Hi. injection Hi as <-.
  apply maxrects_place_true in Hplace as (Hcheck & -> & _).
  rewrite xorb_nilpotent. apply Forall_app. split; [done|]. by repeat constructor.
Qed.

(** X17: with the bounds check as [sheet.check], every sprite that [add] places
    on a [MaxRectsLayout] lies inside the bin. *)
Lemma maxrects_placed_inside_bin (maxw maxh : Z) (rot : bool)
    (sprites placed remain : list Sprite.t) (st : MaxRectsLayout.state) :
  MaxRectsLayout.add (Sheet.bounded maxw maxh rot) sprites = Some (Ok (st, placed, remain)) ->
  forallb (inside_bin (Sheet.bounded maxw maxh rot)) placed = true.
Proof.
  intros H. apply maxrects_placed_pass_check in H.
  apply forallb_forall. intros p Hp.
  rewrite Forall_forall in H. apply H. by apply list_elem_of_In.
Qed.

Lemma maxrects_placed_inside_bin_witness :
  forallb (inside_bin (Sheet.bounded 10 10 true))
    [at_pos 1 3 8 0 0 false; at_pos 0 6 6 3 0 false] = true.
Proof.
  apply (maxrects_placed_inside_bin 10 10 true
           (sprites_of [(6, 6); (3, 8)])
           [at_pos 1 3 8 0 0 false; at_pos 0 6 6 3 0 false] []
           (MaxRectsLayout.make []
              [Rect.make 10 2 0 8; Rect.make 7 4 3 6; Rect.make 1 10 9 0] 0)).
  vm_compute. reflexivity.
Defined.

Lemma intersects_sym (a b : Rect.t) : Rect.intersects a b = Rect.intersects b a.
Proof.
  unfold Rect.intersects.
  destruct (Rect.x a <? _), (Rect.x b <? _), (Rect.y a <? _), (Rect.y b <? _); reflexivity.
Qed.

Lemma pairwise_disjoint_snoc (placed : list Sprite.t) (a : Sprite.t) :
  pairwise_disjoint placed = true ->
  (forall p, p ∈ placed -> overlap p a = false) ->
  pairwise_disjoint (placed ++ [a]) = true.
Proof.
  induction placed as [|b rest IH]; intros Hd Ha; simpl; [done|].
  simpl in Hd. apply andb_true_split in Hd as [Hb Hrest].
  apply andb_true_split. split.
  - rewrite forallb_app, Hb. simpl. rewrite Ha; [done | by left].
  - apply IH; [done|]. intros p Hp. apply Ha. by right.
Qed.

(** X16: on a sheet that does not allow rotation, no two sprites that [add]
    places on a [MaxRectsLayout] overlap. *)
Lemma maxrects_disjoint_without_rotation (sheet : Sheet.t)
    (sprites placed remain : list Sprite.t) (st : MaxRectsLayout.state) :
  Sheet.rotate sheet = false ->
  MaxRectsLayout.add sheet sprites = Some (Ok (st, placed, remain)) ->
  pairwise_disjoint placed = true.
Proof.
  intros Hrot. unfold MaxRectsLayout.add, Layout.add.
  apply (add_loop_invariant (MaxRectsLayout.layout sheet)
           (fun s pl _ =>
              (forall f p, f ∈ MaxRectsLayout.free_rects s -> p ∈ pl ->
                 Rect.intersects f (Sprite.rect p) = false) /\
              pairwise_disjoint pl = true)
           (fun pl => pairwise_disjoint pl = true)).
  - by intros s pl _ [_ ?].
  - intros s pl rm s1 pl1 rm1 [Hfree Hdis] Ht.
    apply add_turn_again_inv in Ht as (i & pos & rot & spr & spr1 & Hbest & Hi & Hplace & -> & _).
    simpl in Hbest, Hi, Hplace.
    apply maxrects_get_best_pick in Hbest as (spr0 & sc & _ & Hcand & Hout & ->).
    rewrite Hout in Hi. injection Hi as <-.
    apply (candidate_without_rotation _ _ _ _ _ _ Hrot) in Hcand
      as (Hspr & f & Hf & -> & Hw & Hh).
    split.
    + by apply (place_keeps_free_off sheet s s1 _ spr1 _ _ pl Hplace).
    + apply pairwise_disjoint_snoc; [done|]. intros p Hp.
      apply maxrects_place_true in Hplace as (_ & -> & _).
      rewrite xorb_nilpotent. unfold overlap. apply not_true_iff_false. intros Hint.
      specialize (Hfree f p Hf Hp).
      apply not_true_iff_false in Hfree. apply Hfree.
      rewrite intersects_spec in Hint |- *.
      unfold moved, Sprite.set_x, Sprite.set_y, Rect.set_x, Rect.set_y,
        Sprite.w, Sprite.h in *. simpl in *. rewrite Hspr in Hint. lia.
  - split; [|done]. intros f p _ Hp. by apply not_elem_of_nil in Hp.
Qed.

Lemma maxrects_disjoint_without_rotation_witness :
  pairwise_disjoint [at_pos 0 6 6 0 0 false; at_pos 1 4 4 0 6 false] = true.
Proof.
  apply (maxrects_disjoint_without_rotation (Sheet.bounded 10 10 false)
           (sprites_of [(6, 6); (4, 4)])
           [at_pos 0 6 6 0 0 false; at_pos 1 4 4 0 6 false] []
           (MaxRectsLayout.make [] [Rect.make 4 10 6 0; Rect.make 6 4 4 6] 0)).
  - reflexivity.
  - vm_compute. reflexivity.
Defined.

(** ** Sprites that fit the empty bin *)

(** On the empty bin, [MaxRectsLayout.get_best] finds a place for a sprite
    that fits the bin as it is, or turned when rotation is allowed: the
    candidate has the size of the sprite as the call leaves it, lies at the
    origin and inside the bin. *)
Lemma maxrects_candidate_on_empty_bin (maxw maxh w h : Z) (rot : bool) (id : nat) :
  (w <= maxw /\ h <= maxh) \/ (rot = true /\ h <= maxw /\ w <= maxh) ->
  exists spr1 pos sc,
    MaxRectsLayout.candidate (Sheet.bounded maxw maxh rot)
      (MaxRectsLayout.clear (Sheet.bounded maxw maxh rot)) (Sprite.new id w h)
    = (spr1, Some (pos, sc)) /\
    Sprite.oid spr1 = id /\
    Rect.x pos = 0 /\ Rect.y pos = 0 /\
    Sprite.w spr1 = Rect.w pos /\ Sprite.h spr1 = Rect.h pos /\
    Rect.w pos <= maxw /\ Rect.h pos <= maxh /\
    ((Rect.w pos = w /\ Rect.h pos = h) \/ (rot = true /\ Rect.w pos = h /\ Rect.h pos = w)).
Proof.
  intros Hfit.
  unfold MaxRectsLayout.candidate, MaxRectsLayout.search, MaxRectsLayout.clear. simpl.
  destruct ((maxw >=? w) && (maxh >=? h)) eqn:E1; simpl.
  - destruct (rot && (maxh >=? w) && (maxw >=? h)) eqn:E2; simpl.
    + destruct ((Z.min (maxw - h) (maxh - w) <? Z.min (maxw - w) (maxh - h))
                || (Z.min (maxw - h) (maxh - w) =? Z.min (maxw - w) (maxh - h))
                   && (Z.max (maxw - h) (maxh - w) <? Z.max (maxw - w) (maxh - h))) eqn:E3;
        simpl.
      * assert (Hc : Sheet.in_bin maxw maxh (Rect.make h w 0 0) = true).
        { unfold Sheet.in_bin, Rect.right, Rect.bottom. simpl. zbool.
          rewrite !andb_true_iff, !Z.leb_le. lia. }
        rewrite Hc. simpl.
        assert (rot = true) as -> by (by destruct rot). simpl.
        eexists _, _, _. split; [reflexivity|]. zbool. simpl. repeat split; try lia; first [by left | by right].
      * assert (Hc : Sheet.in_bin maxw maxh (Rect.make w h 0 0) = true).
        { unfold Sheet.in_bin, Rect.right, Rect.bottom. simpl. zbool.
          rewrite !andb_true_iff, !Z.leb_le. lia. }
        rewrite Hc. simpl.
        eexists _, _, _. split; [reflexivity|]. zbool. simpl. repeat split; try lia; first [by left | by right].
    + assert (Hc : Sheet.in_bin maxw maxh (Rect.make w h 0 0) = true).
      { unfold Sheet.in_bin, Rect.right, Rect.bottom. simpl. zbool.
        rewrite !andb_true_iff, !Z.leb_le. lia. }
      rewrite Hc. simpl.
      eexists _, _, _. split; [reflexivity|]. zbool. simpl. repeat split; try lia; first [by left | by right].
  - destruct Hfit as [[Hw Hh]|(-> & Hh & Hw)].
    { apply andb_false_iff in E1 as [E1|E1]; zbool; lia. }
    simpl.
    assert (E2 : (maxh >=? w) && (maxw >=? h) = true).
    { rewrite !Z.geb_leb, andb_true_iff, !Z.leb_le. lia. }
    rewrite E2. simpl.
    assert (Hc : Sheet.in_bin maxw maxh (Rect.make h w 0 0) = true).
    { unfold Sheet.in_bin, Rect.right, Rect.bottom. simpl.
      rewrite !andb_true_iff, !Z.leb_le. lia. }
    rewrite Hc. simpl.
    eexists _, _, _. split; [reflexivity|]. simpl. repeat split; try lia; first [by left | by right].
Qed.

(** X20: a single sprite that fits the bin, as it is or turned when rotation is
    allowed, is placed by [MaxRectsLayout.add] at the origin, inside the bin;
    nothing is left in [remain]. *)
Lemma maxrects_places_what_fits (maxw maxh w h : Z) (rot : bool) (id : nat) :
  (w <= maxw /\ h <= maxh) \/ (rot = true /\ h <= maxw /\ w <= maxh) ->
  exists st p,
    MaxRectsLayout.add (Sheet.bounded maxw maxh rot) [Sprite.new id w h]
    = Some (Ok (st, [p], [])) /\
    Sprite.oid p = id /\ Sprite.x p = 0 /\ Sprite.y p = 0 /\
    inside_bin (Sheet.bounded maxw maxh rot) p = true /\
    ((Sprite.w p = w /\ Sprite.h p = h) \/ (rot = true /\ Sprite.w p = h /\ Sprite.h p = w)).
Proof.
  intros Hfit.
  destruct (maxrects_candidate_on_empty_bin maxw maxh w h rot id Hfit)
    as (spr1 & pos & sc & Hc & Hid & Hx & Hy & Hw & Hh & Hmw & Hmh & Hdims).
  unfold MaxRectsLayout.add, Layout.add. simpl.
  unfold MaxRectsLayout.get_best. simpl. rewrite Hc. simpl.
  assert (Hcheck : Sheet.in_bin maxw maxh (Sprite.rect (moved spr1 pos)) = true).
  { unfold Sheet.in_bin, Rect.right, Rect.bottom, moved, Sprite.set_x, Sprite.set_y,
      Rect.set_x, Rect.set_y, Sprite.w, Sprite.h in *. simpl.
    rewrite !andb_true_iff, !Z.leb_le. lia. }
  unfold MaxRectsLayout.place.
  unfold moved in Hcheck |- *. simpl in Hcheck |- *.
  rewrite Hcheck, xorb_nilpotent. simpl.
  eexists _, _. split; [reflexivity|].
  unfold inside_bin. simpl. rewrite Hcheck.
  unfold Sprite.set_x, Sprite.set_y, Rect.set_x, Rect.set_y,
    Sprite.w, Sprite.h, Sprite.x, Sprite.y in *. simpl.
  repeat split; try done. destruct Hdims as [[? ?]|(? & ? & ?)]; [left|right]; repeat split; first [done | lia].
Qed.

Lemma maxrects_places_what_fits_witness :
  exists st p,
    MaxRectsLayout.add (Sheet.bounded 10 4 true) [Sprite.new 0 4 10]
    = Some (Ok (st, [p], [])) /\
    Sprite.oid p = 0%nat /\ Sprite.x p = 0 /\ Sprite.y p = 0 /\
    inside_bin (Sheet.bounded 10 4 true) p = true /\
    ((Sprite.w p = 4 /\ Sprite.h p = 10) \/ (true = true /\ Sprite.w p = 10 /\ Sprite.h p = 4)).
Proof.
  apply (maxrects_places_what_fits 10 4 4 10 true 0).
  right. split; [reflexivity | lia].
Defined.

(** ** Runs of the driver on [ShelfLayout] without rotation *)

Section ShelfWithoutRotation.
Variable sheet : Sheet.t.
Hypothesis Hrot : Sheet.rotate sheet = false.

(** The loop over the shelves leaves the sprite as it is, and a shelf it
    chooses is a shelf of the list on which the sprite fits. *)
Lemma shelf_scan_without_rotation (shelves : list ShelfLayout.Shelf.t) :
  forall k spr best,
    exists b,
      ShelfLayout.scan sheet k shelves spr best = (spr, b) /\
      (b = best \/
       exists j sh sc,
         b = Some (ShelfLayout.Existing (k + j), sc) /\ shelves !! j = Some sh /\
         ShelfLayout.Shelf.size sh + Sprite.w spr <= (Sheet.size sheet).1 /\
         Sprite.h spr <= ShelfLayout.Shelf.max sh).
Proof.
  induction shelves as [|sh rest IH]; intros k spr best; simpl.
  - exists best. split; [done | by left].
  - rewrite Hrot. simpl.
    match goal with |- context [ShelfLayout.scan sheet (S k) rest spr ?b1] =>
      destruct (IH (S k) spr b1) as (b & -> & Hb) end.
    exists b. split; [done|].
    destruct Hb as [->|(j & sh' & sc & -> & Hj & Hfit)].
    + destruct (_ && _) eqn:Hfit; [|by left].
      destruct (ShelfLayout.improves _ best); [|by left].
      right. exists 0%nat, sh. eexists. rewrite Nat.add_0_r. zbool. done.
    + right. exists (S j), sh', sc. split; [|done]. do 3 f_equal. lia.
Qed.

Lemma shelf_candidate_without_rotation (st : ShelfLayout.state) (spr : Sprite.t) :
  (ShelfLayout.candidate sheet st spr).1 = spr /\
  forall shelf sc,
    (ShelfLayout.candidate sheet st spr).2 = Some (shelf, sc) ->
    Sprite.w spr <= (Sheet.size sheet).1 /\ Sprite.h spr <= (Sheet.size sheet).2 /\
    ((exists k sh, shelf = ShelfLayout.Existing k /\
        ShelfLayout.shelves st !! k = Some sh /\
        ShelfLayout.Shelf.size sh + Sprite.w spr <= (Sheet.size sheet).1 /\
        Sprite.h spr <= ShelfLayout.Shelf.max sh) \/
     (shelf = ShelfLayout.Fresh (ShelfLayout.Shelf.new (ShelfLayout.size st)) /\
      (ShelfLayout.shelves st = [] \/
       ShelfLayout.size st + Sprite.h spr <= (Sheet.size sheet).2))).
Proof.
  unfold ShelfLayout.candidate.
  destruct (_ || _) eqn:Hbig; [by split|].
  destruct (shelf_scan_without_rotation (ShelfLayout.shelves st) 0 spr None)
    as (b & -> & Hb).
  rewrite Hrot. simpl. zbool.
  destruct Hb as [->|(j & sh & sc & -> & Hj & Hfit)].
  - destruct (negb _ && _) eqn:Hfull; simpl; [by split|].
    split; [done|]. intros shelf sc [= <- <-].
    split; [lia|]. split; [lia|]. right. split; [done|].
    apply andb_false_iff in Hfull as [Hfull|Hfull].
    + left. apply negb_false_iff, bool_decide_eq_true in Hfull. done.
    + right. zbool. lia.
  - simpl. split; [done|]. intros shelf sc' [= <- <-].
    split; [lia|]. split; [lia|]. left. by exists j, sh.
Qed.

Lemma shelf_get_best_from_pick (st : ShelfLayout.state) (sprites : list Sprite.t) :
  forall i best score,
    (ShelfLayout.get_best_from sheet st i sprites best score).1 = sprites /\
    forall j shelf rot,
      (ShelfLayout.get_best_from sheet st i sprites best score).2 = Some (j, shelf, rot) ->
      best = Some (j, shelf, rot) \/
      exists spr sc,
        (i <= j)%nat /\ sprites !! (j - i)%nat = Some spr /\
        (ShelfLayout.candidate sheet st spr).2 = Some (shelf, sc) /\
        rot = Sprite.rotated spr.
Proof.
  induction sprites as [|spr rest IH]; intros i best score; simpl.
  - split; [done|]. intros j shelf rot. by left.
  - destruct (shelf_candidate_without_rotation st spr) as [Hspr _].
    destruct (ShelfLayout.candidate sheet st spr) as [spr1 cand] eqn:Hc.
    simpl in Hspr. subst spr1.
    set (upd := match cand with
                | Some (shelf, sc) =>
                    if match score with None => true | Some b => sc <? b end
                    then (Some (i, shelf, Sprite.rotated spr), Some sc) else (best, score)
                | None => (best, score)
                end).
    destruct upd as [best1 score1] eqn:Hupd.
    destruct (IH (S i) best1 score1) as [Hout Hpick].
    destruct (ShelfLayout.get_best_from sheet st (S i) rest best1 score1) as [rest1 res].
    simpl in *. split; [by rewrite Hout|].
    intros j shelf rot Hres.
    destruct (Hpick j shelf rot Hres) as [Hb|(spr' & sc & Hle & Hl & Hcand & Hr)].
    + subst upd. destruct cand as [[p s]|]; [|left; congruence].
      destruct (match score with None => true | Some b => s <? b end); [|left; congruence].
      injection Hupd as <- <-. injection Hb as <- <- <-.
      right. exists spr, s. rewrite Nat.sub_diag, Hc. done.
    + right. exists spr', sc. split; [lia|].
      replace (j - i)%nat with (S (j - S i)) by lia. done.
Qed.

End ShelfWithoutRotation.

(** Two sprites of which one ends where the other begins, along one of the
    axes, do not overlap. *)
Lemma overlap_left_of (p q : Sprite.t) :
  Sprite.x p + Sprite.w p <= Sprite.x q -> overlap p q = false.
Proof.
  intros H. apply not_true_iff_false. unfold overlap. rewrite intersects_spec.
  unfold Sprite.x, Sprite.w in H. lia.
Qed.

Lemma overlap_above (p q : Sprite.t) :
  Sprite.y p + Sprite.h p <= Sprite.y q -> overlap p q = false.
Proof.
  intros H. apply not_true_iff_false. unfold overlap. rewrite intersects_spec.
  unfold Sprite.y, Sprite.h in H. lia.
Qed.

Lemma overlap_below (p q : Sprite.t) :
  Sprite.y q + Sprite.h q <= Sprite.y p -> overlap p q = false.
Proof.
  intros H. apply not_true_iff_false. unfold overlap. rewrite intersects_spec.
  unfold Sprite.y, Sprite.h in H. lia.
Qed.

Section ShelfTurns.
Variable sheet : Sheet.t.
Hypothesis Hrot : Sheet.rotate sheet = false.

(** A placing turn of the driver keeps the shelves in order. *)
Lemma shelf_turn_keeps_inv (st st1 : ShelfLayout.state)
    (placed remain placed1 remain1 : list Sprite.t) :
  shelf_inv sheet st placed remain ->
  Layout.add_turn (L := ShelfLayout.layout sheet) st placed remain
  = Layout.Again st1 placed1 remain1 ->
  shelf_inv sheet st1 placed1 remain1.
Proof.
  intros [Hrem Hsize Hempty Hheight Hshelf Horder Hplaced Hdis] Ht.
  apply add_turn_again_inv in Ht
    as (i & shelf & rot & spr & spr1 & Hbest & Hi & Hplace & -> & Hrem1).
  simpl in Hbest, Hi, Hplace, Hrem1. unfold ShelfLayout.get_best in *.
  destruct (shelf_get_best_from_pick sheet Hrot st remain 0 None None) as [Hout Hpick].
  rewrite Hout in Hi, Hrem1. subst remain1.
  apply Hpick in Hbest as [|(spr' & sc & _ & Hl & Hcand & ->)]; [done|].
  rewrite Nat.sub_0_r, Hi in Hl. injection Hl as <-.
  apply (proj2 (shelf_candidate_without_rotation sheet Hrot st spr)) in Hcand
    as (Hw & Hh & Hfit).
  assert (Hwf : well_formed spr).
  { rewrite Forall_forall in Hrem. apply Hrem. apply list_elem_of_lookup. eauto. }
  destruct Hwf as [Hpw Hph].
  unfold ShelfLayout.place in Hplace. rewrite xorb_nilpotent in Hplace.
  destruct Hfit as [(k & sh & -> & Hk & Hfw & Hfh)|(-> & Hroom)].
  - (* on a shelf of the list *)
    rewrite Hk in Hplace. unfold ShelfLayout.Shelf.place in Hplace.
    injection Hplace as <- <-.
    destruct (Hshelf k sh Hk) as (Hs0 & Hs1 & Hs2).
    assert (Hmax : (if ShelfLayout.Shelf.max sh <?
                       Sprite.h (Sprite.set_y (Sprite.set_x spr (ShelfLayout.Shelf.size sh))
                                   (ShelfLayout.Shelf.start sh))
                    then Sprite.h (Sprite.set_y (Sprite.set_x spr (ShelfLayout.Shelf.size sh))
                                     (ShelfLayout.Shelf.start sh))
                    else ShelfLayout.Shelf.max sh) = ShelfLayout.Shelf.max sh).
    { destruct (_ <? _) eqn:E; [|done]. zbool.
      unfold Sprite.h, Sprite.set_x, Sprite.set_y in *. simpl in *. lia. }
    rewrite Hmax. simpl.
    rewrite (Z.max_l (ShelfLayout.size st)) by lia.
    set (spr1 := Sprite.set_y (Sprite.set_x spr (ShelfLayout.Shelf.size sh))
                   (ShelfLayout.Shelf.start sh)).
    set (sh1 := ShelfLayout.Shelf.make _ _ _ _).
    assert (Hlook : forall k' sh', <[k := sh1]> (ShelfLayout.shelves st) !! k' = Some sh' ->
              (k' = k /\ sh' = sh1) \/ (k' <> k /\ ShelfLayout.shelves st !! k' = Some sh')).
    { intros k' sh' H. destruct (decide (k' = k)) as [->|Hne].
      - left. rewrite list_lookup_insert_eq in H by (by eapply lookup_lt_Some). by injection H.
      - right. by rewrite list_lookup_insert_ne in H. }
    assert (Hgeom : ShelfLayout.Shelf.start sh1 = ShelfLayout.Shelf.start sh /\
                    ShelfLayout.Shelf.max sh1 = ShelfLayout.Shelf.max sh /\
                    ShelfLayout.Shelf.size sh1 = ShelfLayout.Shelf.size sh + Sprite.w spr /\
                    Sprite.x spr1 = ShelfLayout.Shelf.size sh /\
                    Sprite.y spr1 = ShelfLayout.Shelf.start sh /\
                    Sprite.w spr1 = Sprite.w spr /\ Sprite.h spr1 = Sprite.h spr).
    { by repeat split. }
    destruct Hgeom as (G1 & G2 & G3 & G4 & G5 & G6 & G7).
    clearbody spr1 sh1.
    constructor; simpl.
    + by apply Forall_delete.
    + done.
    + intros E. apply (f_equal length) in E. rewrite length_insert in E.
      apply Hempty. by apply nil_length_inv.
    + intros _. apply Hheight. intros E. by rewrite E in Hk.
    + intros k' sh' H. apply Hlook in H as [[-> ->]|[Hne H]].
      * rewrite G1, G2, G3. lia.
      * by apply Hshelf in H.
    + intros k1 k2 sh' sh'' Hlt H1 H2.
      apply Hlook in H1 as [[-> ->]|[Hn1 H1]]; apply Hlook in H2 as [[-> ->]|[Hn2 H2]].
      * lia.
      * rewrite G1, G2. by apply (Horder k k2).
      * rewrite G1. by apply (Horder k1 k).
      * by apply (Horder k1 k2).
    + intros p Hp. apply elem_of_app in Hp as [Hp|Hp].
      * destruct (Hplaced p Hp) as (Hwfp & k' & sh' & Hk' & Hon). split; [done|].
        destruct (decide (k' = k)) as [->|Hne].
        -- exists k, sh1. rewrite list_lookup_insert_eq by (by eapply lookup_lt_Some).
           split; [done|]. rewrite Hk in Hk'. injection Hk' as <-.
           destruct Hon as (? & ? & ? & ?). unfold on_shelf. rewrite G1, G2, G3. lia.
        -- exists k', sh'. by rewrite list_lookup_insert_ne.
      * apply list_elem_of_singleton in Hp as ->. split.
        -- unfold well_formed. rewrite G6, G7. done.
        -- exists k, sh1. rewrite list_lookup_insert_eq by (by eapply lookup_lt_Some).
           split; [done|]. unfold on_shelf. rewrite G1, G2, G3, G4, G5, G6, G7. lia.
    + apply pairwise_disjoint_snoc; [done|]. intros p Hp.
      destruct (Hplaced p Hp) as ([Hpw' Hph'] & k' & sh' & Hk' & Hy & Hh' & Hx & Hxw).
      destruct (Nat.lt_total k' k) as [Hlt|[->|Hgt]].
      * apply overlap_above. rewrite G5. pose proof (Horder k' k sh' sh Hlt Hk' Hk). lia.
      * rewrite Hk in Hk'. injection Hk' as <-. apply overlap_left_of. rewrite G4. lia.
      * apply overlap_below. rewrite G5, G7.
        pose proof (Horder k k' sh sh' Hgt Hk Hk'). lia.
  - (* on a new shelf *)
    unfold ShelfLayout.Shelf.place, ShelfLayout.Shelf.new in Hplace. simpl in Hplace.
    injection Hplace as <- <-.
    assert (Hmax : (if 0 <? Sprite.h (Sprite.set_y (Sprite.set_x spr 0) (ShelfLayout.size st))
                    then Sprite.h (Sprite.set_y (Sprite.set_x spr 0) (ShelfLayout.size st))
                    else 0) = Sprite.h spr).
    { destruct (_ <? _) eqn:E; [done|]. zbool.
      unfold Sprite.h, Sprite.set_x, Sprite.set_y in *. simpl in *. lia. }
    rewrite Hmax. simpl.
    rewrite (Z.max_r (ShelfLayout.size st)) by lia.
    set (spr1 := Sprite.set_y (Sprite.set_x spr 0) (ShelfLayout.size st)).
    set (sh1 := ShelfLayout.Shelf.make _ _ _ _).
    assert (Hgeom : ShelfLayout.Shelf.start sh1 = ShelfLayout.size st /\
                    ShelfLayout.Shelf.max sh1 = Sprite.h spr /\
                    ShelfLayout.Shelf.size sh1 = Sprite.w spr /\
                    Sprite.x spr1 = 0 /\
                    Sprite.y spr1 = ShelfLayout.size st /\
                    Sprite.w spr1 = Sprite.w spr /\ Sprite.h spr1 = Sprite.h spr).
    { by repeat split. }
    destruct Hgeom as (G1 & G2 & G3 & G4 & G5 & G6 & G7).
    clearbody spr1 sh1.
    assert (Hlook : forall k' sh', (ShelfLayout.shelves st ++ [sh1]) !! k' = Some sh' ->
              (k' = length (ShelfLayout.shelves st) /\ sh' = sh1) \/
              ((k' < length (ShelfLayout.shelves st))%nat /\
               ShelfLayout.shelves st !! k' = Some sh')).
    { intros k' sh' H. apply lookup_app_Some in H as [H|[Hge H]].
      - right. split; [by eapply lookup_lt_Some | done].
      - left. apply list_lookup_singleton_Some in H as [? ->]. split; [lia | done]. }
    constructor; simpl.
    + by apply Forall_delete.
    + lia.
    + intros E. symmetry in E. by apply app_cons_not_nil in E.
    + intros _. destruct Hroom as [E|]; [|lia]. rewrite (Hempty E). lia.
    + intros k' sh' H. apply Hlook in H as [[-> ->]|[Hlt H]].
      * rewrite G1, G2, G3. lia.
      * apply Hshelf in H. lia.
    + intros k1 k2 sh' sh'' Hlt H1 H2.
      apply Hlook in H1 as [[-> ->]|[Hl1 H1]]; apply Hlook in H2 as [[-> ->]|[Hl2 H2]].
      * lia.
      * lia.
      * rewrite G1. apply Hshelf in H1. lia.
      * by apply (Horder k1 k2).
    + intros p Hp. apply elem_of_app in Hp as [Hp|Hp].
      * destruct (Hplaced p Hp) as (Hwfp & k' & sh' & Hk' & Hon). split; [done|].
        exists k', sh'. split; [|done]. by apply lookup_app_l_Some.
      * apply list_elem_of_singleton in Hp as ->. split.
        -- unfold well_formed. rewrite G6, G7. done.
        -- exists (length (ShelfLayout.shelves st)), sh1.
           split; [by apply list_lookup_middle|].
           unfold on_shelf. rewrite G1, G2, G3, G4, G5, G6, G7. lia.
    + apply pairwise_disjoint_snoc; [done|]. intros p Hp.
      destruct (Hplaced p Hp) as ([Hpw' Hph'] & k' & sh' & Hk' & Hy & Hh' & Hx & Hxw).
      apply overlap_above. rewrite G5. apply Hshelf in Hk'. lia.
Qed.

End ShelfTurns.

(** X18: on a sheet that does not allow rotation, the sprites of positive size
    that [add] places on a [ShelfLayout] lie inside the bin, and no two of
    them overlap. *)
Lemma shelf_run_without_rotation (sheet : Sheet.t) (sprites placed remain : list Sprite.t)
    (st : ShelfLayout.state) :
  Sheet.rotate sheet = false ->
  Forall well_formed sprites ->
  ShelfLayout.add sheet sprites = Some (Ok (st, placed, remain)) ->
  pairwise_disjoint placed = true /\ forallb (inside_bin sheet) placed = true.
Proof.
  intros Hrot Hwf. unfold ShelfLayout.add, Layout.add.
  apply (add_loop_invariant (ShelfLayout.layout sheet) (shelf_inv sheet)
           (fun pl => pairwise_disjoint pl = true /\ forallb (inside_bin sheet) pl = true)).
  - intros s pl rm [_ Hsize Hempty Hheight Hshelf _ Hplaced Hdis]. split; [done|].
    apply forallb_forall. intros p Hp. apply list_elem_of_In in Hp.
    destruct (Hplaced p Hp) as ([Hpw Hph] & k & sh & Hk & Hy & Hh & Hx & Hxw).
    destruct (Hshelf k sh Hk) as (Hs0 & Hs1 & Hs2).
    assert (Hne : ShelfLayout.shelves s <> []) by (intros E; by rewrite E in Hk).
    specialize (Hheight Hne).
    unfold inside_bin, Sheet.in_bin, Rect.right, Rect.bottom.
    unfold Sprite.x, Sprite.y, Sprite.w, Sprite.h in *.
    rewrite !andb_true_iff, !Z.leb_le. lia.
  - intros s pl rm s1 pl1 rm1. by apply shelf_turn_keeps_inv.
  - constructor; simpl; try done.
    intros p Hp. by apply not_elem_of_nil in Hp.
Qed.

Lemma shelf_run_without_rotation_witness :
  pairwise_disjoint [at_pos 0 6 6 0 0 false; at_pos 1 4 4 6 0 false] = true /\
  forallb (inside_bin (Sheet.bounded 10 10 false))
    [at_pos 0 6 6 0 0 false; at_pos 1 4 4 6 0 false] = true.
Proof.
  apply (shelf_run_without_rotation (Sheet.bounded 10 10 false)
           (sprites_of [(6, 6); (4, 4)])
           [at_pos 0 6 6 0 0 false; at_pos 1 4 4 6 0 false] []
           (ShelfLayout.make 6
              [ShelfLayout.Shelf.make 0 10 6
                 [at_pos 0 6 6 0 0 false; at_pos 1 4 4 6 0 false]])).
  - reflexivity.
  - repeat constructor.
  - vm_compute. reflexivity.
Defined.

(** * Further properties *)

(** ** The prune *)

Lemma enumerate_values {A : Type} (l : list A) : (MaxRectsLayout.enumerate l).*2 = l.
Proof.
  unfold MaxRectsLayout.enumerate. rewrite fmap_imap.
  induction l as [|a l IH] using rev_ind; [done|].
  rewrite imap_app, IH. simpl. done.
Qed.

Lemma filter_all {A : Type} (P : A -> Prop) `{forall a, Decision (P a)} (l : list A) :
  Forall P l -> filter P l = l.
Proof.
  induction 1 as [|a l Ha Hl IH]; [done|].
  rewrite filter_cons_True by done. by rewrite IH.
Qed.

(** The prune changes nothing in a list where no node is contained in a
    node at another position. *)
Lemma prune_undominated_id (nodes : list Rect.t) :
  undominated nodes -> MaxRectsLayout.prune nodes = nodes.
Proof.
  intros Hund. unfold MaxRectsLayout.prune.
  rewrite filter_all; [apply enumerate_values|].
  apply Forall_forall. intros [j f] Hin. apply elem_of_enumerate in Hin.
  apply dominated_false. intros i g Hi Hij. by apply (Hund i j).
Qed.

(** X1: pruning twice is pruning once, on every list of free nodes. *)
Theorem prune_idempotent (nodes : list Rect.t) :
  MaxRectsLayout.prune (MaxRectsLayout.prune nodes) = MaxRectsLayout.prune nodes.
Proof. apply prune_undominated_id, prune_undominated. Qed.

(** ** The free list and the bin *)

Lemma new_node_in_bin (maxw maxh : Z) (rect free s : Rect.t) :
  s ∈ new_nodes rect free ->
  Sheet.in_bin maxw maxh free = true -> Sheet.in_bin maxw maxh s = true.
Proof.
  intros Hs. unfold Sheet.in_bin. rewrite !andb_true_iff, !Z.leb_le.
  open_nodes. destruct Hs as [[-> ?]|[[-> ?]|[[-> ?]|[-> ?]]]]; simpl; lia.
Qed.

Lemma run_free_rects_in_bin (sheet : Sheet.t) (st : MaxRectsLayout.state)
    (hist : list Sprite.t) :
  maxrects_run sheet st hist ->
  forall f, f ∈ MaxRectsLayout.free_rects st ->
    Sheet.in_bin (Sheet.size sheet).1 (Sheet.size sheet).2 f = true.
Proof.
  induction 1 as [|st hist sprite position rotate st1 sprite1 Hrun IH Hplace]; intros f Hf.
  - unfold MaxRectsLayout.clear in Hf. destruct (Sheet.size sheet) as [w h]. simpl in *.
    apply list_elem_of_singleton in Hf as ->.
    unfold Sheet.in_bin, Rect.right, Rect.bottom. simpl.
    rewrite !andb_true_iff, !Z.leb_le. lia.
  - apply maxrects_place_true in Hplace as (_ & _ & ->). simpl in Hf.
    apply prune_subset, elem_of_split_free_nodes in Hf as [[Hf _]|(g & Hg & _ & Hf)].
    + by apply IH.
    + eapply new_node_in_bin; [done|]. by apply IH.
Qed.

(** X2: every free rect of a [MaxRectsLayout] lies inside the bin, after
    [clear] and after every successful [place]. *)
Theorem free_rects_inside_bin (sheet : Sheet.t) (st : MaxRectsLayout.state)
    (hist : list Sprite.t) :
  maxrects_run sheet st hist ->
  forall f, f ∈ MaxRectsLayout.free_rects st ->
    Sheet.in_bin (Sheet.size sheet).1 (Sheet.size sheet).2 f = true.
Proof. apply run_free_rects_in_bin. Qed.

Lemma free_rects_inside_bin_witness :
  Sheet.in_bin 10 10 (Rect.make 5 10 5 0) = true.
Proof.
  apply (free_rects_inside_bin (Sheet.bounded 10 10 false)
           (MaxRectsLayout.make [] [Rect.make 10 5 0 5; Rect.make 5 10 5 0] 0)
           ([] ++ [at_pos 0 5 5 0 0 false])).
  - apply (run_place (Sheet.bounded 10 10 false)
             (MaxRectsLayout.clear (Sheet.bounded 10 10 false)) []
             (Sprite.new 0 5 5) (Rect.make 5 5 0 0) false).
    + apply run_clear.
    + vm_compute. reflexivity.
  - simpl. repeat constructor.
Defined.

(** ** The free list covers what is not placed *)

Section NodeMembership.
Variables rect free : Rect.t.
Hypothesis Hint : Rect.intersects free rect = true.

(** Solves the membership of a node in the list that [split] makes, case by
    case on the tests of [split]. *)
Ltac node_elem :=
  unfold new_nodes, MaxRectsLayout.split;
  apply intersects_spec in Hint;
  destruct (_ || _ || _ || _) eqn:Hout;
    [repeat (apply orb_prop in Hout as [Hout|Hout]); zbool; lia|];
  simpl;
  repeat match goal with |- context [if ?c then _ else _] =>
    let E := fresh "E" in destruct c eqn:E end;
  simpl; zbool;
  first [ solve [apply list_elem_of_In; simpl; auto 10]
        | repeat match goal with
                 | H : _ && _ = false |- _ => apply andb_false_iff in H as [H|H]
                 end; zbool; lia ].

Lemma top_node_elem :
  Rect.y free < Rect.y rect -> top_node rect free ∈ new_nodes rect free.
Proof. intros H. unfold top_node. node_elem. Qed.

Lemma bottom_node_elem :
  Rect.bottom rect < Rect.bottom free -> bottom_node rect free ∈ new_nodes rect free.
Proof. intros H. unfold bottom_node, Rect.bottom in *. node_elem. Qed.

Lemma left_node_elem :
  Rect.x free < Rect.x rect -> left_node rect free ∈ new_nodes rect free.
Proof. intros H. unfold left_node. node_elem. Qed.

Lemma right_node_elem :
  Rect.right rect < Rect.right free -> right_node rect free ∈ new_nodes rect free.
Proof. intros H. unfold right_node, Rect.right in *. node_elem. Qed.

(** The new nodes of a free node cover each of its cells that the rect does
    not cover. *)
Lemma new_nodes_cover (px py : Z) :
  cell_in free px py -> ~ cell_in rect px py ->
  exists s, s ∈ new_nodes rect free /\ cell_in s px py.
Proof.
  intros Hf Hr. pose proof Hint as Hi. apply intersects_spec in Hi.
  unfold cell_in in *.
  destruct (Z_lt_le_dec py (Rect.y rect)) as [Hy|Hy].
  { exists (top_node rect free). split; [apply top_node_elem; lia|].
    unfold top_node, Rect.set_h. simpl. lia. }
  destruct (Z_lt_le_dec py (Rect.y rect + Rect.h rect)) as [Hy'|Hy'].
  2:{ exists (bottom_node rect free). split; [apply bottom_node_elem; unfold Rect.bottom; lia|].
      unfold bottom_node, Rect.set_h, Rect.set_y. simpl. lia. }
  destruct (Z_lt_le_dec px (Rect.x rect)) as [Hx|Hx].
  { exists (left_node rect free). split; [apply left_node_elem; lia|].
    unfold left_node, Rect.set_w. simpl. lia. }
  exists (right_node rect free). split; [apply right_node_elem; unfold Rect.right; lia|].
  unfold right_node, Rect.set_w, Rect.set_x. simpl. lia.
Qed.

End NodeMembership.

Lemma contains_cell (t s : Rect.t) (px py : Z) :
  Rect.contains t s = true -> cell_in s px py -> cell_in t px py.
Proof. rewrite contains_spec. unfold cell_in. lia. Qed.

Lemma contains_trans (a b c : Rect.t) :
  Rect.contains a b = true -> Rect.contains b c = true -> Rect.contains a c = true.
Proof. rewrite !contains_spec. lia. Qed.

(** A positive rect that contains another positive rect is that rect or has
    a larger area. *)
Lemma contains_area (t s : Rect.t) :
  positive t -> positive s -> Rect.contains t s = true ->
  t = s \/ Rect.area s < Rect.area t.
Proof.
  intros [Htw Hth] [Hsw Hsh]. rewrite contains_spec. intros Hc.
  unfold Rect.area. destruct t as [tw th tx ty], s as [sw sh sx sy]. simpl in *.
  destruct (decide (sw = tw)) as [->|Hw]; [destruct (decide (sh = th)) as [->|Hh]|].
  - left. f_equal; lia.
  - right. apply Z.mul_lt_mono_pos_l; lia.
  - right. apply Z.lt_le_trans with (tw * sh).
    + apply Z.mul_lt_mono_pos_r; lia.
    + apply Z.mul_le_mono_nonneg_l; lia.
Qed.

Lemma area_bound (nodes : list Rect.t) :
  exists bound, forall f, f ∈ nodes -> Rect.area f <= bound.
Proof.
  induction nodes as [|g nodes [b Hb]].
  - exists 0. intros f Hf. by apply not_elem_of_nil in Hf.
  - exists (Z.max (Rect.area g) b). intros f Hf.
    apply elem_of_cons in Hf as [->|Hf]; [lia|]. specialize (Hb f Hf). lia.
Qed.

(** In a list of positive rects that holds no rect twice, every node is
    contained in a node that the prune keeps. *)
Lemma prune_keeps_a_container (nodes : list Rect.t) :
  Forall positive nodes -> NoDup nodes ->
  forall s, s ∈ nodes ->
    exists t, t ∈ MaxRectsLayout.prune nodes /\ Rect.contains t s = true.
Proof.
  intros Hpos Hnd. destruct (area_bound nodes) as [bound Hbound].
  rewrite Forall_forall in Hpos.
  assert (H : forall n : nat, forall s, s ∈ nodes -> bound - Rect.area s < Z.of_nat n ->
            exists t, t ∈ MaxRectsLayout.prune nodes /\ Rect.contains t s = true).
  { induction n as [|n IH]; intros s Hs Hn.
    - specialize (Hbound s Hs). lia.
    - pose proof Hs as Hs'. apply list_elem_of_lookup in Hs' as [j Hj].
      destruct (MaxRectsLayout.dominated nodes (j, s)) eqn:Hd.
      + apply dominated_true in Hd as (i & g & Hi & Hij & Hc).
        assert (Hg : g ∈ nodes) by (apply list_elem_of_lookup; eauto).
        destruct (contains_area g s (Hpos g Hg) (Hpos s Hs) Hc) as [->|Harea].
        { exfalso. apply Hij. by apply (NoDup_lookup nodes i j s). }
        destruct (IH g Hg ltac:(lia)) as (t & Ht & Htg).
        exists t. split; [done|]. by apply (contains_trans t g s).
      + exists s. split.
        * apply elem_of_prune. exists j. split; [done|]. by apply dominated_false.
        * destruct (Hpos s Hs). apply contains_refl; lia. }
  intros s Hs. apply (H (Z.to_nat (bound - Rect.area s + 1)) s Hs).
  specialize (Hbound s Hs). lia.
Qed.

(** X3: on a sheet of positive size, after [clear] and after every
    successful [place], every cell of the bin lies in a sprite placed since
    [clear] or in a free rect: [place] loses no free space. *)
Theorem free_rects_cover_bin (sheet : Sheet.t) (st : MaxRectsLayout.state)
    (hist : list Sprite.t) :
  0 < (Sheet.size sheet).1 -> 0 < (Sheet.size sheet).2 ->
  maxrects_run sheet st hist ->
  forall px py, 0 <= px < (Sheet.size sheet).1 -> 0 <= py < (Sheet.size sheet).2 ->
    (exists p, p ∈ hist /\ cell_in (Sprite.rect p) px py) \/
    (exists f, f ∈ MaxRectsLayout.free_rects st /\ cell_in f px py).
Proof.
  intros Hw Hh Hrun px py Hpx Hpy.
  induction Hrun as [|st hist sprite position rotate st1 sprite1 Hrun IH Hplace].
  - right. unfold MaxRectsLayout.clear. destruct (Sheet.size sheet) as [w h]. simpl in *.
    exists (Rect.make w h 0 0). split; [by left|]. unfold cell_in. simpl. lia.
  - destruct (run_free_rects sheet st hist Hw Hh Hrun) as [Hpos Hund].
    pose proof (split_free_nodes_NoDup (Sprite.rect sprite1) _ Hpos Hund) as Hnd.
    pose proof (split_free_nodes_positive (Sprite.rect sprite1) _ Hpos) as Hpos1.
    apply maxrects_place_true in Hplace as (_ & _ & ->). simpl.
    destruct IH as [(p & Hp & Hc)|(f & Hf & Hc)].
    { left. exists p. split; [apply elem_of_app; by left | done]. }
    assert (Hcov : (cell_in (Sprite.rect sprite1) px py) \/
                   exists s, s ∈ MaxRectsLayout.split_free_nodes (Sprite.rect sprite1)
                                   (MaxRectsLayout.free_rects st) /\ cell_in s px py).
    { destruct (Rect.intersects f (Sprite.rect sprite1)) eqn:Hint.
      - destruct (decide (cell_in (Sprite.rect sprite1) px py)) as [|Hn]; [by left|].
        right. destruct (new_nodes_cover _ _ Hint px py Hc Hn) as (s & Hs & Hcs).
        exists s. split; [|done]. apply elem_of_split_free_nodes. right. by exists f.
      - right. exists f. split; [|done]. apply elem_of_split_free_nodes. by left. }
    destruct Hcov as [Hc1|(s & Hs & Hcs)].
    + left. exists sprite1. split; [apply elem_of_app; right; by left | done].
    + right. destruct (prune_keeps_a_container _ Hpos1 Hnd s Hs) as (t & Ht & Hts).
      exists t. split; [done|]. by apply (contains_cell t s).
Qed.

Lemma free_rects_cover_bin_witness :
  (exists p, p ∈ [] ++ [at_pos 0 5 5 0 0 false] /\ cell_in (Sprite.rect p) 7 7) \/
  (exists f, f ∈ [Rect.make 10 5 0 5; Rect.make 5 10 5 0] /\ cell_in f 7 7).
Proof.
  apply (free_rects_cover_bin (Sheet.bounded 10 10 false)
           (MaxRectsLayout.make [] [Rect.make 10 5 0 5; Rect.make 5 10 5 0] 0)
           ([] ++ [at_pos 0 5 5 0 0 false])); simpl; try lia.
  apply (run_place (Sheet.bounded 10 10 false)
           (MaxRectsLayout.clear (Sheet.bounded 10 10 false)) []
           (Sprite.new 0 5 5) (Rect.make 5 5 0 0) false).
  - apply run_clear.
  - vm_compute. reflexivity.
Defined.

(** ** Best short side fit *)

Lemma lex_le_refl (a : Z * Z) : lex_le a a.
Proof. unfold lex_le. lia. Qed.

Lemma lex_le_trans (a b c : Z * Z) : lex_le a b -> lex_le b c -> lex_le a c.
Proof. unfold lex_le. lia. Qed.

Lemma beats_true (ssf lsf : Z) (best : option (Rect.t * Z * Z)) :
  MaxRectsLayout.beats ssf lsf best = true ->
  forall p b l, best = Some (p, b, l) -> lex_le (ssf, lsf) (b, l).
Proof.
  intros H p b l ->. simpl in H. unfold lex_le. simpl.
  apply orb_prop in H as [H|H]; zbool; lia.
Qed.

Lemma beats_false (ssf lsf : Z) (best : option (Rect.t * Z * Z)) :
  MaxRectsLayout.beats ssf lsf best = false ->
  exists p b l, best = Some (p, b, l) /\ lex_le (b, l) (ssf, lsf).
Proof.
  destruct best as [[[p b] l]|]; [|discriminate]. simpl. intros H.
  exists p, b, l. split; [done|]. unfold lex_le. simpl.
  apply orb_false_elim in H as [H1 H2]. zbool.
  apply andb_false_iff in H2 as [H2|H2]; zbool; lia.
Qed.

Section SearchFacts.
Variables (sheet : Sheet.t) (rect : Rect.t).

(** The result is at least as good as the pair [x]. *)
Let as_good (res : option (Rect.t * Z * Z)) (x : Z * Z) : Prop :=
  exists p b l, res = Some (p, b, l) /\ lex_le (b, l) x.

(** The result is the rect in one of its allowed orientations, at the corner
    of a free node of the list in which it fits, with its side fits there. *)
Let found_in (free_rects : list Rect.t) (res : option (Rect.t * Z * Z)) : Prop :=
  exists f, f ∈ free_rects /\
    ((fits (Rect.w rect) (Rect.h rect) f /\
      res = Some (Rect.make (Rect.w rect) (Rect.h rect) (Rect.x f) (Rect.y f),
                  (side_fit (Rect.w rect) (Rect.h rect) f).1,
                  (side_fit (Rect.w rect) (Rect.h rect) f).2)) \/
     (Sheet.rotate sheet = true /\ fits (Rect.h rect) (Rect.w rect) f /\
      res = Some (Rect.make (Rect.h rect) (Rect.w rect) (Rect.x f) (Rect.y f),
                  (side_fit (Rect.h rect) (Rect.w rect) f).1,
                  (side_fit (Rect.h rect) (Rect.w rect) f).2))).

Lemma search_from_best (free_rects : list Rect.t) :
  forall best flag,
    let res := (MaxRectsLayout.search_from sheet free_rects rect best flag).1 in
    (forall p b l, best = Some (p, b, l) -> as_good res (b, l)) /\
    (forall f, f ∈ free_rects -> fits (Rect.w rect) (Rect.h rect) f ->
       as_good res (side_fit (Rect.w rect) (Rect.h rect) f)) /\
    (Sheet.rotate sheet = true ->
     forall f, f ∈ free_rects -> fits (Rect.h rect) (Rect.w rect) f ->
       as_good res (side_fit (Rect.h rect) (Rect.w rect) f)) /\
    (res = best \/ found_in free_rects res).
Proof.
  induction free_rects as [|f rest IH]; intros best flag res.
  - subst res. simpl. repeat split.
    + intros p b l ->. exists p, b, l. split; [done | apply lex_le_refl].
    + intros f Hf. by apply not_elem_of_nil in Hf.
    + intros _ f Hf. by apply not_elem_of_nil in Hf.
    + by left.
  - subst res. simpl.
    set (best1 := if (Rect.w f >=? Rect.w rect) && (Rect.h f >=? Rect.h rect) then _ else best).
    (* what the first test leaves *)
    assert (H1 : (forall p b l, best = Some (p, b, l) -> as_good best1 (b, l)) /\
                 (fits (Rect.w rect) (Rect.h rect) f ->
                  as_good best1 (side_fit (Rect.w rect) (Rect.h rect) f)) /\
                 (best1 = best \/ found_in [f] best1)).
    { subst best1.
      destruct ((Rect.w f >=? Rect.w rect) && (Rect.h f >=? Rect.h rect)) eqn:Hfit.
      - zbool. destruct (MaxRectsLayout.beats _ _ best) eqn:Hb.
        + repeat split.
          * intros p b l E. unfold as_good. eexists _, _, _. split; [reflexivity|]. by eapply beats_true.
          * intros _. unfold as_good. eexists _, _, _. split; [reflexivity | apply lex_le_refl].
          * right. exists f. split; [by left|]. left. split; [split; lia | done].
        + apply beats_false in Hb as (p0 & b0 & l0 & -> & Hle). repeat split.
          * intros p b l [= <- <- <-]. unfold as_good. eexists _, _, _. split; [reflexivity | apply lex_le_refl].
          * intros _. unfold as_good. eexists _, _, _. split; [reflexivity | done].
          * by left.
      - repeat split.
        + intros p b l ->. unfold as_good. eexists _, _, _. split; [reflexivity | apply lex_le_refl].
        + intros [Hw Hh]. apply andb_false_iff in Hfit as [Hfit|Hfit]; zbool; lia.
        + by left. }
    destruct H1 as (H1a & H1b & H1c). clearbody best1.
    set (step2 := if Sheet.rotate sheet && (Rect.h f >=? Rect.w rect)
                     && (Rect.w f >=? Rect.h rect) then _ else (best1, flag)).
    (* what the second test leaves *)
    assert (H2 : (forall p b l, best1 = Some (p, b, l) -> as_good step2.1 (b, l)) /\
                 (Sheet.rotate sheet = true -> fits (Rect.h rect) (Rect.w rect) f ->
                  as_good step2.1 (side_fit (Rect.h rect) (Rect.w rect) f)) /\
                 (step2.1 = best1 \/ found_in [f] step2.1)).
    { subst step2.
      destruct (Sheet.rotate sheet && (Rect.h f >=? Rect.w rect)
                && (Rect.w f >=? Rect.h rect)) eqn:Hfit.
      - zbool. destruct (MaxRectsLayout.beats _ _ best1) eqn:Hb; simpl.
        + repeat split.
          * intros p b l E. unfold as_good. eexists _, _, _. split; [reflexivity|]. by eapply beats_true.
          * intros _ _. unfold as_good. eexists _, _, _. split; [reflexivity | apply lex_le_refl].
          * right. exists f. split; [by left|]. right.
            split; [done|]. split; [split; lia | done].
        + apply beats_false in Hb as (p0 & b0 & l0 & E & Hle). rewrite E. repeat split.
          * intros p b l [= <- <- <-].
            unfold as_good. eexists _, _, _. split; [reflexivity | apply lex_le_refl].
          * intros _ _. unfold as_good. eexists _, _, _. split; [reflexivity | done].
          * by left.
      - simpl. repeat split.
        + intros p b l ->. unfold as_good. eexists _, _, _. split; [reflexivity | apply lex_le_refl].
        + intros Hr [Hw Hh]. rewrite Hr in Hfit. simpl in Hfit.
          apply andb_false_iff in Hfit as [Hfit|Hfit]; zbool; lia.
        + by left. }
    destruct H2 as (H2a & H2b & H2c).
    clearbody step2. destruct step2 as [best2 flag2]. simpl in *.
    destruct (IH best2 flag2) as (Ia & Ib & Ic & Id).
    assert (Hchain : forall x, as_good best2 x ->
              as_good (MaxRectsLayout.search_from sheet rest rect best2 flag2).1 x).
    { intros x (p & b & l & E & Hle). destruct (Ia p b l E) as (p' & b' & l' & E' & Hle').
      exists p', b', l'. split; [done|]. by eapply lex_le_trans. }
    assert (Hchain1 : forall x, as_good best1 x -> as_good best2 x).
    { intros x (p & b & l & E & Hle). destruct (H2a p b l E) as (p' & b' & l' & E' & Hle').
      exists p', b', l'. split; [done|]. by eapply lex_le_trans. }
    repeat split.
    + intros p b l E. apply Hchain, Hchain1. by apply (H1a p).
    + intros g Hg Hfit. apply elem_of_cons in Hg as [->|Hg].
      * apply Hchain, Hchain1. by apply H1b.
      * by apply Ib.
    + intros Hr g Hg Hfit. apply elem_of_cons in Hg as [->|Hg].
      * apply Hchain. by apply H2b.
      * by apply Ic.
    + destruct Id as [->|(g & Hg & Hres)].
      * destruct H2c as [->|(g & Hg & Hres)].
        -- destruct H1c as [->|(g & Hg & Hres)]; [by left|].
           right. exists g. apply list_elem_of_singleton in Hg as ->. split; [by left | done].
        -- right. exists g. apply list_elem_of_singleton in Hg as ->. split; [by left | done].
      * right. exists g. split; [by right | done].
Qed.

End SearchFacts.

(** X4: [search] returns the best short side fit.  When it returns a rect, it
    is the given rect, as it is or turned if rotation is allowed, at the
    corner of a free node in which it fits so, and no free node gives a
    smaller pair (short side fit, long side fit) in an allowed orientation;
    when it returns [None], the rect fits in no free node in any allowed
    orientation. *)
Theorem search_best_short_side_fit (sheet : Sheet.t) (st : MaxRectsLayout.state)
    (rect : Rect.t) :
  match (MaxRectsLayout.search sheet st rect).1 with
  | Some (pos, bssf, blsf) =>
    (exists f, f ∈ MaxRectsLayout.free_rects st /\
       Rect.x pos = Rect.x f /\ Rect.y pos = Rect.y f /\
       ((Rect.w pos = Rect.w rect /\ Rect.h pos = Rect.h rect /\
         fits (Rect.w rect) (Rect.h rect) f /\
         (bssf, blsf) = side_fit (Rect.w rect) (Rect.h rect) f) \/
        (Sheet.rotate sheet = true /\
         Rect.w pos = Rect.h rect /\ Rect.h pos = Rect.w rect /\
         fits (Rect.h rect) (Rect.w rect) f /\
         (bssf, blsf) = side_fit (Rect.h rect) (Rect.w rect) f))) /\
    (forall f, f ∈ MaxRectsLayout.free_rects st ->
       (fits (Rect.w rect) (Rect.h rect) f ->
        lex_le (bssf, blsf) (side_fit (Rect.w rect) (Rect.h rect) f)) /\
       (Sheet.rotate sheet = true -> fits (Rect.h rect) (Rect.w rect) f ->
        lex_le (bssf, blsf) (side_fit (Rect.h rect) (Rect.w rect) f)))
  | None =>
    forall f, f ∈ MaxRectsLayout.free_rects st ->
      ~ fits (Rect.w rect) (Rect.h rect) f /\
      (Sheet.rotate sheet = true -> ~ fits (Rect.h rect) (Rect.w rect) f)
  end.
Proof.
  unfold MaxRectsLayout.search.
  destruct (search_from_best sheet rect (MaxRectsLayout.free_rects st) None false)
    as (_ & Hb & Hc & Hd).
  destruct (MaxRectsLayout.search_from sheet _ rect None false).1 as [[[pos b] l]|].
  - split.
    + destruct Hd as [|(f & Hf & Hres)]; [done|]. exists f. split; [done|].
      destruct Hres as [[Hfit [= -> -> ->]]|(Hr & Hfit & [= -> -> ->])]; simpl.
      * split; [done|]. split; [done|]. left.
        split; [done|]. split; [done|]. split; [done|]. reflexivity.
      * split; [done|]. split; [done|]. right.
        split; [done|]. split; [done|]. split; [done|]. split; [done|]. reflexivity.
    + intros f Hf. split.
      * intros Hfit. destruct (Hb f Hf Hfit) as (p' & b' & l' & [= <- <- <-] & Hle). done.
      * intros Hr Hfit. destruct (Hc Hr f Hf Hfit) as (p' & b' & l' & [= <- <- <-] & Hle). done.
  - intros f Hf. split.
    + intros Hfit. by destruct (Hb f Hf Hfit) as (p' & b' & l' & ? & _).
    + intros Hr Hfit. by destruct (Hc Hr f Hf Hfit) as (p' & b' & l' & ? & _).
Qed.

(** ** The candidate that [get_best] picks *)

Lemma tuple_lt_true (a b : Z * Z) :
  MaxRectsLayout.tuple_lt a b = true -> lex_le a b /\ a <> b.
Proof.
  unfold MaxRectsLayout.tuple_lt, lex_le. intros H. destruct a as [a1 a2], b as [b1 b2].
  simpl in *. apply orb_prop in H as [H|H]; zbool; (split; [lia | intros [= -> ->]; lia]).
Qed.

Lemma tuple_lt_false (a b : Z * Z) :
  MaxRectsLayout.tuple_lt a b = false -> lex_le b a.
Proof.
  unfold MaxRectsLayout.tuple_lt, lex_le. intros H.
  apply orb_false_elim in H as [H1 H2]. zbool.
  apply andb_false_iff in H2 as [H2|H2]; zbool; lia.
Qed.

Lemma lex_le_antisym (a b : Z * Z) : lex_le a b -> lex_le b a -> a = b.
Proof.
  unfold lex_le. destruct a as [a1 a2], b as [b1 b2]. simpl. intros H1 H2. f_equal; lia.
Qed.

Section MaxRectsPick.
Variables (sheet : Sheet.t) (st : MaxRectsLayout.state).

(** What [get_best] has found once it has looked at the sprites of a list:
    nothing when none of them has a candidate, and else the first of the
    candidates with the least score. *)
Let picked (seen : list Sprite.t) (best : option (nat * Rect.t * bool))
    (score : option (Z * Z)) : Prop :=
  match best, score with
  | None, None => forall spr, spr ∈ seen -> (MaxRectsLayout.candidate sheet st spr).2 = None
  | Some (k, pos, rot), Some sb =>
    exists spr,
      seen !! k = Some spr /\
      (MaxRectsLayout.candidate sheet st spr).2 = Some (pos, sb) /\
      rot = Sprite.rotated (MaxRectsLayout.candidate sheet st spr).1 /\
      forall j spr' pos' sc',
        seen !! j = Some spr' ->
        (MaxRectsLayout.candidate sheet st spr').2 = Some (pos', sc') ->
        lex_le sb sc' /\ ((j < k)%nat -> sb <> sc')
  | _, _ => False
  end.

Lemma maxrects_get_best_from_picked (sprites : list Sprite.t) :
  forall seen best score,
    picked seen best score ->
    exists score',
      picked (seen ++ sprites)
        (MaxRectsLayout.get_best_from sheet st (length seen) sprites best score).2 score'.
Proof.
  induction sprites as [|spr rest IH]; intros seen best score Hp; simpl.
  - rewrite app_nil_r. by exists score.
  - destruct (MaxRectsLayout.candidate sheet st spr) as [spr1 cand] eqn:Hc.
    assert (Hnext : exists best1 score1,
              (match cand with
               | Some (pos, sc) =>
                 if match score with None => true | Some b => MaxRectsLayout.tuple_lt sc b end
                 then (Some (length seen, pos, Sprite.rotated spr1), Some sc)
                 else (best, score)
               | None => (best, score)
               end) = (best1, score1) /\ picked (seen ++ [spr]) best1 score1).
    { destruct cand as [[pos sc]|].
      - destruct score as [sb|].
        + destruct best as [[[k p] r]|]; [|done].
          destruct Hp as (s0 & Hk & Hc0 & Hr & Hmin).
          destruct (MaxRectsLayout.tuple_lt sc sb) eqn:Hlt.
          * apply tuple_lt_true in Hlt as [Hle Hne].
            eexists _, _. split; [reflexivity|]. exists spr.
            split; [by apply list_lookup_middle|].
            rewrite Hc. simpl. split; [done|]. split; [done|].
            intros j spr' pos' sc' Hj Hc'.
            apply lookup_app_Some in Hj as [Hj|[Hge Hj]].
            -- destruct (Hmin j spr' pos' sc' Hj Hc') as [Hle' _].
               split; [by eapply lex_le_trans|].
               intros _ ->. apply Hne. by apply lex_le_antisym.
            -- apply list_lookup_singleton_Some in Hj as [Hj ->].
               rewrite Hc in Hc'. injection Hc' as <- <-.
               split; [apply lex_le_refl | lia].
          * apply tuple_lt_false in Hlt.
            eexists _, _. split; [reflexivity|]. exists s0.
            split; [by apply lookup_app_l_Some|]. split; [done|]. split; [done|].
            intros j spr' pos' sc' Hj Hc'.
            apply lookup_app_Some in Hj as [Hj|[Hge Hj]]; [by apply (Hmin j spr' pos')|].
            apply list_lookup_singleton_Some in Hj as [Hj ->].
            rewrite Hc in Hc'. injection Hc' as <- <-.
            split; [done|]. apply lookup_lt_Some in Hk. lia.
        + destruct best as [[[k p] r]|]; [done|].
          eexists _, _. split; [reflexivity|]. exists spr.
          split; [by apply list_lookup_middle|].
          rewrite Hc. simpl. split; [done|]. split; [done|].
          intros j spr' pos' sc' Hj Hc'.
          apply lookup_app_Some in Hj as [Hj|[Hge Hj]].
          -- rewrite (Hp spr') in Hc'; [done|]. apply list_elem_of_lookup. eauto.
          -- apply list_lookup_singleton_Some in Hj as [Hj ->].
             rewrite Hc in Hc'. injection Hc' as <- <-.
             split; [apply lex_le_refl | lia].
      - eexists _, _. split; [reflexivity|].
        destruct best as [[[k p] r]|], score as [sb|]; try done.
        + destruct Hp as (s0 & Hk & Hc0 & Hr & Hmin). exists s0.
          split; [by apply lookup_app_l_Some|]. split; [done|]. split; [done|].
          intros j spr' pos' sc' Hj Hc'.
          apply lookup_app_Some in Hj as [Hj|[Hge Hj]]; [by apply (Hmin j spr' pos')|].
          apply list_lookup_singleton_Some in Hj as [Hj ->]. by rewrite Hc in Hc'.
        + intros s Hs. apply elem_of_app in Hs as [Hs|Hs]; [by apply Hp|].
          apply list_elem_of_singleton in Hs as ->. by rewrite Hc. }
    destruct Hnext as (best1 & score1 & -> & Hp1).
    destruct (IH (seen ++ [spr]) best1 score1 Hp1) as [score' Hfin].
    rewrite length_app, Nat.add_1_r, <- app_assoc in Hfin. simpl in Hfin.
    exists score'.
    by destruct (MaxRectsLayout.get_best_from sheet st (S (length seen)) rest best1 score1).
Qed.

End MaxRectsPick.

(** X5: [MaxRectsLayout.get_best] returns [None] exactly when no sprite of
    the list has a candidate; otherwise it returns the position and the flag
    of the sprite whose candidate has the least score, the first such sprite
    when several have that score. *)
Theorem maxrects_get_best_least (sheet : Sheet.t) (st : MaxRectsLayout.state)
    (sprites : list Sprite.t) :
  match (MaxRectsLayout.get_best sheet st sprites).2 with
  | None =>
    forall spr, spr ∈ sprites -> (MaxRectsLayout.candidate sheet st spr).2 = None
  | Some (i, pos, rot) =>
    exists spr sc,
      sprites !! i = Some spr /\
      (MaxRectsLayout.candidate sheet st spr).2 = Some (pos, sc) /\
      rot = Sprite.rotated (MaxRectsLayout.candidate sheet st spr).1 /\
      forall j spr' pos' sc',
        sprites !! j = Some spr' ->
        (MaxRectsLayout.candidate sheet st spr').2 = Some (pos', sc') ->
        lex_le sc sc' /\ ((j < i)%nat -> sc <> sc')
  end.
Proof.
  unfold MaxRectsLayout.get_best.
  destruct (maxrects_get_best_from_picked sheet st sprites [] None None) as [score' H].
  { intros spr Hs. by apply not_elem_of_nil in Hs. }
  simpl in H.
  destruct (MaxRectsLayout.get_best_from sheet st 0 sprites None None).2 as [[[i pos] rot]|].
  - destruct score' as [sc|]; [|done].
    destruct H as (spr & Hi & Hc & Hr & Hmin). by exists spr, sc.
  - by destruct score'.
Qed.

Section ShelfPick.
Variables (sheet : Sheet.t) (st : ShelfLayout.state).

Let picked (seen : list Sprite.t) (best : option (nat * ShelfLayout.ref * bool))
    (score : option Z) : Prop :=
  match best, score with
  | None, None => forall spr, spr ∈ seen -> (ShelfLayout.candidate sheet st spr).2 = None
  | Some (k, shelf, rot), Some sb =>
    exists spr,
      seen !! k = Some spr /\
      (ShelfLayout.candidate sheet st spr).2 = Some (shelf, sb) /\
      rot = Sprite.rotated (ShelfLayout.candidate sheet st spr).1 /\
      forall j spr' shelf' sc',
        seen !! j = Some spr' ->
        (ShelfLayout.candidate sheet st spr').2 = Some (shelf', sc') ->
        sb <= sc' /\ ((j < k)%nat -> sb < sc')
  | _, _ => False
  end.

Lemma shelf_get_best_from_picked (sprites : list Sprite.t) :
  forall seen best score,
    picked seen best score ->
    exists score',
      picked (seen ++ sprites)
        (ShelfLayout.get_best_from sheet st (length seen) sprites best score).2 score'.
Proof.
  induction sprites as [|spr rest IH]; intros seen best score Hp; simpl.
  - rewrite app_nil_r. by exists score.
  - destruct (ShelfLayout.candidate sheet st spr) as [spr1 cand] eqn:Hc.
    assert (Hnext : exists best1 score1,
              (match cand with
               | Some (shelf, sc) =>
                 if match score with None => true | Some b => sc <? b end
                 then (Some (length seen, shelf, Sprite.rotated spr1), Some sc)
                 else (best, score)
               | None => (best, score)
               end) = (best1, score1) /\ picked (seen ++ [spr]) best1 score1).
    { destruct cand as [[shelf sc]|].
      - destruct score as [sb|].
        + destruct best as [[[k p] r]|]; [|done].
          destruct Hp as (s0 & Hk & Hc0 & Hr & Hmin).
          destruct (sc <? sb) eqn:Hlt; zbool.
          * eexists _, _. split; [reflexivity|]. exists spr.
            split; [by apply list_lookup_middle|].
            rewrite Hc. simpl. split; [done|]. split; [done|].
            intros j spr' shelf' sc' Hj Hc'.
            apply lookup_app_Some in Hj as [Hj|[Hge Hj]].
            -- destruct (Hmin j spr' shelf' sc' Hj Hc') as [Hle' _]. lia.
            -- apply list_lookup_singleton_Some in Hj as [Hj ->].
               rewrite Hc in Hc'. injection Hc' as <- <-. lia.
          * eexists _, _. split; [reflexivity|]. exists s0.
            split; [by apply lookup_app_l_Some|]. split; [done|]. split; [done|].
            intros j spr' shelf' sc' Hj Hc'.
            apply lookup_app_Some in Hj as [Hj|[Hge Hj]]; [by apply (Hmin j spr' shelf')|].
            apply list_lookup_singleton_Some in Hj as [Hj ->].
            rewrite Hc in Hc'. injection Hc' as <- <-.
            split; [done|]. apply lookup_lt_Some in Hk. lia.
        + destruct best as [[[k p] r]|]; [done|].
          eexists _, _. split; [reflexivity|]. exists spr.
          split; [by apply list_lookup_middle|].
          rewrite Hc. simpl. split; [done|]. split; [done|].
          intros j spr' shelf' sc' Hj Hc'.
          apply lookup_app_Some in Hj as [Hj|[Hge Hj]].
          -- rewrite (Hp spr') in Hc'; [done|]. apply list_elem_of_lookup. eauto.
          -- apply list_lookup_singleton_Some in Hj as [Hj ->].
             rewrite Hc in Hc'. injection Hc' as <- <-. lia.
      - eexists _, _. split; [reflexivity|].
        destruct best as [[[k p] r]|], score as [sb|]; try done.
        + destruct Hp as (s0 & Hk & Hc0 & Hr & Hmin). exists s0.
          split; [by apply lookup_app_l_Some|]. split; [done|]. split; [done|].
          intros j spr' shelf' sc' Hj Hc'.
          apply lookup_app_Some in Hj as [Hj|[Hge Hj]]; [by apply (Hmin j spr' shelf')|].
          apply list_lookup_singleton_Some in Hj as [Hj ->]. by rewrite Hc in Hc'.
        + intros s Hs. apply elem_of_app in Hs as [Hs|Hs]; [by apply Hp|].
          apply list_elem_of_singleton in Hs as ->. by rewrite Hc. }
    destruct Hnext as (best1 & score1 & -> & Hp1).
    destruct (IH (seen ++ [spr]) best1 score1 Hp1) as [score' Hfin].
    rewrite length_app, Nat.add_1_r, <- app_assoc in Hfin. simpl in Hfin.
    exists score'.
    by destruct (ShelfLayout.get_best_from sheet st (S (length seen)) rest best1 score1).
Qed.

End ShelfPick.

(** X6: [ShelfLayout.get_best] returns [None] exactly when no sprite of the
    list has a candidate; otherwise it returns the shelf and the flag of the
    sprite whose candidate has the least score, the first such sprite when
    several have that score. *)
Theorem shelf_get_best_least (sheet : Sheet.t) (st : ShelfLayout.state)
    (sprites : list Sprite.t) :
  match (ShelfLayout.get_best sheet st sprites).2 with
  | None =>
    forall spr, spr ∈ sprites -> (ShelfLayout.candidate sheet st spr).2 = None
  | Some (i, shelf, rot) =>
    exists spr sc,
      sprites !! i = Some spr /\
      (ShelfLayout.candidate sheet st spr).2 = Some (shelf, sc) /\
      rot = Sprite.rotated (ShelfLayout.candidate sheet st spr).1 /\
      forall j spr' shelf' sc',
        sprites !! j = Some spr' ->
        (ShelfLayout.candidate sheet st spr').2 = Some (shelf', sc') ->
        sc <= sc' /\ ((j < i)%nat -> sc < sc')
  end.
Proof.
  unfold ShelfLayout.get_best.
  destruct (shelf_get_best_from_picked sheet st sprites [] None None) as [score' H].
  { intros spr Hs. by apply not_elem_of_nil in Hs. }
  simpl in H.
  destruct (ShelfLayout.get_best_from sheet st 0 sprites None None).2 as [[[i shelf] rot]|].
  - destruct score' as [sc|]; [|done].
    destruct H as (spr & Hi & Hc & Hr & Hmin). by exists spr, sc.
  - by destruct score'.
Qed.

(** ** The shelf that a sprite is scored on *)

Section ShelfScan.
Variables (sheet : Sheet.t) (spr : Sprite.t).
Hypothesis Hrot : Sheet.rotate sheet = false.

(** What the loop over the shelves has found once it has looked at the
    shelves of a list. *)
Let chosen (seen : list ShelfLayout.Shelf.t) (best : option (ShelfLayout.ref * Z)) : Prop :=
  match best with
  | None => forall sh, sh ∈ seen -> ~ fits_on sheet sh spr
  | Some (ShelfLayout.Existing k, sc) =>
    exists sh, seen !! k = Some sh /\ fits_on sheet sh spr /\ sc = shelf_score sheet sh spr /\
      forall j sh', seen !! j = Some sh' -> fits_on sheet sh' spr ->
        sc <= shelf_score sheet sh' spr /\ ((j < k)%nat -> sc < shelf_score sheet sh' spr)
  | Some (ShelfLayout.Fresh _, _) => False
  end.

Lemma shelf_scan_chosen (shelves : list ShelfLayout.Shelf.t) :
  forall seen best,
    chosen seen best ->
    chosen (seen ++ shelves) (ShelfLayout.scan sheet (length seen) shelves spr best).2.
Proof.
  induction shelves as [|sh rest IH]; intros seen best Hch; simpl.
  - by rewrite app_nil_r.
  - rewrite Hrot. simpl.
    match goal with |- context [ShelfLayout.scan sheet _ rest spr ?b] => set (best1 := b) end.
    assert (H1 : chosen (seen ++ [sh]) best1).
    { subst best1.
      destruct ((ShelfLayout.Shelf.size sh + Sprite.w spr <=? (Sheet.size sheet).1)
                && (Sprite.h spr <=? ShelfLayout.Shelf.max sh)) eqn:Hfit.
      - zbool. fold (shelf_score sheet sh spr).
        destruct best as [[[k|?] sb]|]; [| done |].
        + destruct Hch as (s0 & Hk & Hf0 & Hsb & Hmin). simpl.
          destruct (shelf_score sheet sh spr <? sb) eqn:Hlt; zbool.
          * exists sh. split; [by apply list_lookup_middle|]. split; [done|]. split; [done|].
            intros j sh' Hj Hf'. apply lookup_app_Some in Hj as [Hj|[Hge Hj]].
            -- destruct (Hmin j sh' Hj Hf'). lia.
            -- apply list_lookup_singleton_Some in Hj as [Hj ->]. lia.
          * exists s0. split; [by apply lookup_app_l_Some|]. split; [done|]. split; [done|].
            intros j sh' Hj Hf'. apply lookup_app_Some in Hj as [Hj|[Hge Hj]];
              [by apply Hmin|].
            apply list_lookup_singleton_Some in Hj as [Hj ->].
            split; [lia|]. apply lookup_lt_Some in Hk. lia.
        + simpl. exists sh. split; [by apply list_lookup_middle|]. split; [done|].
          split; [done|].
          intros j sh' Hj Hf'. apply lookup_app_Some in Hj as [Hj|[Hge Hj]].
          -- exfalso. apply (Hch sh'); [apply list_elem_of_lookup; eauto | done].
          -- apply list_lookup_singleton_Some in Hj as [Hj ->]. lia.
      - assert (Hno : ~ fits_on sheet sh spr).
        { intros [? ?]. apply andb_false_iff in Hfit as [Hfit|Hfit]; zbool; lia. }
        destruct best as [[[k|?] sb]|]; [| done |].
        + destruct Hch as (s0 & Hk & Hf0 & Hsb & Hmin).
          exists s0. split; [by apply lookup_app_l_Some|]. split; [done|]. split; [done|].
          intros j sh' Hj Hf'. apply lookup_app_Some in Hj as [Hj|[Hge Hj]];
            [by apply Hmin|].
          apply list_lookup_singleton_Some in Hj as [Hj ->]. done.
        + intros s Hs. apply elem_of_app in Hs as [Hs|Hs]; [by apply Hch|].
          by apply list_elem_of_singleton in Hs as ->. }
    specialize (IH (seen ++ [sh]) best1 H1).
    by rewrite length_app, Nat.add_1_r, <- app_assoc in IH.
Qed.

End ShelfScan.

(** What the body of the loop of [get_best] finds for one sprite, without
    rotation. *)
Lemma shelf_candidate_chosen (sheet : Sheet.t) (st : ShelfLayout.state) (spr : Sprite.t) :
  Sheet.rotate sheet = false ->
  match (ShelfLayout.candidate sheet st spr).2 with
  | Some (ShelfLayout.Existing k, sc) =>
    exists sh,
      ShelfLayout.shelves st !! k = Some sh /\ fits_on sheet sh spr /\
      sc = shelf_score sheet sh spr /\
      forall j sh', ShelfLayout.shelves st !! j = Some sh' -> fits_on sheet sh' spr ->
        sc <= shelf_score sheet sh' spr /\ ((j < k)%nat -> sc < shelf_score sheet sh' spr)
  | Some (ShelfLayout.Fresh sh, sc) =>
    sh = ShelfLayout.Shelf.new (ShelfLayout.size st) /\
    sc = ((Sheet.size sheet).1 - Sprite.w spr) * Sprite.h spr /\
    Sprite.w spr <= (Sheet.size sheet).1 /\ Sprite.h spr <= (Sheet.size sheet).2 /\
    (forall sh', sh' ∈ ShelfLayout.shelves st -> ~ fits_on sheet sh' spr) /\
    (ShelfLayout.shelves st = [] \/
     ShelfLayout.size st + Sprite.h spr <= (Sheet.size sheet).2)
  | None =>
    (Sprite.w spr > (Sheet.size sheet).1 \/ Sprite.h spr > (Sheet.size sheet).2) \/
    ((forall sh', sh' ∈ ShelfLayout.shelves st -> ~ fits_on sheet sh' spr) /\
     ShelfLayout.shelves st <> [] /\
     ShelfLayout.size st + Sprite.h spr > (Sheet.size sheet).2)
  end.
Proof.
  intros Hrot. unfold ShelfLayout.candidate.
  destruct ((Sprite.w spr >? (Sheet.size sheet).1) || (Sprite.h spr >? (Sheet.size sheet).2))
    eqn:Hbig; simpl.
  { left. apply orb_prop in Hbig as [H|H]; zbool; lia. }
  zbool.
  pose proof (shelf_scan_chosen sheet spr Hrot (ShelfLayout.shelves st) [] None) as Hch.
  simpl in Hch. specialize (Hch ltac:(intros sh Hs; by apply not_elem_of_nil in Hs)).
  destruct (shelf_scan_without_rotation sheet Hrot (ShelfLayout.shelves st) 0 spr None)
    as (b & Hscan & _).
  rewrite Hscan in Hch |- *. simpl in Hch.
  destruct b as [[[k|sh] sc]|]; simpl; [done | done |].
  rewrite Hrot. simpl.
  destruct (negb (bool_decide (ShelfLayout.shelves st = []))
            && (ShelfLayout.size st + Sprite.h spr >? (Sheet.size sheet).2)) eqn:Hfull; simpl.
  - right. zbool. apply bool_decide_eq_false in H1. split; [done|]. split; [done|]. lia.
  - split; [done|]. split; [done|]. split; [lia|]. split; [lia|]. split; [done|].
    apply andb_false_iff in Hfull as [Hf|Hf].
    + left. by apply negb_false_iff, bool_decide_eq_true in Hf.
    + right. zbool. lia.
Qed.

(** X7: on a sheet without rotation, the candidate of a sprite is the shelf
    of the layout with the least score among those on which the sprite fits,
    the first one when several have that score; it is a new shelf at the
    current height, scored [(maxw - w) * h], only when the sprite fits on no
    shelf and there is no shelf yet or room for one; and there is no
    candidate when the sprite is larger than the bin, or fits on no shelf
    and a new shelf would pass the bottom of the bin. *)
Theorem shelf_candidate_least (sheet : Sheet.t) (st : ShelfLayout.state) (spr : Sprite.t) :
  Sheet.rotate sheet = false ->
  match (ShelfLayout.candidate sheet st spr).2 with
  | Some (ShelfLayout.Existing k, sc) =>
    exists sh,
      ShelfLayout.shelves st !! k = Some sh /\ fits_on sheet sh spr /\
      sc = shelf_score sheet sh spr /\
      forall j sh', ShelfLayout.shelves st !! j = Some sh' -> fits_on sheet sh' spr ->
        sc <= shelf_score sheet sh' spr /\ ((j < k)%nat -> sc < shelf_score sheet sh' spr)
  | Some (ShelfLayout.Fresh sh, sc) =>
    sh = ShelfLayout.Shelf.new (ShelfLayout.size st) /\
    sc = ((Sheet.size sheet).1 - Sprite.w spr) * Sprite.h spr /\
    Sprite.w spr <= (Sheet.size sheet).1 /\ Sprite.h spr <= (Sheet.size sheet).2 /\
    (forall sh', sh' ∈ ShelfLayout.shelves st -> ~ fits_on sheet sh' spr) /\
    (ShelfLayout.shelves st = [] \/
     ShelfLayout.size st + Sprite.h spr <= (Sheet.size sheet).2)
  | None =>
    (Sprite.w spr > (Sheet.size sheet).1 \/ Sprite.h spr > (Sheet.size sheet).2) \/
    ((forall sh', sh' ∈ ShelfLayout.shelves st -> ~ fits_on sheet sh' spr) /\
     ShelfLayout.shelves st <> [] /\
     ShelfLayout.size st + Sprite.h spr > (Sheet.size sheet).2)
  end.
Proof. apply shelf_candidate_chosen. Qed.

Lemma shelf_candidate_least_witness :
  (Sprite.w (Sprite.new 0 4 3) > 10 \/ Sprite.h (Sprite.new 0 4 3) > 10) \/
  ((forall sh', sh' ∈ [ShelfLayout.Shelf.make 0 10 3 []; ShelfLayout.Shelf.make 3 10 7 []] ->
      ~ fits_on (Sheet.bounded 10 10 false) sh' (Sprite.new 0 4 3)) /\
   [ShelfLayout.Shelf.make 0 10 3 []; ShelfLayout.Shelf.make 3 10 7 []] <> [] /\
   10 + Sprite.h (Sprite.new 0 4 3) > 10).
Proof.
  exact (shelf_candidate_least (Sheet.bounded 10 10 false)
           (ShelfLayout.make 10
              [ShelfLayout.Shelf.make 0 10 3 []; ShelfLayout.Shelf.make 3 10 7 []])
           (Sprite.new 0 4 3) eq_refl).
Defined.

(** ** How the loop of the driver ends *)

Section DriverFinal.
Context {St Pos : Type} (L : Layout.t St Pos).

(** What the last turn of the loop did: the working list was empty, or
    [get_best] found nothing, or [place] refused. *)
Lemma add_turn_break_inv (st st1 : St) (placed remain placed1 remain1 : list Sprite.t) :
  Layout.add_turn st placed remain = Layout.Break st1 placed1 remain1 ->
  placed1 = placed /\
  ((remain = [] /\ st1 = st /\ remain1 = []) \/
   ((Layout.get_best st remain).2 = None /\ st1 = st /\
    remain1 = (Layout.get_best st remain).1) \/
   (exists i pos rot spr spr1,
      (Layout.get_best st remain).2 = Some (i, pos, rot) /\
      (Layout.get_best st remain).1 !! i = Some spr /\
      Layout.place st spr pos rot = (false, st1, spr1) /\
      remain1 = <[i := spr1]> (Layout.get_best st remain).1)).
Proof.
  unfold Layout.add_turn.
  destruct remain as [|s0 rest] eqn:Hrem.
  { intros [= <- <- <-]. split; [done|]. by left. }
  rewrite <- Hrem.
  destruct (Layout.get_best st remain) as [remain' best].
  destruct best as [[[i pos] rot]|].
  - destruct (remain' !! i) as [spr|] eqn:Hi; [|discriminate].
    destruct (Layout.place st spr pos rot) as [[[] st'] spr'] eqn:Hp; [discriminate|].
    intros [= <- <- <-]. split; [done|]. right. right. by exists i, pos, rot, spr, spr'.
  - intros [= <- <- <-]. split; [done|]. right. by left.
Qed.

(** A property that every placing turn keeps, and from which the last turn
    gives [Q], gives [Q] of what the loop returns. *)
Lemma add_loop_final (Inv Q : St -> list Sprite.t -> list Sprite.t -> Prop) :
  (forall st placed remain st1 placed1 remain1,
     Inv st placed remain ->
     Layout.add_turn st placed remain = Layout.Again st1 placed1 remain1 ->
     Inv st1 placed1 remain1) ->
  (forall st placed remain st1 placed1 remain1,
     Inv st placed remain ->
     Layout.add_turn st placed remain = Layout.Break st1 placed1 remain1 ->
     Q st1 placed1 remain1) ->
  forall fuel st placed remain st' placed' remain',
    Inv st placed remain ->
    Layout.add_loop fuel st placed remain = Some (Ok (st', placed', remain')) ->
    Q st' placed' remain'.
Proof.
  intros Hstep Hlast.
  induction fuel as [|fuel IH]; intros st placed remain st' placed' remain' HI;
    simpl; [discriminate|].
  destruct (Layout.add_turn st placed remain) as [st1 p1 r1|st1 p1 r1|e] eqn:Ht.
  - apply IH. by apply (Hstep st placed remain st1 p1 r1).
  - intros [= <- <- <-]. by apply (Hlast st placed remain).
  - discriminate.
Qed.

End DriverFinal.

(** ** The free list holds every free rect *)

(** A rect of positive size inside a free node, off the placed rect, lies
    inside one of the new nodes of the free node. *)
Lemma new_nodes_contain (rect free r : Rect.t) :
  Rect.intersects free rect = true ->
  positive r -> Rect.contains free r = true -> Rect.intersects r rect = false ->
  exists s, s ∈ new_nodes rect free /\ Rect.contains s r = true.
Proof.
  intros Hint [Hrw Hrh] Hc Hmiss.
  pose proof Hint as Hi. apply intersects_spec in Hi.
  apply contains_spec in Hc.
  apply not_true_iff_false in Hmiss. rewrite intersects_spec in Hmiss.
  destruct (Z_le_gt_dec (Rect.y r + Rect.h r) (Rect.y rect)) as [Hy|Hy].
  { exists (top_node rect free). split; [apply top_node_elem; [done | lia]|].
    apply contains_spec. unfold top_node, Rect.set_h. simpl. lia. }
  destruct (Z_le_gt_dec (Rect.y rect + Rect.h rect) (Rect.y r)) as [Hy'|Hy'].
  { exists (bottom_node rect free).
    split; [apply bottom_node_elem; [done | unfold Rect.bottom; lia]|].
    apply contains_spec. unfold bottom_node, Rect.set_h, Rect.set_y. simpl. lia. }
  destruct (Z_le_gt_dec (Rect.x r + Rect.w r) (Rect.x rect)) as [Hx|Hx].
  { exists (left_node rect free). split; [apply left_node_elem; [done | lia]|].
    apply contains_spec. unfold left_node, Rect.set_w. simpl. lia. }
  exists (right_node rect free).
  split; [apply right_node_elem; [done | unfold Rect.right; lia]|].
  apply contains_spec. unfold right_node, Rect.set_w, Rect.set_x. simpl. lia.
Qed.

Lemma run_free_rects_contain (sheet : Sheet.t) (st : MaxRectsLayout.state)
    (hist : list Sprite.t) (r : Rect.t) :
  0 < (Sheet.size sheet).1 -> 0 < (Sheet.size sheet).2 ->
  maxrects_run sheet st hist ->
  positive r ->
  Sheet.in_bin (Sheet.size sheet).1 (Sheet.size sheet).2 r = true ->
  (forall p, p ∈ hist -> Rect.intersects r (Sprite.rect p) = false) ->
  exists f, f ∈ MaxRectsLayout.free_rects st /\ Rect.contains f r = true.
Proof.
  intros Hw Hh Hrun Hr Hin.
  induction Hrun as [|st hist sprite position rotate st1 sprite1 Hrun IH Hplace]; intros Hmiss.
  - unfold MaxRectsLayout.clear. destruct (Sheet.size sheet) as [w h]. simpl in *.
    exists (Rect.make w h 0 0). split; [by left|].
    apply contains_spec. destruct Hr.
    unfold Sheet.in_bin, Rect.right, Rect.bottom in Hin.
    rewrite !andb_true_iff, !Z.leb_le in Hin. simpl. lia.
  - destruct (run_free_rects sheet st hist Hw Hh Hrun) as [Hpos Hund].
    pose proof (split_free_nodes_NoDup (Sprite.rect sprite1) _ Hpos Hund) as Hnd.
    pose proof (split_free_nodes_positive (Sprite.rect sprite1) _ Hpos) as Hpos1.
    apply maxrects_place_true in Hplace as (_ & _ & ->). simpl.
    destruct IH as (f & Hf & Hc).
    { intros p Hp. apply Hmiss, elem_of_app. by left. }
    assert (Hmiss1 : Rect.intersects r (Sprite.rect sprite1) = false).
    { apply Hmiss, elem_of_app. right. by left. }
    assert (Hs : exists s, s ∈ MaxRectsLayout.split_free_nodes (Sprite.rect sprite1)
                                 (MaxRectsLayout.free_rects st) /\
                           Rect.contains s r = true).
    { destruct (Rect.intersects f (Sprite.rect sprite1)) eqn:Hint.
      - destruct (new_nodes_contain _ _ r Hint Hr Hc Hmiss1) as (s & Hs & Hcs).
        exists s. split; [|done]. apply elem_of_split_free_nodes. right. by exists f.
      - exists f. split; [|done]. apply elem_of_split_free_nodes. by left. }
    destruct Hs as (s & Hs & Hcs).
    destruct (prune_keeps_a_container _ Hpos1 Hnd s Hs) as (t & Ht & Hts).
    exists t. split; [done|]. by apply (contains_trans t s r).
Qed.

(** X8: on a sheet of positive size, after [clear] and after every
    successful [place], every rect of positive size that lies inside the bin
    and overlaps no sprite placed since [clear] lies inside one free rect:
    the free list holds every maximal free rect. *)
Theorem free_rects_hold_free_space (sheet : Sheet.t) (st : MaxRectsLayout.state)
    (hist : list Sprite.t) (r : Rect.t) :
  0 < (Sheet.size sheet).1 -> 0 < (Sheet.size sheet).2 ->
  maxrects_run sheet st hist ->
  positive r ->
  Sheet.in_bin (Sheet.size sheet).1 (Sheet.size sheet).2 r = true ->
  (forall p, p ∈ hist -> Rect.intersects r (Sprite.rect p) = false) ->
  exists f, f ∈ MaxRectsLayout.free_rects st /\ Rect.contains f r = true.
Proof. apply run_free_rects_contain. Qed.

Lemma free_rects_hold_free_space_witness :
  exists f, f ∈ [Rect.make 10 5 0 5; Rect.make 5 10 5 0] /\
    Rect.contains f (Rect.make 4 8 6 1) = true.
Proof.
  apply (free_rects_hold_free_space (Sheet.bounded 10 10 false)
           (MaxRectsLayout.make [] [Rect.make 10 5 0 5; Rect.make 5 10 5 0] 0)
           ([] ++ [at_pos 0 5 5 0 0 false]) (Rect.make 4 8 6 1)); simpl; try lia.
  - apply (run_place (Sheet.bounded 10 10 false)
             (MaxRectsLayout.clear (Sheet.bounded 10 10 false)) []
             (Sprite.new 0 5 5) (Rect.make 5 5 0 0) false).
    + apply run_clear.
    + vm_compute. reflexivity.
  - unfold positive. simpl. lia.
  - reflexivity.
  - intros p Hp. apply list_elem_of_singleton in Hp as ->. reflexivity.
Defined.

(** ** What [MaxRectsLayout] leaves unplaced *)

Section MaxRectsKeepsSprites.
Variables (sheet : Sheet.t) (st : MaxRectsLayout.state).
Hypothesis Hrot : Sheet.rotate sheet = false.

(** Without rotation [get_best] leaves the sprites as they are. *)
Lemma maxrects_candidate_keeps_sprite (spr : Sprite.t) :
  (MaxRectsLayout.candidate sheet st spr).1 = spr.
Proof.
  unfold MaxRectsLayout.candidate.
  destruct (MaxRectsLayout.search sheet st (Sprite.rect spr)) as [[[[p b] l]|] flag]; [|done].
  destruct (negb _); [done|]. destruct flag; [by rewrite Hrot | done].
Qed.

Lemma maxrects_get_best_from_keeps_sprites (sprites : list Sprite.t) :
  forall i best score,
    (MaxRectsLayout.get_best_from sheet st i sprites best score).1 = sprites.
Proof.
  induction sprites as [|spr rest IH]; intros i best score; simpl; [done|].
  pose proof (maxrects_candidate_keeps_sprite spr) as Hc.
  destruct (MaxRectsLayout.candidate sheet st spr) as [spr1 cand]. simpl in Hc. subst spr1.
  destruct cand as [[p s]|];
    [destruct (match score with None => true | Some b => MaxRectsLayout.tuple_lt s b end)|];
    match goal with
    | |- context [MaxRectsLayout.get_best_from sheet st (S i) rest ?b ?c] =>
        specialize (IH (S i) b c);
        destruct (MaxRectsLayout.get_best_from sheet st (S i) rest b c)
    end; simpl in *; by rewrite IH.
Qed.

End MaxRectsKeepsSprites.

(** A candidate of [get_best] passed [sheet.check]. *)
Lemma maxrects_candidate_checked (sheet : Sheet.t) (st : MaxRectsLayout.state)
    (spr : Sprite.t) (pos : Rect.t) (sc : Z * Z) :
  (MaxRectsLayout.candidate sheet st spr).2 = Some (pos, sc) ->
  Sheet.check sheet pos = true.
Proof.
  unfold MaxRectsLayout.candidate.
  destruct (MaxRectsLayout.search sheet st (Sprite.rect spr)) as [[[[p b] l]|] flag]; [|done].
  destruct (Sheet.check sheet p) eqn:Hc; simpl; [|done].
  destruct flag; [destruct (Sheet.rotate sheet)|]; simpl; congruence.
Qed.

(** Where [get_best] finds nothing, no sprite of the list has a candidate. *)
Lemma maxrects_get_best_none (sheet : Sheet.t) (st : MaxRectsLayout.state)
    (sprites : list Sprite.t) :
  (MaxRectsLayout.get_best sheet st sprites).2 = None ->
  forall spr, spr ∈ sprites -> (MaxRectsLayout.candidate sheet st spr).2 = None.
Proof.
  unfold MaxRectsLayout.get_best.
  destruct (maxrects_get_best_from_picked sheet st sprites [] None None) as [score' H].
  { intros spr Hs. by apply not_elem_of_nil in Hs. }
  simpl in H. intros E. rewrite E in H. by destruct score'.
Qed.

(** With the bounds check as [sheet.check] and without rotation, a sprite
    has no candidate only if it fits in no free rect, as long as the free
    rects lie inside the bin. *)
Lemma maxrects_candidate_none_no_fit (maxw maxh : Z) (st : MaxRectsLayout.state)
    (spr : Sprite.t) :
  (forall f, f ∈ MaxRectsLayout.free_rects st -> Sheet.in_bin maxw maxh f = true) ->
  (MaxRectsLayout.candidate (Sheet.bounded maxw maxh false) st spr).2 = None ->
  forall f, f ∈ MaxRectsLayout.free_rects st -> ~ fits (Sprite.w spr) (Sprite.h spr) f.
Proof.
  intros Hbin Hnone f Hf Hfit.
  unfold MaxRectsLayout.candidate, MaxRectsLayout.search in Hnone.
  destruct (search_from_best (Sheet.bounded maxw maxh false) (Sprite.rect spr)
              (MaxRectsLayout.free_rects st) None false) as (_ & Hb & _ & Hd).
  destruct (MaxRectsLayout.search_from _ _ _ None false) as [res flag] eqn:Hs.
  simpl in Hb, Hd.
  destruct (Hb f Hf Hfit) as (p & b & l & -> & _).
  apply (search_from_without_rotation (Sheet.bounded maxw maxh false) (Sprite.rect spr)
           eq_refl) in Hs as [-> [|(g & Hg & -> & Hgw & Hgh)]]; [done|].
  assert (Hc : Sheet.in_bin maxw maxh
                 (Rect.make (Rect.w (Sprite.rect spr)) (Rect.h (Sprite.rect spr))
                    (Rect.x g) (Rect.y g)) = true).
  { specialize (Hbin g Hg). unfold Sheet.in_bin, Rect.right, Rect.bottom in *.
    rewrite !andb_true_iff, !Z.leb_le in *. simpl. lia. }
  simpl in Hnone. rewrite Hc in Hnone. simpl in Hnone. done.
Qed.

(** X9: with the bounds check as [sheet.check] and without rotation,
    [MaxRectsLayout.add] leaves a sprite of positive size in [remain] only
    if there is no room for it: wherever the sprite is put inside the bin, it
    overlaps a sprite that was placed. *)
Theorem maxrects_remain_fits_nowhere (maxw maxh : Z)
    (sprites placed remain : list Sprite.t) (st : MaxRectsLayout.state) :
  0 < maxw -> 0 < maxh ->
  MaxRectsLayout.add (Sheet.bounded maxw maxh false) sprites = Some (Ok (st, placed, remain)) ->
  forall spr x y,
    spr ∈ remain -> well_formed spr ->
    Sheet.in_bin maxw maxh (Rect.make (Sprite.w spr) (Sprite.h spr) x y) = true ->
    exists p, p ∈ placed /\
      Rect.intersects (Rect.make (Sprite.w spr) (Sprite.h spr) x y) (Sprite.rect p) = true.
Proof.
  intros Hw Hh Hadd.
  set (sheet := Sheet.bounded maxw maxh false) in *.
  assert (Hfin : maxrects_run sheet st placed /\
                 forall spr, spr ∈ remain -> (MaxRectsLayout.candidate sheet st spr).2 = None).
  { revert Hadd. unfold MaxRectsLayout.add, Layout.add.
    apply (add_loop_final (MaxRectsLayout.layout sheet)
             (fun s pl _ => maxrects_run sheet s pl)
             (fun s pl rm => maxrects_run sheet s pl /\
                forall spr, spr ∈ rm -> (MaxRectsLayout.candidate sheet s spr).2 = None)).
    - intros s pl rm s1 pl1 rm1 Hrun Ht.
      apply add_turn_again_inv in Ht as (i & pos & rot & spr & spr1 & _ & _ & Hplace & -> & _).
      simpl in Hplace. by apply (run_place sheet s pl spr pos rot s1 spr1).
    - intros s pl rm s1 pl1 rm1 Hrun Ht.
      apply add_turn_break_inv in Ht
        as [-> [(-> & -> & ->)|[(Hnone & -> & ->)|
               (i & pos & rot & spr & spr1 & Hbest & Hi & Hplace & _)]]].
      + split; [done|]. intros spr Hs. by apply not_elem_of_nil in Hs.
      + split; [done|]. simpl in *. unfold MaxRectsLayout.get_best.
        rewrite (maxrects_get_best_from_keeps_sprites sheet s eq_refl).
        by apply maxrects_get_best_none.
      + exfalso. simpl in Hbest, Hi, Hplace.
        apply maxrects_get_best_pick in Hbest as (spr0 & sc & _ & Hcand & Hout & _).
        rewrite Hout in Hi. injection Hi as <-.
        pose proof (maxrects_candidate_checked sheet s spr0 pos sc) as Hcheck.
        rewrite Hcand in Hcheck. specialize (Hcheck eq_refl).
        apply (candidate_without_rotation sheet s _ _ _ _ eq_refl) in Hcand
          as (Hspr & f & Hf & Hpos & _).
        unfold MaxRectsLayout.place in Hplace. rewrite Hspr in Hplace.
        replace (Sprite.rect (Sprite.set_y (Sprite.set_x spr0 (Rect.x pos)) (Rect.y pos)))
          with pos in Hplace by (rewrite Hpos; reflexivity).
        rewrite Hcheck in Hplace. simpl in Hplace. discriminate.
    - apply run_clear. }
  destruct Hfin as [Hrun Hnone].
  intros spr x y Hspr [Hsw Hsh] Hin.
  set (r := Rect.make (Sprite.w spr) (Sprite.h spr) x y) in *.
  destruct (decide (Exists (fun p => Rect.intersects r (Sprite.rect p) = true) placed))
    as [Hex|Hno].
  { apply Exists_exists in Hex as (p & Hp & Hint). by exists p. }
  exfalso.
  destruct (run_free_rects_contain sheet st placed r Hw Hh Hrun) as (f & Hf & Hc).
  - split; simpl; lia.
  - done.
  - intros p Hp. apply not_true_iff_false. intros Hint. apply Hno.
    apply Exists_exists. by exists p.
  - apply (maxrects_candidate_none_no_fit maxw maxh st spr) with (f := f).
    + intros g Hg. by apply (run_free_rects_in_bin sheet st placed Hrun g Hg).
    + by apply Hnone.
    + done.
    + apply contains_spec in Hc. unfold fits. subst r. simpl in Hc. lia.
Qed.

Lemma maxrects_remain_fits_nowhere_witness :
  exists p, p ∈ [at_pos 0 6 6 0 0 false] /\
    Rect.intersects (Rect.make (Sprite.w (Sprite.new 1 6 6)) (Sprite.h (Sprite.new 1 6 6)) 4 3)
      (Sprite.rect p) = true.
Proof.
  apply (maxrects_remain_fits_nowhere 10 10 (sprites_of [(6, 6); (6, 6)])
           [at_pos 0 6 6 0 0 false] [Sprite.new 1 6 6]
           (MaxRectsLayout.make [] [Rect.make 10 4 0 6; Rect.make 4 10 6 0] 0)).
  - lia.
  - lia.
  - vm_compute. reflexivity.
  - apply list_elem_of_singleton. reflexivity.
  - unfold well_formed, Sprite.w, Sprite.h. simpl. lia.
  - reflexivity.
Defined.

(** ** What [ShelfLayout] leaves unplaced *)

(** Where [get_best] finds nothing, no sprite of the list has a candidate. *)
Lemma shelf_get_best_none (sheet : Sheet.t) (st : ShelfLayout.state)
    (sprites : list Sprite.t) :
  (ShelfLayout.get_best sheet st sprites).2 = None ->
  forall spr, spr ∈ sprites -> (ShelfLayout.candidate sheet st spr).2 = None.
Proof.
  unfold ShelfLayout.get_best.
  destruct (shelf_get_best_from_picked sheet st sprites [] None None) as [score' H].
  { intros spr Hs. by apply not_elem_of_nil in Hs. }
  simpl in H. intros E. rewrite E in H. by destruct score'.
Qed.

(** [ShelfLayout.place] never refuses. *)
Lemma shelf_place_true (st : ShelfLayout.state) (spr : Sprite.t)
    (shelf : ShelfLayout.ref) (rot : bool) :
  (ShelfLayout.place st spr shelf rot).1.1 = true.
Proof.
  unfold ShelfLayout.place. destruct shelf as [k|sh]; [destruct (_ !! k)|]; done.
Qed.

(** X10: without rotation, [ShelfLayout.add] leaves a sprite in [remain]
    only if the sprite is larger than the bin, or if it fits on no shelf of
    the layout as [add] leaves it and a new shelf for it would pass the
    bottom of the bin. *)
Theorem shelf_remain_fits_nowhere (sheet : Sheet.t)
    (sprites placed remain : list Sprite.t) (st : ShelfLayout.state) :
  Sheet.rotate sheet = false ->
  ShelfLayout.add sheet sprites = Some (Ok (st, placed, remain)) ->
  forall spr, spr ∈ remain ->
    (Sprite.w spr > (Sheet.size sheet).1 \/ Sprite.h spr > (Sheet.size sheet).2) \/
    ((forall sh, sh ∈ ShelfLayout.shelves st -> ~ fits_on sheet sh spr) /\
     ShelfLayout.shelves st <> [] /\
     ShelfLayout.size st + Sprite.h spr > (Sheet.size sheet).2).
Proof.
  intros Hrot Hadd.
  assert (Hfin : forall spr, spr ∈ remain -> (ShelfLayout.candidate sheet st spr).2 = None).
  { revert Hadd. unfold ShelfLayout.add, Layout.add.
    apply (add_loop_final (ShelfLayout.layout sheet)
             (fun _ _ _ => True)
             (fun s _ rm =>
                forall spr, spr ∈ rm -> (ShelfLayout.candidate sheet s spr).2 = None));
      [done| |done].
    intros s pl rm s1 pl1 rm1 _ Ht.
    apply add_turn_break_inv in Ht
      as [-> [(-> & -> & ->)|[(Hnone & -> & ->)|
             (i & pos & rot & spr & spr1 & _ & _ & Hplace & _)]]].
    - intros spr Hs. by apply not_elem_of_nil in Hs.
    - simpl in *. unfold ShelfLayout.get_best.
      rewrite (proj1 (shelf_get_best_from_pick sheet Hrot s rm 0%nat None None)).
      by apply shelf_get_best_none.
    - simpl in Hplace. pose proof (shelf_place_true s spr pos rot) as Ht.
      rewrite Hplace in Ht. discriminate. }
  intros spr Hspr.
  pose proof (shelf_candidate_chosen sheet st spr Hrot) as H.
  by rewrite (Hfin spr Hspr) in H.
Qed.

Lemma shelf_remain_fits_nowhere_witness :
  (Sprite.w (Sprite.new 1 6 6) > 10 \/ Sprite.h (Sprite.new 1 6 6) > 10) \/
  ((forall sh, sh ∈ [ShelfLayout.Shelf.make 0 6 6 [at_pos 0 6 6 0 0 false]] ->
      ~ fits_on (Sheet.bounded 10 10 false) sh (Sprite.new 1 6 6)) /\
   [ShelfLayout.Shelf.make 0 6 6 [at_pos 0 6 6 0 0 false]] <> [] /\
   6 + Sprite.h (Sprite.new 1 6 6) > 10).
Proof.
  apply (shelf_remain_fits_nowhere (Sheet.bounded 10 10 false)
           (sprites_of [(6, 6); (6, 6)]) [at_pos 0 6 6 0 0 false] [Sprite.new 1 6 6]
           (ShelfLayout.make 6 [ShelfLayout.Shelf.make 0 6 6 [at_pos 0 6 6 0 0 false]])).
  - reflexivity.
  - vm_compute. reflexivity.
  - apply list_elem_of_singleton. reflexivity.
Defined.

(** ** Sprites keep their shape without rotation *)

Lemma shape_set_x (s : Sprite.t) (v : Z) : shape (Sprite.set_x s v) = shape s.
Proof. reflexivity. Qed.

Lemma shape_set_y (s : Sprite.t) (v : Z) : shape (Sprite.set_y s v) = shape s.
Proof. reflexivity. Qed.

Section KeepsShapes.
Context {St Pos : Type} (L : Layout.t St Pos).
Hypothesis Hkeep : forall st l, (Layout.get_best st l).1 = l.
Hypothesis Hplace : forall st l i pos rot spr,
  (Layout.get_best st l).2 = Some (i, pos, rot) -> l !! i = Some spr ->
  (Layout.place st spr pos rot).1.1 = true /\
  shape (Layout.place st spr pos rot).2 = shape spr.

(** A layout whose [get_best] leaves the sprites as they are, and whose
    [place] accepts what [get_best] chose and keeps its shape, returns the
    sprites in the shape they came in. *)
Lemma add_loop_keeps_shapes (sprites : list Sprite.t) :
  forall fuel st placed remain st' placed' remain',
    remain `sublist_of` sprites ->
    Forall (fun p => exists s, s ∈ sprites /\ shape p = shape s) placed ->
    Layout.add_loop fuel st placed remain = Some (Ok (st', placed', remain')) ->
    remain' `sublist_of` sprites /\
    Forall (fun p => exists s, s ∈ sprites /\ shape p = shape s) placed'.
Proof.
  intros fuel st placed remain st' placed' remain' Hsub Hpl.
  apply (add_loop_final L
           (fun _ pl rm => rm `sublist_of` sprites /\
              Forall (fun p => exists s, s ∈ sprites /\ shape p = shape s) pl)
           (fun _ pl rm => rm `sublist_of` sprites /\
              Forall (fun p => exists s, s ∈ sprites /\ shape p = shape s) pl));
    [| |done].
  - intros s pl rm s1 pl1 rm1 [Hrm Hp] Ht.
    apply add_turn_again_inv in Ht as (i & pos & rot & spr & spr1 & Hbest & Hi & Hpl1 & -> & ->).
    rewrite Hkeep in Hi |- *.
    destruct (Hplace s rm i pos rot spr Hbest Hi) as [_ Hshape].
    rewrite Hpl1 in Hshape. simpl in Hshape. split.
    + etrans; [apply sublist_delete | done].
    + apply Forall_app. split; [done|]. constructor; [|done].
      exists spr. split; [|done].
      apply (elem_of_sublist rm); [by apply (list_elem_of_lookup_2 rm i) | done].
  - intros s pl rm s1 pl1 rm1 [Hrm Hp] Ht.
    apply add_turn_break_inv in Ht
      as [-> [(-> & -> & ->)|[(Hnone & -> & ->)|
             (i & pos & rot & spr & spr1 & Hbest & Hi & Hpl1 & _)]]].
    + done.
    + by rewrite Hkeep.
    + rewrite Hkeep in Hi.
      destruct (Hplace s rm i pos rot spr Hbest Hi) as [Htrue _].
      rewrite Hpl1 in Htrue. discriminate.
Qed.

End KeepsShapes.

(** Without rotation, [MaxRectsLayout.place] accepts what [get_best] chose
    and moves the sprite without turning it. *)
Lemma maxrects_place_after_get_best (sheet : Sheet.t) (st : MaxRectsLayout.state)
    (l : list Sprite.t) (i : nat) (pos : Rect.t) (rot : bool) (spr : Sprite.t) :
  Sheet.rotate sheet = false ->
  (MaxRectsLayout.get_best sheet st l).2 = Some (i, pos, rot) -> l !! i = Some spr ->
  MaxRectsLayout.place sheet st spr pos rot
  = (true,
     MaxRectsLayout.make (MaxRectsLayout.used_rects st)
       (MaxRectsLayout.prune
          (MaxRectsLayout.split_free_nodes (Sprite.rect (moved spr pos))
             (MaxRectsLayout.free_rects st)))
       (MaxRectsLayout.debug_image_count st),
     moved spr pos).
Proof.
  intros Hrot Hbest Hi.
  apply maxrects_get_best_pick in Hbest as (spr0 & sc & Hl & Hcand & _ & Hr).
  rewrite Hl in Hi. injection Hi as ->.
  pose proof (maxrects_candidate_checked sheet st spr pos sc) as Hcheck.
  rewrite Hcand in Hcheck. specialize (Hcheck eq_refl).
  rewrite (maxrects_candidate_keeps_sprite sheet st Hrot) in Hr.
  apply (candidate_without_rotation sheet st _ _ _ _ Hrot) in Hcand
    as (_ & f & Hf & Hpos & _).
  unfold MaxRectsLayout.place. fold (moved spr pos).
  replace (Sprite.rect (moved spr pos)) with pos by (rewrite Hpos; reflexivity).
  rewrite Hcheck. simpl. rewrite Hr, xorb_nilpotent.
  replace (Sprite.rect (moved spr pos)) with pos by (rewrite Hpos; reflexivity).
  reflexivity.
Qed.

(** X11: on a sheet that does not allow rotation, [MaxRectsLayout.add] turns
    no sprite: [remain] holds sprites of the input as they came in, in the
    order of the input, and every sprite of [placed] is a sprite of the
    input, moved, with its width, height and flag as they came in. *)
Theorem maxrects_keeps_shapes_without_rotation (sheet : Sheet.t)
    (sprites placed remain : list Sprite.t) (st : MaxRectsLayout.state) :
  Sheet.rotate sheet = false ->
  MaxRectsLayout.add sheet sprites = Some (Ok (st, placed, remain)) ->
  remain `sublist_of` sprites /\
  Forall (fun p => exists s, s ∈ sprites /\ shape p = shape s) placed.
Proof.
  intros Hrot. unfold MaxRectsLayout.add, Layout.add.
  apply (add_loop_keeps_shapes (MaxRectsLayout.layout sheet)); [| |done|done].
  - intros s l. apply (maxrects_get_best_from_keeps_sprites sheet s Hrot).
  - intros s l i pos rot spr Hbest Hi. simpl in *.
    by rewrite (maxrects_place_after_get_best sheet s l i pos rot spr Hrot Hbest Hi).
Qed.

Lemma maxrects_keeps_shapes_without_rotation_witness :
  [Sprite.new 1 6 6] `sublist_of` sprites_of [(6, 6); (6, 6)] /\
  Forall (fun p => exists s, s ∈ sprites_of [(6, 6); (6, 6)] /\ shape p = shape s)
    [at_pos 0 6 6 0 0 false].
Proof.
  apply (maxrects_keeps_shapes_without_rotation (Sheet.bounded 10 10 false)
           (sprites_of [(6, 6); (6, 6)]) [at_pos 0 6 6 0 0 false] [Sprite.new 1 6 6]
           (MaxRectsLayout.make [] [Rect.make 10 4 0 6; Rect.make 4 10 6 0] 0)).
  - reflexivity.
  - vm_compute. reflexivity.
Defined.

(** Without rotation, [ShelfLayout.place] puts what [get_best] chose on its
    shelf without turning it. *)
Lemma shelf_place_after_get_best (sheet : Sheet.t) (st : ShelfLayout.state)
    (l : list Sprite.t) (i : nat) (shelf : ShelfLayout.ref) (rot : bool) (spr : Sprite.t) :
  Sheet.rotate sheet = false ->
  (ShelfLayout.get_best sheet st l).2 = Some (i, shelf, rot) -> l !! i = Some spr ->
  shape (ShelfLayout.place st spr shelf rot).2 = shape spr.
Proof.
  intros Hrot Hbest Hi.
  destruct (shelf_get_best_from_pick sheet Hrot st l 0%nat None None) as [_ Hpick].
  destruct (Hpick i shelf rot Hbest) as [|(spr0 & sc & _ & Hl & _ & ->)]; [done|].
  rewrite Nat.sub_0_r, Hi in Hl. injection Hl as <-.
  unfold ShelfLayout.place. rewrite xorb_nilpotent.
  destruct shelf as [k|sh]; [destruct (_ !! k)|]; reflexivity.
Qed.

(** X12: on a sheet that does not allow rotation, [ShelfLayout.add] turns no
    sprite: [remain] holds sprites of the input as they came in, in the order
    of the input, and every sprite of [placed] is a sprite of the input,
    moved, with its width, height and flag as they came in. *)
Theorem shelf_keeps_shapes_without_rotation (sheet : Sheet.t)
    (sprites placed remain : list Sprite.t) (st : ShelfLayout.state) :
  Sheet.rotate sheet = false ->
  ShelfLayout.add sheet sprites = Some (Ok (st, placed, remain)) ->
  remain `sublist_of` sprites /\
  Forall (fun p => exists s, s ∈ sprites /\ shape p = shape s) placed.
Proof.
  intros Hrot. unfold ShelfLayout.add, Layout.add.
  apply (add_loop_keeps_shapes (ShelfLayout.layout sheet)); [| |done|done].
  - intros s l. apply (proj1 (shelf_get_best_from_pick sheet Hrot s l 0%nat None None)).
  - intros s l i pos rot spr Hbest Hi. simpl in *. split.
    + apply shelf_place_true.
    + by apply (shelf_place_after_get_best sheet s l i pos rot spr Hrot).
Qed.

Lemma shelf_keeps_shapes_without_rotation_witness :
  [Sprite.new 1 6 6] `sublist_of` sprites_of [(6, 6); (6, 6)] /\
  Forall (fun p => exists s, s ∈ sprites_of [(6, 6); (6, 6)] /\ shape p = shape s)
    [at_pos 0 6 6 0 0 false].
Proof.
  apply (shelf_keeps_shapes_without_rotation (Sheet.bounded 10 10 false)
           (sprites_of [(6, 6); (6, 6)]) [at_pos 0 6 6 0 0 false] [Sprite.new 1 6 6]
           (ShelfLayout.make 6 [ShelfLayout.Shelf.make 0 6 6 [at_pos 0 6 6 0 0 false]])).
  - reflexivity.
  - vm_compute. reflexivity.
Defined.

(** ** Runs of [StackLayout.add] without rotation *)

Lemma overlap_right_of (p q : Sprite.t) :
  Sprite.x q + Sprite.w q <= Sprite.x p -> overlap p q = false.
Proof.
  intros H. apply not_true_iff_false. unfold overlap. rewrite intersects_spec.
  unfold Sprite.x, Sprite.w in H. lia.
Qed.

(** Without rotation, the stack that the loop chooses is a stack of the list
    in which the sprite fits. *)
Lemma stack_scan_fit (sheet : Sheet.t) (w h : Z) :
  Sheet.rotate sheet = false ->
  forall (stacks : list StackLayout.Stack.t) (k : nat) (v : StackLayout.locals),
    exists v1,
      StackLayout.scan sheet k stacks w h v = Ok v1 /\
      (stacks <> [] -> StackLayout.tw v1 = Some w /\ StackLayout.rotated v1 = Some false) /\
      (forall j, StackLayout.stack v1 = Some j ->
         StackLayout.stack v = Some j \/
         exists sk, (k <= j)%nat /\ stacks !! (j - k)%nat = Some sk /\
           StackLayout.Stack.size sk + h <= (Sheet.size sheet).2 /\
           w <= StackLayout.Stack.max sk).
Proof.
  intros Hrot. induction stacks as [|sk rest IH]; intros k v.
  - exists v. simpl. repeat split; try done. intros j Hj. by left.
  - simpl. rewrite Hrot. simpl.
    match goal with |- context [StackLayout.scan sheet (S k) rest w h ?u] => set (v' := u) end.
    assert (Hv' : StackLayout.tw v' = Some w /\ StackLayout.rotated v' = Some false /\
                  (forall j, StackLayout.stack v' = Some j ->
                     StackLayout.stack v = Some j \/
                     (j = k /\ StackLayout.Stack.size sk + h <= (Sheet.size sheet).2 /\
                      w <= StackLayout.Stack.max sk))).
    { subst v'.
      destruct ((StackLayout.Stack.size sk + h <=? (Sheet.size sheet).2)
                && (w <=? StackLayout.Stack.max sk)) eqn:Hfit.
      - zbool. destruct (StackLayout.best v) as [b|]; [destruct (_ <? b)|];
          simpl; (split; [done|]); (split; [done|]); intros j Hj;
          first [by left | right; split; [congruence | lia]].
      - simpl. split; [done|]. split; [done|]. intros j Hj. by left. }
    destruct Hv' as (Htw & Hr & Hst). clearbody v'.
    destruct (IH (S k) v') as (v1 & Hscan & Hcons & Hidx).
    exists v1. split; [done|]. split.
    + intros _. destruct rest as [|sk' rest'].
      * simpl in Hscan. injection Hscan as <-. done.
      * by apply Hcons.
    + intros j Hj. destruct (Hidx j Hj) as [Hj'|(sk' & Hle & Hl & Hfit)].
      * destruct (Hst j Hj') as [?|(-> & Hfit)]; [by left|].
        right. exists sk. rewrite Nat.sub_diag. done.
      * right. exists sk'. split; [lia|].
        replace (j - k)%nat with (S (j - S k)) by lia. done.
Qed.

Section StackCalls.
Variable sheet : Sheet.t.
Hypothesis Hrot : Sheet.rotate sheet = false.

(** A call of [add] returns, and keeps the stacks in order. *)
Lemma stack_add_keeps_inv (s : StackLayout.state) (placed : list Sprite.t) (spr : Sprite.t) :
  stack_inv sheet s placed -> well_formed spr ->
  exists ok s1 spr1,
    StackLayout.add sheet s spr = Ok (ok, s1, spr1) /\
    stack_inv sheet s1 (if (ok : bool) then placed ++ [spr1] else placed).
Proof.
  intros Hinv [Hpw Hph]. pose proof Hinv as Hinv0.
  destruct Hinv as [Hsize Hempty Hwidth Hstack Horder Hplaced Hdis].
  unfold StackLayout.add.
  destruct ((Sprite.w spr >? (Sheet.size sheet).1) || (Sprite.h spr >? (Sheet.size sheet).2))
    eqn:Hbig.
  { by exists false, s, spr. }
  zbool.
  destruct (stack_scan_fit sheet (Sprite.w spr) (Sprite.h spr) Hrot (StackLayout.stacks s) 0
              (StackLayout.mk_locals None None None None None))
    as (v & -> & Hcons & Hidx).
  simpl. destruct (StackLayout.stack v) as [k|] eqn:Hk.
  - (* in a stack of the list *)
    destruct (Hidx k eq_refl) as [|(sk & _ & Hl & Hfh & Hfw)]; [done|].
    rewrite Nat.sub_0_r in Hl.
    assert (Hne : StackLayout.stacks s <> []) by (intros E; by rewrite E in Hl).
    destruct (Hcons Hne) as [_ ->]. simpl. rewrite Hl.
    unfold StackLayout.Stack.place.
    destruct (Hstack k sk Hl) as (Hs0 & Hs1 & Hs2).
    assert (Hmax : (if StackLayout.Stack.max sk <?
                       Sprite.w (Sprite.set_y (Sprite.set_x spr (StackLayout.Stack.start sk))
                                   (StackLayout.Stack.size sk))
                    then Sprite.w (Sprite.set_y (Sprite.set_x spr (StackLayout.Stack.start sk))
                                     (StackLayout.Stack.size sk))
                    else StackLayout.Stack.max sk) = StackLayout.Stack.max sk).
    { destruct (_ <? _) eqn:E; [|done]. zbool.
      unfold Sprite.w, Sprite.set_x, Sprite.set_y in *. simpl in *. lia. }
    rewrite Hmax. simpl.
    rewrite (Z.max_l (StackLayout.size s)) by lia.
    set (spr1 := Sprite.set_y (Sprite.set_x spr (StackLayout.Stack.start sk))
                   (StackLayout.Stack.size sk)).
    set (sk1 := StackLayout.Stack.make _ _ _ _).
    eexists true, _, spr1. split; [reflexivity|].
    assert (Hlook : forall k' sk', <[k := sk1]> (StackLayout.stacks s) !! k' = Some sk' ->
              (k' = k /\ sk' = sk1) \/ (k' <> k /\ StackLayout.stacks s !! k' = Some sk')).
    { intros k' sk' Hq. destruct (decide (k' = k)) as [->|Hnek].
      - left. rewrite list_lookup_insert_eq in Hq by (by eapply lookup_lt_Some). by injection Hq.
      - right. by rewrite list_lookup_insert_ne in Hq. }
    assert (Hgeom : StackLayout.Stack.start sk1 = StackLayout.Stack.start sk /\
                    StackLayout.Stack.max sk1 = StackLayout.Stack.max sk /\
                    StackLayout.Stack.size sk1 = StackLayout.Stack.size sk + Sprite.h spr /\
                    Sprite.x spr1 = StackLayout.Stack.start sk /\
                    Sprite.y spr1 = StackLayout.Stack.size sk /\
                    Sprite.w spr1 = Sprite.w spr /\ Sprite.h spr1 = Sprite.h spr).
    { by repeat split. }
    destruct Hgeom as (G1 & G2 & G3 & G4 & G5 & G6 & G7).
    clearbody spr1 sk1.
    constructor; simpl.
    + done.
    + intros E. apply (f_equal length) in E. rewrite length_insert in E.
      apply Hempty. by apply nil_length_inv.
    + intros _. by apply Hwidth.
    + intros k' sk' Hq. apply Hlook in Hq as [[-> ->]|[Hnek Hq]].
      * rewrite G1, G2, G3. lia.
      * by apply Hstack in Hq.
    + intros k1 k2 sk' sk'' Hlt Hq1 Hq2.
      apply Hlook in Hq1 as [[-> ->]|[Hn1 Hq1]]; apply Hlook in Hq2 as [[-> ->]|[Hn2 Hq2]].
      * lia.
      * rewrite G1, G2. by apply (Horder k k2).
      * rewrite G1. by apply (Horder k1 k).
      * by apply (Horder k1 k2).
    + intros p Hp. apply elem_of_app in Hp as [Hp|Hp].
      * destruct (Hplaced p Hp) as (Hwfp & k' & sk' & Hk' & Hon). split; [done|].
        destruct (decide (k' = k)) as [->|Hnek].
        -- exists k, sk1. rewrite list_lookup_insert_eq by (by eapply lookup_lt_Some).
           split; [done|]. rewrite Hl in Hk'. injection Hk' as <-.
           destruct Hon as (? & ? & ? & ?). unfold in_stack. rewrite G1, G2, G3. lia.
        -- exists k', sk'. by rewrite list_lookup_insert_ne.
      * apply list_elem_of_singleton in Hp as ->. split.
        -- unfold well_formed. rewrite G6, G7. done.
        -- exists k, sk1. rewrite list_lookup_insert_eq by (by eapply lookup_lt_Some).
           split; [done|]. unfold in_stack. rewrite G1, G2, G3, G4, G5, G6, G7. lia.
    + apply pairwise_disjoint_snoc; [done|]. intros p Hp.
      destruct (Hplaced p Hp) as ([Hpw' Hph'] & k' & sk' & Hk' & Hx & Hw' & Hy & Hyh).
      destruct (Nat.lt_total k' k) as [Hlt|[->|Hgt]].
      * apply overlap_left_of. rewrite G4. pose proof (Horder k' k sk' sk Hlt Hk' Hl). lia.
      * rewrite Hl in Hk'. injection Hk' as <-. apply overlap_above. rewrite G5. lia.
      * apply overlap_right_of. rewrite G4, G6.
        pose proof (Horder k k' sk sk' Hgt Hl Hk'). lia.
  - (* no stack of the list was chosen *)
    assert (Hfull : exists full : bool,
              (if negb (bool_decide (StackLayout.stacks s = []))
               then t <- StackLayout.read (StackLayout.tw v) ;;
                    Ok (StackLayout.size s + t >? (Sheet.size sheet).1)
               else Ok false) = Ok full /\
              (full = false ->
               StackLayout.stacks s = [] \/
               StackLayout.size s + Sprite.w spr <= (Sheet.size sheet).1)).
    { destruct (bool_decide (StackLayout.stacks s = [])) eqn:E; simpl.
      - exists false. split; [done|]. intros _. left. by apply bool_decide_eq_true in E.
      - apply bool_decide_eq_false in E. destruct (Hcons E) as [-> _]. simpl.
        eexists. split; [reflexivity|]. intros Hf. right. zbool. lia. }
    destruct Hfull as (full & -> & Hroom). simpl.
    destruct full.
    { by exists false, s, spr. }
    specialize (Hroom eq_refl).
    unfold StackLayout.Stack.place, StackLayout.Stack.new. simpl.
    assert (Hmax : (if 0 <? Sprite.w (Sprite.set_y (Sprite.set_x spr (StackLayout.size s)) 0)
                    then Sprite.w (Sprite.set_y (Sprite.set_x spr (StackLayout.size s)) 0)
                    else 0) = Sprite.w spr).
    { destruct (_ <? _) eqn:E; [done|]. zbool.
      unfold Sprite.w, Sprite.set_x, Sprite.set_y in *. simpl in *. lia. }
    rewrite Hmax.
    rewrite (Z.max_r (StackLayout.size s)) by lia.
    set (spr1 := Sprite.set_y (Sprite.set_x spr (StackLayout.size s)) 0).
    set (sk1 := StackLayout.Stack.make _ _ _ _).
    eexists true, _, spr1. split; [reflexivity|].
    assert (Hgeom : StackLayout.Stack.start sk1 = StackLayout.size s /\
                    StackLayout.Stack.max sk1 = Sprite.w spr /\
                    StackLayout.Stack.size sk1 = Sprite.h spr /\
                    Sprite.x spr1 = StackLayout.size s /\
                    Sprite.y spr1 = 0 /\
                    Sprite.w spr1 = Sprite.w spr /\ Sprite.h spr1 = Sprite.h spr).
    { by repeat split. }
    destruct Hgeom as (G1 & G2 & G3 & G4 & G5 & G6 & G7).
    clearbody spr1 sk1.
    assert (Hlook : forall k' sk', (StackLayout.stacks s ++ [sk1]) !! k' = Some sk' ->
              (k' = length (StackLayout.stacks s) /\ sk' = sk1) \/
              ((k' < length (StackLayout.stacks s))%nat /\
               StackLayout.stacks s !! k' = Some sk')).
    { intros k' sk' Hq. apply lookup_app_Some in Hq as [Hq|[Hge Hq]].
      - right. split; [by eapply lookup_lt_Some | done].
      - left. apply list_lookup_singleton_Some in Hq as [? ->]. split; [lia | done]. }
    constructor; simpl.
    + lia.
    + intros E. symmetry in E. by apply app_cons_not_nil in E.
    + intros _. destruct Hroom as [E|]; [|lia]. rewrite (Hempty E). lia.
    + intros k' sk' Hq. apply Hlook in Hq as [[-> ->]|[Hlt Hq]].
      * rewrite G1, G2, G3. lia.
      * apply Hstack in Hq. lia.
    + intros k1 k2 sk' sk'' Hlt Hq1 Hq2.
      apply Hlook in Hq1 as [[-> ->]|[Hl1 Hq1]]; apply Hlook in Hq2 as [[-> ->]|[Hl2 Hq2]].
      * lia.
      * lia.
      * rewrite G1. apply Hstack in Hq1. lia.
      * by apply (Horder k1 k2).
    + intros p Hp. apply elem_of_app in Hp as [Hp|Hp].
      * destruct (Hplaced p Hp) as (Hwfp & k' & sk' & Hk' & Hon). split; [done|].
        exists k', sk'. split; [|done]. by apply lookup_app_l_Some.
      * apply list_elem_of_singleton in Hp as ->. split.
        -- unfold well_formed. rewrite G6, G7. done.
        -- exists (length (StackLayout.stacks s)), sk1.
           split; [by apply list_lookup_middle|].
           unfold in_stack. rewrite G1, G2, G3, G4, G5, G6, G7. lia.
    + apply pairwise_disjoint_snoc; [done|]. intros p Hp.
      destruct (Hplaced p Hp) as ([Hpw' Hph'] & k' & sk' & Hk' & Hx & Hw' & Hy & Hyh).
      apply overlap_left_of. rewrite G4. apply Hstack in Hk'. lia.
Qed.

Lemma stack_add_all_keeps_inv (sprites : list Sprite.t) :
  forall s placed,
    stack_inv sheet s placed -> Forall well_formed sprites ->
    exists s' out,
      StackLayout.add_all sheet s sprites = Ok (s', out) /\
      length out = length sprites /\
      stack_inv sheet s' (placed ++ accepted out).
Proof.
  induction sprites as [|spr rest IH]; intros s placed Hinv Hwf; simpl.
  - exists s, []. by rewrite app_nil_r.
  - apply Forall_cons in Hwf as [Hspr Hrest].
    destruct (stack_add_keeps_inv s placed spr Hinv Hspr) as (ok & s1 & spr1 & -> & Hinv1).
    simpl.
    destruct (IH s1 _ Hinv1 Hrest) as (s' & out & -> & Hlen & Hinv'). simpl.
    exists s', ((ok, spr1) :: out). split; [done|]. split; [simpl; by rewrite Hlen|].
    unfold accepted in *. simpl. destruct ok; simpl; [|done].
    by rewrite <- app_assoc in Hinv'.
Qed.

End StackCalls.

(** X13: on a sheet that does not allow rotation, calls of
    [StackLayout.add] on sprites of positive size raise nothing, one result
    comes back for each sprite, the sprites for which [add] returned [True]
    lie inside the bin, and no two of them overlap. *)
Theorem stack_run_without_rotation (sheet : Sheet.t) (sprites : list Sprite.t) :
  Sheet.rotate sheet = false ->
  Forall well_formed sprites ->
  exists st out,
    StackLayout.add_all sheet StackLayout.clear sprites = Ok (st, out) /\
    length out = length sprites /\
    pairwise_disjoint (accepted out) = true /\
    forallb (inside_bin sheet) (accepted out) = true.
Proof.
  intros Hrot Hwf.
  destruct (stack_add_all_keeps_inv sheet Hrot sprites StackLayout.clear []) as
    (st & out & Hrun & Hlen & Hinv); [|done|].
  { constructor; simpl; try done. intros p Hp. by apply not_elem_of_nil in Hp. }
  exists st, out. split; [done|]. split; [done|]. simpl in Hinv.
  destruct Hinv as [Hsize Hempty Hwidth Hstack Horder Hplaced Hdis]. split; [done|].
  apply forallb_forall. intros p Hp. apply list_elem_of_In in Hp.
  destruct (Hplaced p Hp) as ([Hpw Hph] & k & sk & Hk & Hx & Hw & Hy & Hyh).
  destruct (Hstack k sk Hk) as (Hs0 & Hs1 & Hs2).
  assert (Hne : StackLayout.stacks st <> []) by (intros E; by rewrite E in Hk).
  specialize (Hwidth Hne).
  unfold inside_bin, Sheet.in_bin, Rect.right, Rect.bottom.
  unfold Sprite.x, Sprite.y, Sprite.w, Sprite.h in *.
  rewrite !andb_true_iff, !Z.leb_le. lia.
Qed.

Lemma stack_run_without_rotation_witness :
  exists st out,
    StackLayout.add_all (Sheet.bounded 10 10 false) StackLayout.clear
      (sprites_of [(3, 4); (3, 4); (5, 7)]) = Ok (st, out) /\
    length out = length (sprites_of [(3, 4); (3, 4); (5, 7)]) /\
    pairwise_disjoint (accepted out) = true /\
    forallb (inside_bin (Sheet.bounded 10 10 false)) (accepted out) = true.
Proof.
  apply (stack_run_without_rotation (Sheet.bounded 10 10 false)
           (sprites_of [(3, 4); (3, 4); (5, 7)])).
  - reflexivity.
  - repeat constructor.
Defined.

(** ** When [StackLayout.add] refuses *)




(** ** The rows of a [ShelfLayout] *)

Lemma widths_snoc (rects : list Sprite.t) (p : Sprite.t) :
  widths (rects ++ [p]) = widths rects + Sprite.w p.
Proof. induction rects as [|q rest IH]; simpl; lia. Qed.

Lemma side_by_side_snoc (rects : list Sprite.t) (p : Sprite.t) :
  forall x y,
    side_by_side x y rects -> Sprite.x p = x + widths rects -> Sprite.y p = y ->
    side_by_side x y (rects ++ [p]).
Proof.
  induction rects as [|q rest IH]; intros x y Hs Hx Hy; simpl in *.
  - split; [lia|]. done.
  - destruct Hs as (Hqx & Hqy & Hrest). split; [done|]. split; [done|].
    apply IH; [done | lia | done].
Qed.

Lemma heights_snoc (shelves : list ShelfLayout.Shelf.t) (sh : ShelfLayout.Shelf.t) :
  heights (shelves ++ [sh]) = heights shelves + ShelfLayout.Shelf.max sh.
Proof. induction shelves as [|s rest IH]; simpl; lia. Qed.

Lemma shelves_from_snoc (shelves : list ShelfLayout.Shelf.t) (sh : ShelfLayout.Shelf.t) :
  forall y,
    shelves_from y shelves -> ShelfLayout.Shelf.start sh = y + heights shelves ->
    shelves_from y (shelves ++ [sh]).
Proof.
  induction shelves as [|s rest IH]; intros y Hs Hstart; simpl in *.
  - split; [lia | done].
  - destruct Hs as [Hy Hrest]. split; [done|]. apply IH; [done | lia].
Qed.

Section ShelfInsert.
Variables (sh sh1 : ShelfLayout.Shelf.t).
Hypothesis Hstart : ShelfLayout.Shelf.start sh1 = ShelfLayout.Shelf.start sh.
Hypothesis Hmax : ShelfLayout.Shelf.max sh1 = ShelfLayout.Shelf.max sh.

Lemma heights_insert (shelves : list ShelfLayout.Shelf.t) :
  forall k, shelves !! k = Some sh -> heights (<[k := sh1]> shelves) = heights shelves.
Proof.
  induction shelves as [|s rest IH]; intros [|k] Hk; simpl in *; try done.
  - injection Hk as ->. lia.
  - by rewrite (IH k).
Qed.

Lemma shelves_from_insert (shelves : list ShelfLayout.Shelf.t) :
  forall k y, shelves !! k = Some sh ->
    shelves_from y shelves -> shelves_from y (<[k := sh1]> shelves).
Proof.
  induction shelves as [|s rest IH]; intros k y Hk Hs; [by destruct k|].
  destruct k as [|k]; simpl in *; destruct Hs as [Hy Hrest].
  - injection Hk as ->. rewrite Hstart, Hmax. done.
  - split; [done|]. by apply IH.
Qed.

Lemma concat_rects_insert (shelves : list ShelfLayout.Shelf.t) (p : Sprite.t) :
  ShelfLayout.Shelf.rects sh1 = ShelfLayout.Shelf.rects sh ++ [p] ->
  forall k, shelves !! k = Some sh ->
    concat (ShelfLayout.Shelf.rects <$> <[k := sh1]> shelves)
    ≡ₚ concat (ShelfLayout.Shelf.rects <$> shelves) ++ [p].
Proof.
  intros Hrects. induction shelves as [|s rest IH]; intros [|k] Hk; simpl in *; try done.
  - injection Hk as ->. rewrite Hrects, <- !app_assoc.
    apply Permutation_app_head, Permutation_app_comm.
  - rewrite (IH k Hk), app_assoc. done.
Qed.

End ShelfInsert.

(** The bottom of a shelf of a pile is no lower than the bottom of the pile. *)
Lemma shelves_from_bottom (shelves : list ShelfLayout.Shelf.t) :
  forall y k sh,
    shelves_from y shelves -> Forall row shelves -> shelves !! k = Some sh ->
    ShelfLayout.Shelf.start sh + ShelfLayout.Shelf.max sh <= y + heights shelves.
Proof.
  induction shelves as [|s rest IH]; intros y k sh Hfrom Hrow Hk; [by destruct k|].
  destruct Hfrom as [Hy Hrest]. apply Forall_cons in Hrow as [(_ & _ & _ & Hs) Hrows].
  destruct k as [|k]; simpl in *.
  - injection Hk as ->.
    assert (0 <= heights rest).
    { clear -Hrows. induction Hrows as [|s' rest' (_ & _ & _ & ?) _ IH']; simpl; lia. }
    lia.
  - specialize (IH _ _ _ Hrest Hrows Hk). lia.
Qed.

Section ShelfRows.
Variable sheet : Sheet.t.
Hypothesis Hrot : Sheet.rotate sheet = false.

(** A placing turn of the driver keeps the rows. *)
Lemma shelf_turn_keeps_rows (st st1 : ShelfLayout.state)
    (placed remain placed1 remain1 : list Sprite.t) :
  rows st placed ->
  Layout.add_turn (L := ShelfLayout.layout sheet) st placed remain
  = Layout.Again st1 placed1 remain1 ->
  rows st1 placed1.
Proof.
  intros (Hfrom & Hsize & Hrows & Hperm) Ht.
  apply add_turn_again_inv in Ht
    as (i & shelf & rot & spr & spr1 & Hbest & Hi & Hplace & -> & _).
  simpl in Hbest, Hi, Hplace. unfold ShelfLayout.get_best in *.
  destruct (shelf_get_best_from_pick sheet Hrot st remain 0 None None) as [Hout Hpick].
  rewrite Hout in Hi.
  apply Hpick in Hbest as [|(spr' & sc & _ & Hl & Hcand & ->)]; [done|].
  rewrite Nat.sub_0_r, Hi in Hl. injection Hl as <-.
  apply (proj2 (shelf_candidate_without_rotation sheet Hrot st spr)) in Hcand
    as (Hw & Hh & Hfit).
  unfold ShelfLayout.place in Hplace. rewrite xorb_nilpotent in Hplace.
  destruct Hfit as [(k & sh & -> & Hk & Hfw & Hfh)|(-> & Hroom)].
  - (* on a shelf of the list *)
    rewrite Hk in Hplace. unfold ShelfLayout.Shelf.place in Hplace.
    injection Hplace as <- <-.
    assert (Hmax : (if ShelfLayout.Shelf.max sh <?
                       Sprite.h (Sprite.set_y (Sprite.set_x spr (ShelfLayout.Shelf.size sh))
                                   (ShelfLayout.Shelf.start sh))
                    then Sprite.h (Sprite.set_y (Sprite.set_x spr (ShelfLayout.Shelf.size sh))
                                     (ShelfLayout.Shelf.start sh))
                    else ShelfLayout.Shelf.max sh) = ShelfLayout.Shelf.max sh).
    { destruct (_ <? _) eqn:E; [|done]. zbool.
      unfold Sprite.h, Sprite.set_x, Sprite.set_y in *. simpl in *. lia. }
    rewrite Hmax.
    pose proof (shelves_from_bottom _ 0 k sh Hfrom Hrows Hk) as Hbot.
    rewrite (Z.max_l (ShelfLayout.size st)) by (simpl; lia).
    set (spr1 := Sprite.set_y (Sprite.set_x spr (ShelfLayout.Shelf.size sh))
                   (ShelfLayout.Shelf.start sh)).
    set (sh1 := ShelfLayout.Shelf.make _ _ _ _).
    assert (Hgeom : ShelfLayout.Shelf.start sh1 = ShelfLayout.Shelf.start sh /\
                    ShelfLayout.Shelf.max sh1 = ShelfLayout.Shelf.max sh /\
                    ShelfLayout.Shelf.size sh1 = ShelfLayout.Shelf.size sh + Sprite.w spr /\
                    ShelfLayout.Shelf.rects sh1 = ShelfLayout.Shelf.rects sh ++ [spr1] /\
                    Sprite.x spr1 = ShelfLayout.Shelf.size sh /\
                    Sprite.y spr1 = ShelfLayout.Shelf.start sh /\
                    Sprite.w spr1 = Sprite.w spr /\ Sprite.h spr1 = Sprite.h spr).
    { by repeat split. }
    destruct Hgeom as (G1 & G2 & G3 & G4 & G5 & G6 & G7 & G8).
    clearbody spr1 sh1.
    pose proof Hrows as Hrows0. rewrite Forall_forall in Hrows0.
    destruct (Hrows0 sh (list_elem_of_lookup_2 _ k sh Hk)) as (Hside & Hwid & Hhs & Hpos).
    split; [|split; [|split]]; simpl.
    + by apply (shelves_from_insert sh sh1 G1 G2).
    + by rewrite (heights_insert sh sh1 G2).
    + apply Forall_insert; [done|]. unfold row. rewrite G1, G2, G3, G4.
      split; [|split; [|split]].
      * apply side_by_side_snoc; [done | lia | done].
      * rewrite widths_snoc. lia.
      * apply Forall_app. split; [done|]. constructor; [lia | done].
      * done.
    + rewrite (concat_rects_insert sh sh1 _ spr1 G4 k Hk). by rewrite Hperm.
  - (* on a new shelf *)
    unfold ShelfLayout.Shelf.place, ShelfLayout.Shelf.new in Hplace. simpl in Hplace.
    injection Hplace as <- <-.
    set (spr1 := Sprite.set_y (Sprite.set_x spr 0) (ShelfLayout.size st)).
    set (m := if 0 <? Sprite.h spr1 then Sprite.h spr1 else 0).
    assert (Hm : 0 <= m /\ Sprite.h spr1 <= m).
    { subst m. destruct (0 <? Sprite.h spr1) eqn:E; zbool; lia. }
    destruct Hm as [Hm0 Hm1]. clearbody m.
    rewrite (Z.max_r (ShelfLayout.size st)) by lia.
    set (sh1 := ShelfLayout.Shelf.make _ _ _ _).
    assert (Hgeom : ShelfLayout.Shelf.start sh1 = ShelfLayout.size st /\
                    ShelfLayout.Shelf.max sh1 = m /\
                    ShelfLayout.Shelf.size sh1 = Sprite.w spr1 /\
                    ShelfLayout.Shelf.rects sh1 = [spr1] /\
                    Sprite.x spr1 = 0 /\
                    Sprite.y spr1 = ShelfLayout.size st).
    { by repeat split. }
    destruct Hgeom as (G1 & G2 & G3 & G4 & G5 & G6).
    clearbody spr1 sh1.
    split; [|split; [|split]]; simpl.
    + apply shelves_from_snoc; [done | lia].
    + rewrite heights_snoc, G2. lia.
    + apply Forall_app. split; [done|]. constructor; [|done].
      unfold row. rewrite G1, G2, G3, G4. simpl.
      split; [|split; [|split]]; [done | lia | | done].
      constructor; [lia | done].
    + rewrite fmap_app, concat_app. simpl. rewrite G4, app_nil_r. by rewrite Hperm.
Qed.

End ShelfRows.

(** X15: on a sheet that does not allow rotation, [ShelfLayout.add] leaves
    the layout as a pile of rows without gaps: the shelves lie one below the
    other from the top of the bin, [size] is their height together, each
    shelf holds in [rects] its sprites side by side from the left of the bin
    with [size] their width together and none higher than the shelf, and the
    sprites on the shelves are the sprites of [placed]. *)
Theorem shelf_rows_without_rotation (sheet : Sheet.t)
    (sprites placed remain : list Sprite.t) (st : ShelfLayout.state) :
  Sheet.rotate sheet = false ->
  ShelfLayout.add sheet sprites = Some (Ok (st, placed, remain)) ->
  rows st placed.
Proof.
  intros Hrot. unfold ShelfLayout.add, Layout.add.
  apply (add_loop_final (ShelfLayout.layout sheet)
           (fun s pl _ => rows s pl) (fun s pl _ => rows s pl)).
  - intros s pl rm s1 pl1 rm1. by apply shelf_turn_keeps_rows.
  - intros s pl rm s1 pl1 rm1 Hinv Ht.
    apply add_turn_break_inv in Ht
      as [-> [(-> & -> & ->)|[(Hnone & -> & ->)|
             (i & pos & rot & spr & spr1 & _ & _ & Hplace & _)]]]; [done | done |].
    simpl in Hplace. pose proof (shelf_place_true s spr pos rot) as Ht.
    rewrite Hplace in Ht. discriminate.
  - by repeat split.
Qed.

Lemma shelf_rows_without_rotation_witness :
  rows (ShelfLayout.make 6
          [ShelfLayout.Shelf.make 0 10 6 [at_pos 0 6 6 0 0 false; at_pos 1 4 4 6 0 false]])
    [at_pos 0 6 6 0 0 false; at_pos 1 4 4 6 0 false].
Proof.
  apply (shelf_rows_without_rotation (Sheet.bounded 10 10 false)
           (sprites_of [(6, 6); (4, 4)])
           [at_pos 0 6 6 0 0 false; at_pos 1 4 4 6 0 false] []).
  - reflexivity.
  - vm_compute. reflexivity.
Defined.
